(** * Crash-round engine: a shallow embedding of the round session,
      the seed chain, the risk monitor, the crash-point policy and the
      round queue, with the properties of the specification settled
      against it.

    JavaScript numbers are modelled by exact rationals ([Q]): every
    comparison, sum, product, quotient by a non-zero value, [Math.floor],
    [Math.round] and [Math.max] is the exact operation.  The exception is
    [calculateBetBasedCrashPoint], which cuts a quotient of stakes to two
    decimals, so that the last bit of a double decides the result: there
    every operation is followed by the rounding of binary64
    ([Num.double]).  [Date.now()] is an integer number of milliseconds
    ([Z]).  Values that are not finite numbers are not represented; a
    function that can produce one says where.  A [Map] keyed by wallet
    identifier is a [gmap string _]; arrays are lists in array order.  A
    call of a member that an object does not have throws a [TypeError],
    as it does when the compiled script runs. *)

From Stdlib Require Import ZArith QArith Qround Qabs Lqa Lia List Sorted.
From stdpp Require Import gmap strings.

Local Open Scope Q_scope.

(** ** JavaScript number helpers *)
Module Num.

Definition Qltb (x y : Q) : bool := negb (Qle_bool y x).

(** [Math.floor] *)
Definition Math_floor (x : Q) : Q := inject_Z (Qfloor x).

(** [Math.round]: the nearest integer, halves rounded up. *)
Definition Math_round (x : Q) : Q := inject_Z (Qfloor (x + (1 # 2))).

(** [Math.max(a, b)] *)
Definition Math_max (a b : Q) : Q := if Qle_bool a b then b else a.

(** The exponent [e] with [2^e <= |x| < 2^(e+1)], for [x] other than 0. *)
Definition binaryExponent (x : Q) : Z :=
  let e := (Z.log2 (Z.abs (Qnum x)) - Z.log2 (Zpos (Qden x)))%Z in
  if Qle_bool (2 ^ e) (Qabs x) then e else (e - 1)%Z.

(** The nearest integer, a half going to the even one. *)
Definition roundHalfEven (x : Q) : Z :=
  let f := Qfloor x in
  let r := x - inject_Z f in
  if Qltb r (1 # 2) then f
  else if Qltb (1 # 2) r then (f + 1)%Z
  else if Z.even f then f else (f + 1)%Z.

(** The binary64 number nearest to [x], ties to even: 53 significant
    bits from [2^-1022] on and multiples of [2^-1074] below.  A magnitude
    of [2^1024] or more, which a double turns into an infinity, is out of
    the model. *)
Definition double (x : Q) : Q :=
  if Qeq_bool x 0 then 0
  else
    let ulp := 2 ^ (Z.max (binaryExponent x) (-1022) - 52) in
    Qred (inject_Z (roundHalfEven (x / ulp)) * ulp).

(** [walletId.startsWith('SW_') || walletId.startsWith('SIM_')] *)
Definition isSyntheticWallet (walletId : string) : bool :=
  String.prefix "SW_" walletId || String.prefix "SIM_" walletId.

End Num.

(** ** gameSession.ts *)
Module GameSession.
Import Num.

Record Bet := mkBet {
  walletId : string;
  amount : Q;
  cashoutAt : option Q
}.

Record NextRoundBet := mkNextRoundBet {
  nrWalletId : string;
  nrAmount : Q
}.

Record t := mkSession {
  id : string;
  gameHash : string;
  crashPoint : Q;
  salt : string;
  clientSeed : string;
  gameStartTime : option Z;
  gameEndTime : option Z;
  bets : gmap string Bet;
  nextRoundBets : list NextRoundBet;
  currentMultiplier : Q;
  secondBets : gmap string Bet;
  secondNextRoundBets : list NextRoundBet;
  roundId : Z
}.

Definition new (id gameHash : string) (crashPoint : Q) (salt clientSeed : string)
    (roundId : Z) : t :=
  mkSession id gameHash crashPoint salt clientSeed None None ∅ [] 1 ∅ [] roundId.

Definition with_bets (m : gmap string Bet) (s : t) : t :=
  mkSession (id s) (gameHash s) (crashPoint s) (salt s) (clientSeed s)
    (gameStartTime s) (gameEndTime s) m (nextRoundBets s)
    (currentMultiplier s) (secondBets s) (secondNextRoundBets s) (roundId s).

Definition with_secondBets (m : gmap string Bet) (s : t) : t :=
  mkSession (id s) (gameHash s) (crashPoint s) (salt s) (clientSeed s)
    (gameStartTime s) (gameEndTime s) (bets s) (nextRoundBets s)
    (currentMultiplier s) m (secondNextRoundBets s) (roundId s).

Definition with_nextRoundBets (l : list NextRoundBet) (s : t) : t :=
  mkSession (id s) (gameHash s) (crashPoint s) (salt s) (clientSeed s)
    (gameStartTime s) (gameEndTime s) (bets s) l
    (currentMultiplier s) (secondBets s) (secondNextRoundBets s) (roundId s).

Definition with_secondNextRoundBets (l : list NextRoundBet) (s : t) : t :=
  mkSession (id s) (gameHash s) (crashPoint s) (salt s) (clientSeed s)
    (gameStartTime s) (gameEndTime s) (bets s) (nextRoundBets s)
    (currentMultiplier s) (secondBets s) l (roundId s).

Definition with_currentMultiplier (m : Q) (s : t) : t :=
  mkSession (id s) (gameHash s) (crashPoint s) (salt s) (clientSeed s)
    (gameStartTime s) (gameEndTime s) (bets s) (nextRoundBets s)
    m (secondBets s) (secondNextRoundBets s) (roundId s).

Definition with_crashPoint (c : Q) (s : t) : t :=
  mkSession (id s) (gameHash s) c (salt s) (clientSeed s)
    (gameStartTime s) (gameEndTime s) (bets s) (nextRoundBets s)
    (currentMultiplier s) (secondBets s) (secondNextRoundBets s) (roundId s).

Definition with_times (st en : option Z) (s : t) : t :=
  mkSession (id s) (gameHash s) (crashPoint s) (salt s) (clientSeed s)
    st en (bets s) (nextRoundBets s)
    (currentMultiplier s) (secondBets s) (secondNextRoundBets s) (roundId s).

(** [endGame()] *)
Definition endGame (now : Z) (s : t) : t :=
  with_times (gameStartTime s) (Some now) s.

(** [isGameInProgress()] *)
Definition isGameInProgress (s : t) : bool :=
  match gameStartTime s, gameEndTime s with
  | Some _, None => true
  | _, _ => false
  end.

(** The lifecycle state reported by [getGameState()]. *)
Inductive Lifecycle := WAITING | ACTIVE | ENDED.

Definition lifecycle (s : t) : Lifecycle :=
  match gameStartTime s with
  | None => WAITING
  | Some _ => match gameEndTime s with None => ACTIVE | Some _ => ENDED end
  end.

(** [updateMultiplier()].  [Math_pow_E x] stands for
    [Math.pow(Math.E, x)] and [now] for [Date.now()]. *)
Section Clock.
Variable Math_pow_E : Q -> Q.

Definition rawMultiplier (now : Z) (s : t) : Q :=
  match gameStartTime s with
  | Some start => Math_pow_E ((3 # 10) * inject_Z (now - start)%Z / 1000)
  | None => 1
  end.

Definition increment (s : t) : Q :=
  if Qltb 10 (currentMultiplier s) then 51 # 100 else 11 # 1000.

Definition steps (now : Z) (s : t) : Z :=
  Qfloor ((rawMultiplier now s - currentMultiplier s) / increment s).

Definition updateMultiplier (now : Z) (s : t) : t :=
  if negb (isGameInProgress s) then s
  else if (0 <? steps now s)%Z
  then with_currentMultiplier
         (Math_round ((currentMultiplier s + increment s) * 100) / 100) s
  else s.

(** The multipliers seen after each of a sequence of ticks, the
    tick at time [now] calling [updateMultiplier] once. *)
Fixpoint tickMultipliers (nows : list Z) (s : t) : list Q :=
  match nows with
  | [] => []
  | now :: rest =>
      let s' := updateMultiplier now s in
      currentMultiplier s' :: tickMultipliers rest s'
  end.

Definition runTicks (nows : list Z) (s : t) : t :=
  fold_left (fun acc now => updateMultiplier now acc) nows s.
End Clock.

(** [setCurrentCrashPoint(newCrashPoint)] *)
Definition setCurrentCrashPoint (newCrashPoint : Q) (s : t) : t :=
  with_crashPoint newCrashPoint s.

(** [getActiveBet(walletId, isSecondBet)] *)
Definition getActiveBet (w : string) (isSecondBet : bool) (s : t) : option Bet :=
  match (if isSecondBet then secondBets s else bets s) !! w with
  | Some bet => match cashoutAt bet with None => Some bet | Some _ => None end
  | None => None
  end.

(** [placeBet(walletId, amount)] *)
Definition placeBet (w : string) (a : Q) (s : t) : bool * t :=
  match bets s !! w with
  | None => (true, with_bets (<[w := mkBet w a None]> (bets s)) s)
  | Some _ => (false, s)
  end.

(** [placeSecondBet(walletId, amount)] *)
Definition placeSecondBet (w : string) (a : Q) (s : t) : bool * t :=
  match secondBets s !! w with
  | None => (true, with_secondBets (<[w := mkBet w a None]> (secondBets s)) s)
  | Some _ => (false, s)
  end.

(** [findIndex] followed by [splice(index, 1)] on a next-round queue:
    the amount of the first entry of the wallet and the queue without
    that entry. *)
Fixpoint spliceFirst (w : string) (l : list NextRoundBet)
    : option (Q * list NextRoundBet) :=
  match l with
  | [] => None
  | b :: rest =>
      if String.eqb (nrWalletId b) w then Some (nrAmount b, rest)
      else match spliceFirst w rest with
           | Some (a, rest') => Some (a, b :: rest')
           | None => None
           end
  end.

(** [cancelBet(walletId)] *)
Definition cancelBet (w : string) (s : t) : option Q * t :=
  if isGameInProgress s then
    match spliceFirst w (nextRoundBets s) with
    | Some (a, rest) => (Some a, with_nextRoundBets rest s)
    | None => (None, s)
    end
  else
    match bets s !! w with
    | Some bet =>
        match cashoutAt bet with
        | None => (Some (amount bet), with_bets (delete w (bets s)) s)
        | Some _ => (None, s)
        end
    | None => (None, s)
    end.

(** [cancelSecondBet(walletId)] *)
Definition cancelSecondBet (w : string) (s : t) : option Q * t :=
  if isGameInProgress s then
    match spliceFirst w (secondNextRoundBets s) with
    | Some (a, rest) => (Some a, with_secondNextRoundBets rest s)
    | None => (None, s)
    end
  else
    match secondBets s !! w with
    | Some bet =>
        match cashoutAt bet with
        | None => (Some (amount bet), with_secondBets (delete w (secondBets s)) s)
        | Some _ => (None, s)
        end
    | None => (None, s)
    end.

(** [cashout(walletId)]: [None] is the source's [null]. *)
Definition cashout (w : string) (s : t) : option Q * t :=
  if negb (isGameInProgress s) then (None, s)
  else match bets s !! w with
       | None => (None, s)
       | Some bet =>
           match cashoutAt bet with
           | Some _ => (None, s)
           | None =>
               (Some (amount bet * currentMultiplier s),
                with_bets
                  (<[w := mkBet (walletId bet) (amount bet)
                                (Some (currentMultiplier s))]> (bets s)) s)
           end
       end.

(** [secondCashout(walletId)] *)
Definition secondCashout (w : string) (s : t) : option Q * t :=
  if negb (isGameInProgress s) then (None, s)
  else match secondBets s !! w with
       | None => (None, s)
       | Some bet =>
           match cashoutAt bet with
           | Some _ => (None, s)
           | None =>
               (Some (amount bet * currentMultiplier s),
                with_secondBets
                  (<[w := mkBet (walletId bet) (amount bet)
                                (Some (currentMultiplier s))]> (secondBets s)) s)
           end
       end.

(** [addNextRoundBet(bet)] and [addSecondNextRoundBet(bet)] *)
Definition addNextRoundBet (b : NextRoundBet) (s : t) : t :=
  with_nextRoundBets (nextRoundBets s ++ [b]) s.

Definition addSecondNextRoundBet (b : NextRoundBet) (s : t) : t :=
  with_secondNextRoundBets (secondNextRoundBets s ++ [b]) s.

(** [moveNextRoundBetsToCurrent()] *)
Definition moveNextRoundBetsToCurrent (s : t) : t :=
  with_nextRoundBets []
    (fold_left (fun acc b => snd (placeBet (nrWalletId b) (nrAmount b) acc))
               (nextRoundBets s) s).

(** [moveSecondNextRoundBetsToCurrent()] *)
Definition moveSecondNextRoundBetsToCurrent (s : t) : t :=
  with_secondNextRoundBets []
    (fold_left (fun acc b => snd (placeSecondBet (nrWalletId b) (nrAmount b) acc))
               (secondNextRoundBets s) s).

(** [startGame()] *)
Definition startGame (now : Z) (s : t) : t :=
  moveSecondNextRoundBetsToCurrent
    (moveNextRoundBetsToCurrent (with_times (Some now) (gameEndTime s) s)).

(** [forceGameEnd()] *)
Definition forceGameEnd (now : Z) (s : t) : t :=
  if isGameInProgress s
  then with_times (gameStartTime s) (Some now)
         (with_crashPoint (currentMultiplier s) s)
  else s.

(** The two tracks of a wallet: [isSecondBet] selects the ledger and
    the methods of the second one. *)
Inductive Track := PRIMARY | SECONDARY.

Definition ledger (tr : Track) (s : t) : gmap string Bet :=
  match tr with PRIMARY => bets s | SECONDARY => secondBets s end.

Definition placeOn (tr : Track) : string -> Q -> t -> bool * t :=
  match tr with PRIMARY => placeBet | SECONDARY => placeSecondBet end.

Definition cashoutOn (tr : Track) : string -> t -> option Q * t :=
  match tr with PRIMARY => cashout | SECONDARY => secondCashout end.

(** [cancelSecondNextRoundBet(walletId)] *)
Definition cancelSecondNextRoundBet (w : string) (s : t) : option Q * t :=
match spliceFirst w (secondNextRoundBets s) with
| Some (a, rest) => (Some a, with_secondNextRoundBets rest s)
| None => (None, s)
end.

(** The object [getGameState()] returns; [countdown] is always [null]
    there. *)
Record GameState := mkGameState {
gsState : Lifecycle;
gsElapsedTime : Z;
gsMultiplier : Q;
gsCountdown : option Z;
gsGameHash : string;
gsCrashPoint : option Q;
gsRoundId : Z
}.

(** [getGameState()] at time [now]. *)
Definition getGameState (now : Z) (s : t) : GameState :=
let state := lifecycle s in
let elapsedTime :=
  match gameStartTime s, gameEndTime s with
  | None, _ => 0%Z
  | Some start, None => (now - start)%Z
  | Some start, Some en => (en - start)%Z
  end in
mkGameState state elapsedTime (currentMultiplier s) None (gameHash s)
  (match state with ENDED => Some (crashPoint s) | _ => None end)
  (roundId s).

(** The public methods that change a session, as one call each. *)
Inductive Op :=
| CallStartGame (now : Z)
| CallEndGame (now : Z)
| CallUpdateMultiplier (now : Z)
| CallSetCurrentCrashPoint (c : Q)
| CallPlaceBet (w : string) (a : Q)
| CallCancelBet (w : string)
| CallCashout (w : string)
| CallAddNextRoundBet (b : NextRoundBet)
| CallMoveNextRoundBetsToCurrent
| CallPlaceSecondBet (w : string) (a : Q)
| CallCancelSecondBet (w : string)
| CallSecondCashout (w : string)
| CallAddSecondNextRoundBet (b : NextRoundBet)
| CallCancelSecondNextRoundBet (w : string)
| CallMoveSecondNextRoundBetsToCurrent
| CallForceGameEnd (now : Z).

(** The session one call leaves. *)
Definition call (Math_pow_E : Q -> Q) (op : Op) (s : t) : t :=
match op with
| CallStartGame now => startGame now s
| CallEndGame now => endGame now s
| CallUpdateMultiplier now => updateMultiplier Math_pow_E now s
| CallSetCurrentCrashPoint c => setCurrentCrashPoint c s
| CallPlaceBet w a => snd (placeBet w a s)
| CallCancelBet w => snd (cancelBet w s)
| CallCashout w => snd (cashout w s)
| CallAddNextRoundBet b => addNextRoundBet b s
| CallMoveNextRoundBetsToCurrent => moveNextRoundBetsToCurrent s
| CallPlaceSecondBet w a => snd (placeSecondBet w a s)
| CallCancelSecondBet w => snd (cancelSecondBet w s)
| CallSecondCashout w => snd (secondCashout w s)
| CallAddSecondNextRoundBet b => addSecondNextRoundBet b s
| CallCancelSecondNextRoundBet w => snd (cancelSecondNextRoundBet w s)
| CallMoveSecondNextRoundBetsToCurrent => moveSecondNextRoundBetsToCurrent s
| CallForceGameEnd now => forceGameEnd now s
end.

(** The session a sequence of calls leaves. *)
Definition calls (Math_pow_E : Q -> Q) (ops : list Op) (s : t) : t :=
fold_left (fun acc op => call Math_pow_E op acc) ops s.

End GameSession.

(** ** SHA-256 and HMAC-SHA256 (Node's [crypto.createHash('sha256')] and
       [crypto.createHmac('sha256', key)]), on bytes held as [Z]. *)
Module Sha256.
Local Open Scope Z_scope.

Definition w32 (x : Z) : Z := x mod 4294967296.
Definition add32 (x y : Z) : Z := w32 (x + y).
Definition rotr (n x : Z) : Z :=
  Z.lor (Z.shiftr x n) (w32 (Z.shiftl x (32 - n))).
Definition Ch (x y z : Z) : Z :=
  Z.lxor (Z.land x y) (Z.land (w32 (Z.lnot x)) z).
Definition Maj (x y z : Z) : Z :=
  Z.lxor (Z.lxor (Z.land x y) (Z.land x z)) (Z.land y z).
Definition Sigma0 (x : Z) : Z :=
  Z.lxor (Z.lxor (rotr 2 x) (rotr 13 x)) (rotr 22 x).
Definition Sigma1 (x : Z) : Z :=
  Z.lxor (Z.lxor (rotr 6 x) (rotr 11 x)) (rotr 25 x).
Definition sigma0 (x : Z) : Z :=
  Z.lxor (Z.lxor (rotr 7 x) (rotr 18 x)) (Z.shiftr x 3).
Definition sigma1 (x : Z) : Z :=
  Z.lxor (Z.lxor (rotr 17 x) (rotr 19 x)) (Z.shiftr x 10).

Definition K : list Z :=
  [1116352408; 1899447441; 3049323471; 3921009573; 961987163; 1508970993;
   2453635748; 2870763221; 3624381080; 310598401; 607225278; 1426881987;
   1925078388; 2162078206; 2614888103; 3248222580; 3835390401; 4022224774;
   264347078; 604807628; 770255983; 1249150122; 1555081692; 1996064986;
   2554220882; 2821834349; 2952996808; 3210313671; 3336571891; 3584528711;
   113926993; 338241895; 666307205; 773529912; 1294757372; 1396182291;
   1695183700; 1986661051; 2177026350; 2456956037; 2730485921; 2820302411;
   3259730800; 3345764771; 3516065817; 3600352804; 4094571909; 275423344;
   430227734; 506948616; 659060556; 883997877; 958139571; 1322822218;
   1537002063; 1747873779; 1955562222; 2024104815; 2227730452; 2361852424;
   2428436474; 2756734187; 3204031479; 3329325298].

Definition H0 : list Z :=
  [1779033703; 3144134277; 1013904242; 2773480762;
   1359893119; 2600822924; 528734635; 1541459225].

(** Big-endian bytes of a word and back. *)
Definition bytesOfWord (n : nat) (x : Z) : list Z :=
  map (fun i => Z.shiftr x (8 * Z.of_nat i) mod 256) (rev (seq 0 n)).

Definition wordOfBytes (bs : list Z) : Z :=
  fold_left (fun acc b => acc * 256 + b) bs 0.

Fixpoint chunks {A} (n : nat) (count : nat) (l : list A) : list (list A) :=
  match count with
  | O => []
  | S c => firstn n l :: chunks n c (skipn n l)
  end.

(** Padding: 0x80, zeros up to 56 mod 64, then the bit length on 8 bytes. *)
Definition pad (msg : list Z) : list Z :=
  let len := Z.of_nat (length msg) in
  let zeros := Z.to_nat ((55 - len) mod 64) in
  msg ++ [128] ++ repeat 0 zeros ++ bytesOfWord 8 (8 * len).

(** The 48 scheduled words that follow a window of 16. *)
Fixpoint expand (n : nat) (w : list Z) : list Z :=
  match n with
  | O => []
  | S n' =>
      let nw := add32 (add32 (sigma1 (nth 14 w 0)) (nth 9 w 0))
                      (add32 (sigma0 (nth 1 w 0)) (nth 0 w 0)) in
      nw :: expand n' (tl w ++ [nw])
  end.

Definition round (st : list Z) (kw : Z * Z) : list Z :=
  match st with
  | [a; b; c; d; e; f; g; h] =>
      let t1 := add32 (add32 (add32 h (Sigma1 e)) (add32 (Ch e f g) (fst kw)))
                      (snd kw) in
      let t2 := add32 (Sigma0 a) (Maj a b c) in
      [add32 t1 t2; a; b; c; add32 d t1; e; f; g]
  | _ => st
  end.

Definition compress (h : list Z) (block : list Z) : list Z :=
  let w16 := map wordOfBytes (chunks 4 16 block) in
  let w := w16 ++ expand 48 w16 in
  let st := fold_left round (combine K w) h in
  map (fun p => add32 (fst p) (snd p)) (combine h st).

Definition sha256 (msg : list Z) : list Z :=
  let p := pad msg in
  let blocks := chunks 64 (length p / 64) p in
  flat_map (bytesOfWord 4) (fold_left compress blocks H0).

(** HMAC (RFC 2104) with a 64-byte block. *)
Definition hmac (key msg : list Z) : list Z :=
  let k0 := if (64 <? Z.of_nat (length key)) then sha256 key else key in
  let k := k0 ++ repeat 0 (64 - length k0) in
  let ipad := map (fun b => Z.lxor b 54) k in
  let opad := map (fun b => Z.lxor b 92) k in
  sha256 (opad ++ sha256 (ipad ++ msg)).

(** Strings as bytes (the seeds are hexadecimal or ASCII text) and
    [digest('hex')]. *)
Definition bytesOfString (s : string) : list Z :=
  map (fun c => Z.of_nat (Ascii.nat_of_ascii c)) (String.list_ascii_of_string s).

Definition hexDigit (n : Z) : Ascii.ascii :=
  Ascii.ascii_of_nat (Z.to_nat (if n <? 10 then 48 + n else 87 + n)).

Definition hexOfBytes (bs : list Z) : string :=
  String.string_of_list_ascii
    (flat_map (fun b => [hexDigit (b / 16); hexDigit (b mod 16)]) bs).

Definition digitOfHex (c : Ascii.ascii) : option Z :=
  let n := Z.of_nat (Ascii.nat_of_ascii c) in
  if (48 <=? n) && (n <=? 57) then Some (n - 48)
  else if (97 <=? n) && (n <=? 102) then Some (n - 87)
  else if (65 <=? n) && (n <=? 70) then Some (n - 55)
  else None.

(** [parseInt(s, 16)] on a string that starts with a hexadecimal digit:
    the leading run of digits is read. *)
Fixpoint parseHexFrom (acc : Z) (cs : list Ascii.ascii) : Z :=
  match cs with
  | [] => acc
  | c :: rest =>
      match digitOfHex c with
      | Some d => parseHexFrom (acc * 16 + d) rest
      | None => acc
      end
  end.

Definition parseInt16 (s : string) : Z :=
  parseHexFrom 0 (String.list_ascii_of_string s).

(** [crypto.createHash('sha256').update(seed).digest('hex')] *)
Definition generateHash (seed : string) : string :=
  hexOfBytes (sha256 (bytesOfString seed)).

(** [crypto.createHmac('sha256', key).update(message).digest('hex')] *)
Definition calculateHmac (message key : string) : string :=
  hexOfBytes (hmac (bytesOfString key) (bytesOfString message)).

End Sha256.

(** ** src/services/BetSimulator.ts, class [CrashGame] *)
Module CrashGame.
Import Num.

Record t := mkCrashGame {
  currentCrashPoint : Q;
  emergencyThreshold : Q;
  currentGameWinnings : Q;
  isEmergencyCrash : bool;
  maxAllowedCrashpoint : Q;
  enforceMaxCrashpoint : bool;
  potentialWinnings : Q;
  isBetBasedCrashPoint : bool;
  betBasedHouseEdgePercentage : Q;
  minCrashPoint : Q;
  highCrashPointFrequency : Q;
  skipCrashPointManagement : Q;
  betBasedOffsetAmount : Q
}.

Definition POINTS_TO_GENERATE : nat := 25.

(** The fields as the constructor leaves them. *)
Definition new : t :=
  mkCrashGame 1 0 0 false 0 false 0 false 60 1 80 10 0.

Definition with_currentCrashPoint (c : Q) (g : t) : t :=
  mkCrashGame c (emergencyThreshold g) (currentGameWinnings g)
    (isEmergencyCrash g) (maxAllowedCrashpoint g) (enforceMaxCrashpoint g)
    (potentialWinnings g) (isBetBasedCrashPoint g)
    (betBasedHouseEdgePercentage g) (minCrashPoint g)
    (highCrashPointFrequency g) (skipCrashPointManagement g)
    (betBasedOffsetAmount g).

Definition with_winnings (cur pot : Q) (flag : bool) (g : t) : t :=
  mkCrashGame (currentCrashPoint g) (emergencyThreshold g) cur
    flag (maxAllowedCrashpoint g) (enforceMaxCrashpoint g)
    pot (isBetBasedCrashPoint g)
    (betBasedHouseEdgePercentage g) (minCrashPoint g)
    (highCrashPointFrequency g) (skipCrashPointManagement g)
    (betBasedOffsetAmount g).

Definition with_betBasedOffsetAmount (o : Q) (g : t) : t :=
  mkCrashGame (currentCrashPoint g) (emergencyThreshold g)
    (currentGameWinnings g) (isEmergencyCrash g) (maxAllowedCrashpoint g)
    (enforceMaxCrashpoint g) (potentialWinnings g) (isBetBasedCrashPoint g)
    (betBasedHouseEdgePercentage g) (minCrashPoint g)
    (highCrashPointFrequency g) (skipCrashPointManagement g) o.

(** *** Seed chain *)

(** [h / 2^52] for the first 52 bits of the HMAC of
    [clientSeed + '-' + salt] keyed by [key]. *)
Definition hmacFraction (key clientSeed salt : string) : Q :=
  let hash := Sha256.calculateHmac (clientSeed +:+ "-" +:+ salt) key in
  let h := Sha256.parseInt16 (String.substring 0 13 hash) in
  inject_Z h / inject_Z (2 ^ 52).

(** [1 + (crypto.randomBytes(1)[0] / 255 - 0.5) * variance], the byte
    being [jitter]. *)
Definition randomFactor (jitter : Z) : Q :=
  1 + (inject_Z jitter / 255 - (1 # 2)) * (3 # 100).

(** The bucket table of [calculateCrashPoint]; [None] is the instant
    crash, which returns 1.0 at once. *)
Definition generationTable (r : Q) : option Q :=
  if Qltb r (30 # 100) then None
  else if Qltb r (31 # 100) then Some (20 + ((r - (30 # 100)) / (1 # 100)) * 20)
  else if Qltb r (34 # 100) then Some (8 + ((r - (31 # 100)) / (3 # 100)) * 12)
  else if Qltb r (40 # 100) then Some (4 + ((r - (34 # 100)) / (6 # 100)) * 4)
  else if Qltb r (55 # 100) then Some (2 + ((r - (40 # 100)) / (15 # 100)) * 2)
  else if Qltb r (75 # 100)
       then Some ((13 # 10) + ((r - (55 # 100)) / (20 # 100)) * (7 # 10))
  else Some ((101 # 100) + ((r - (75 # 100)) / (25 # 100)) * (29 # 100)).

(** The body of [calculateCrashPoint] once [r] is known.  [houseEdge]
    is the value read by [getHouseEdge()] (a fraction other than 1) and
    [jitter] the random byte. *)
Definition crashPointOfFraction (g : t) (houseEdge : Q) (jitter : Z) (r : Q) : Q :=
  if isEmergencyCrash g then 1
  else match generationTable r with
       | None => 1
       | Some c0 =>
           let c1 := if Qltb 1 c0 then c0 * randomFactor jitter else c0 in
           let c2 := c1 / (1 - houseEdge) in
           let c3 := Math_floor (c2 * 100) / 100 in
           let c4 := if enforceMaxCrashpoint g && Qltb (maxAllowedCrashpoint g) c3
                     then maxAllowedCrashpoint g else c3 in
           Math_max 1 c4
       end.

(** [calculateCrashPoint(gameHash, clientSeed, salt)] *)
Definition calculateCrashPoint (g : t) (houseEdge : Q) (jitter : Z)
    (gameHash clientSeed salt : string) : Q :=
  crashPointOfFraction g houseEdge jitter (hmacFraction gameHash clientSeed salt).

(** The bucket table of [verifyGame]. *)
Definition verificationTable (r : Q) : option Q :=
  if Qltb r (10 # 100) then None
  else if Qltb r (12 # 100) then Some (100 + ((r - (10 # 100)) / (2 # 100)) * 100)
  else if Qltb r (15 # 100) then Some (50 + ((r - (12 # 100)) / (3 # 100)) * 50)
  else if Qltb r (18 # 100) then Some (30 + ((r - (15 # 100)) / (3 # 100)) * 20)
  else if Qltb r (22 # 100) then Some (15 + ((r - (18 # 100)) / (4 # 100)) * 15)
  else if Qltb r (28 # 100) then Some (8 + ((r - (22 # 100)) / (6 # 100)) * 7)
  else if Qltb r (38 # 100) then Some (4 + ((r - (28 # 100)) / (10 # 100)) * 4)
  else if Qltb r (53 # 100) then Some (2 + ((r - (38 # 100)) / (15 # 100)) * 2)
  else if Qltb r (75 # 100)
       then Some ((15 # 10) + ((r - (53 # 100)) / (22 # 100)) * (5 # 10))
  else Some ((11 # 10) + ((r - (75 # 100)) / (15 # 100)) * (4 # 10)).

(** The body of [verifyGame] once [r] is known, with the random byte
    it draws as [jitter]. *)
Definition verifiedPointOfFraction (jitter : Z) (houseEdge : Q) (r : Q) : Q :=
  match verificationTable r with
  | None => 1
  | Some c0 =>
      let c1 := if Qltb 1 c0 then c0 * randomFactor jitter else c0 in
      let c2 := c1 / (1 - houseEdge) in
      let c3 := Math_floor (c2 * 100) / 100 in
      Math_max 1 c3
  end.

(** [CrashGame.verifyGame(serverSeed, clientSeed, salt, houseEdge)] *)
Definition verifyGame (jitter : Z) (serverSeed clientSeed salt : string)
    (houseEdge : Q) : Q :=
  verifiedPointOfFraction jitter houseEdge (hmacFraction serverSeed clientSeed salt).

(** *** Risk monitor *)

(** [updateCurrentWinnings(betAmount, cashoutMultiplier, isSimulated)] *)
Definition updateCurrentWinnings (betAmount cashoutMultiplier : Q)
    (isSimulated : bool) (g : t) : t :=
  if isSimulated then g
  else
    let winAmount := betAmount * cashoutMultiplier in
    let netWin := winAmount - betAmount in
    let cur := currentGameWinnings g + netWin in
    let pot := potentialWinnings g + netWin in
    with_winnings cur pot
      (if Qltb (emergencyThreshold g) cur || Qltb (emergencyThreshold g) pot
       then true else isEmergencyCrash g) g.

(** [resetGameWinnings()] *)
Definition resetGameWinnings (g : t) : t := with_winnings 0 0 false g.


Inductive RiskLevel := LOW | MEDIUM | HIGH.

Record RiskMetrics := mkRiskMetrics {
  currentWinnings : Q;
  rmPotentialWinnings : Q;
  distanceToThreshold : Q;
  riskLevel : RiskLevel
}.

(** [getCurrentRiskMetrics()] *)
Definition getCurrentRiskMetrics (g : t) : RiskMetrics :=
  let d := emergencyThreshold g
           - Math_max (currentGameWinnings g) (potentialWinnings g) in
  mkRiskMetrics (currentGameWinnings g) (potentialWinnings g) d
    (if Qle_bool d (emergencyThreshold g * (2 # 10)) then HIGH
     else if Qle_bool d (emergencyThreshold g * (5 # 10)) then MEDIUM
     else LOW).

(** *** Crash-point policy *)

Record ActiveBet := mkActiveBet {
  abAmount : Q;
  abWalletId : string;
  abCashoutAt : option Q
}.

(** The successive values of [Math.random()] in one call of
    [calculateBetBasedCrashPoint]. *)
Record Draws := mkDraws {
  skipDraw : Q;
  highDraw : Q;
  factorDraw : Q
}.

Definition realBets (activeBets : list ActiveBet) : list ActiveBet :=
  List.filter (fun b => negb (isSyntheticWallet (abWalletId b))) activeBets.

Definition sumAmounts (l : list ActiveBet) : Q :=
  fold_left (fun sum b => sum + abAmount b) l 0.

(** [calculateBetBasedCrashPoint(activeBets)], in the arithmetic of
    doubles: each sum, product and quotient is rounded by [double].
    [Some (-1)] is the source's signal for the pre-committed point.  The
    quotient [totalBetAmount / targetProfit] is not a finite number when
    the target profit is zero; the model returns [None] there. *)
Definition calculateBetBasedCrashPoint (g : t) (d : Draws)
    (activeBets : list ActiveBet) : option Q :=
  if Qltb (double (skipDraw d * 100)) (skipCrashPointManagement g) then Some (-1)
  else
    let totalBetAmount :=
      fold_left (fun sum b => double (sum + abAmount b)) (realBets activeBets) 0 in
    if Qeq_bool totalBetAmount 0 then Some (-1)
    else
      let targetProfit :=
        double (totalBetAmount * double (betBasedHouseEdgePercentage g / 100)) in
      if Qeq_bool targetProfit 0 then None
      else
        let c0 := double (totalBetAmount / targetProfit) in
        let c1 := if Qltb c0 (minCrashPoint g)
                  then double (minCrashPoint g + c0) else c0 in
        let c2 := if Qltb (double (highDraw d * 100)) (highCrashPointFrequency g)
                  then double (c1 * double ((15 # 10)
                                            + double (factorDraw d * (35 # 10))))
                  else c1 in
        Some (double (Math_floor (double (c2 * 100)) / 100)).

(** [updateBetBasedOffsetAmount(amount)].  [settings] is the persisted
    [gameSettings] table, a number standing for the decimal string
    that holds it; [upsertOk] tells whether the upsert succeeds (its
    failure is caught and logged). *)
Definition updateBetBasedOffsetAmount (upsertOk : bool) (amount : Q)
    (st : t * gmap string Q) : t * gmap string Q :=
  let g := fst st in
  let newAmount := betBasedOffsetAmount g + amount in
  let o := Math_max 0 newAmount in
  (with_betBasedOffsetAmount o g,
   if upsertOk then <["betBasedOffsetAmount" := o]> (snd st) else snd st).

(** The total paid out to real bets that cashed out at or below the
    final crash point. *)
Definition totalPayouts (finalCrashPoint : Q) (l : list ActiveBet) : Q :=
  fold_left
    (fun total b =>
       match abCashoutAt b with
       | Some c =>
           if negb (Qeq_bool c 0) && Qltb 0 c && Qle_bool c finalCrashPoint
           then total + abAmount b * c else total
       | None => total
       end) l 0.

(** [trackRoundResults(activeBets, finalCrashPoint)] *)
Definition trackRoundResults (upsertOk : bool) (activeBets : list ActiveBet)
    (finalCrashPoint : Q) (st : t * gmap string Q) : t * gmap string Q :=
  let real := realBets activeBets in
  match real with
  | [] => st
  | _ =>
      let totalBetAmount := sumAmounts real in
      let houseProfit := totalBetAmount - totalPayouts finalCrashPoint real in
      updateBetBasedOffsetAmount upsertOk houseProfit st
  end.

(** [shouldEmergencyCrash(currentMultiplier, activeBets)], once the
    settings are read: the answer and the instance it leaves. *)
Definition shouldEmergencyCrash (currentMultiplier : Q)
  (activeBets : list ActiveBet) (g : t) : bool * t :=
let totalPotentialWinnings :=
  fold_left (fun total b =>
               if negb (isSyntheticWallet (abWalletId b))
               then total + (abAmount b * currentMultiplier - abAmount b)
               else total) activeBets 0 in
let raised := with_winnings (currentGameWinnings g) (potentialWinnings g) true g in
if enforceMaxCrashpoint g && Qle_bool (maxAllowedCrashpoint g) currentMultiplier
then (true, raised)
else if Qltb (emergencyThreshold g) totalPotentialWinnings
then (true, raised)
else if isEmergencyCrash g then (true, g)
else (false, g).

(** *** Policy settings *)

(** How an awaited call settles: with a value, or rejected. *)
Inductive Settled (A : Type) := Fulfilled (a : A) | Failed.

Arguments Fulfilled {A} a.
Arguments Failed {A}.

(** The read of one numeric row of the [gameSettings] table: the number
    its string parses to, or, for a row that does not exist, the default,
    with which the row is created. *)
Definition readNumber (key : string) (default : Q) (rows : gmap string Q)
  : Q * gmap string Q :=
match rows !! key with
| Some v => (v, rows)
| None => (default, <[key := default]> rows)
end.

(** [getBetBasedCrashPointSettings()].  [flag] is the row
    [betBasedCrashPointEnabled], [None] while it does not exist and
    otherwise whether its value is the string 'true'; the second
    component of [st] holds the numeric rows.  Every policy field of the
    instance is assigned from its row; a missing row is created with its
    default.  [dbOk] tells whether the database answers: when it does
    not, the reads, which come first, throw, no field has been assigned
    and the error is rethrown. *)
Definition getBetBasedCrashPointSettings (dbOk : bool) (flag : option bool)
  (st : t * gmap string Q) : Settled (option bool * (t * gmap string Q)) :=
if dbOk then
  let g := fst st in
  let r1 := readNumber "betBasedHouseEdgePercentage" 40 (snd st) in
  let r2 := readNumber "minCrashPoint" 2 (snd r1) in
  let r3 := readNumber "highCrashPointFrequency" 80 (snd r2) in
  let r4 := readNumber "skipCrashPointManagement" 10 (snd r3) in
  let r5 := readNumber "betBasedOffsetAmount" 0 (snd r4) in
  let enabled := match flag with Some b => b | None => false end in
  Fulfilled
    (Some enabled,
     (mkCrashGame (currentCrashPoint g) (emergencyThreshold g)
        (currentGameWinnings g) (isEmergencyCrash g) (maxAllowedCrashpoint g)
        (enforceMaxCrashpoint g) (potentialWinnings g) enabled
        (fst r1) (fst r2) (fst r3) (fst r4) (fst r5),
      snd r5))
else Failed.

(** The object [getBetBasedSettings()] returns. *)
Record BetBasedSettings := mkBetBasedSettings {
enabled : bool;
houseEdgePercentage : Q;
bsMinCrashPoint : Q;
bsHighCrashPointFrequency : Q;
bsSkipCrashPointManagement : Q;
bsBetBasedOffsetAmount : Q
}.

(** [getBetBasedSettings()]: the fields as [getBetBasedCrashPointSettings]
    has just loaded them, or, when that throws, the defaults with the
    policy off; with the flag row, the instance and the numeric rows it
    leaves. *)
Definition getBetBasedSettings (dbOk : bool) (flag : option bool)
  (st : t * gmap string Q) : BetBasedSettings * (option bool * (t * gmap string Q)) :=
match getBetBasedCrashPointSettings dbOk flag st with
| Fulfilled loaded =>
    let g := fst (snd loaded) in
    (mkBetBasedSettings (isBetBasedCrashPoint g) (betBasedHouseEdgePercentage g)
       (minCrashPoint g) (highCrashPointFrequency g) (skipCrashPointManagement g)
       (betBasedOffsetAmount g),
     loaded)
| Failed => (mkBetBasedSettings false 40 2 80 10 0, (flag, st))
end.

(** [applyBetBasedCrashPointIfEnabled(activeBets)]: how the call settles,
    with whether the crash point was overridden, and the flag row, the
    instance and the numeric rows it leaves.  The settings are loaded
    first, outside any handler.  [None] is a candidate that is not a
    finite number. *)
Definition applyBetBasedCrashPointIfEnabled (dbOk : bool) (d : Draws)
  (activeBets : list ActiveBet) (flag : option bool) (st : t * gmap string Q)
  : option (Settled bool * (option bool * (t * gmap string Q))) :=
match getBetBasedCrashPointSettings dbOk flag st with
| Failed => Some (Failed, (flag, st))
| Fulfilled loaded =>
    let g := fst (snd loaded) in
    if negb (isBetBasedCrashPoint g) then Some (Fulfilled false, loaded)
    else if Qltb 0 (betBasedOffsetAmount g) then Some (Fulfilled false, loaded)
    else match calculateBetBasedCrashPoint g d activeBets with
         | Some crashPoint =>
             if Qle_bool crashPoint 0 then Some (Fulfilled false, loaded)
             else Some (Fulfilled true,
                        (fst loaded,
                         (with_currentCrashPoint crashPoint g, snd (snd loaded))))
         | None => None
         end
end.

End CrashGame.

(** ** The round queue of [CrashGame]: [generateNextRounds] and
       [advanceToNextRound].

    Every awaited persistence step either succeeds or throws; which one
    is scripted by the environment in [outcomes], one entry per step,
    [false] for a step that throws (transient failures and constraint
    violations alike).  The script is finite and every step after its
    end succeeds: this is the assumption that generation eventually
    succeeds.  The reads whose failure the source absorbs with a default
    ([getHouseEdge], [getClientSeed]) take no entry. *)
Module RoundQueue.
Import Num.

Record FuturePoint := mkFuturePoint {
  fpRoundId : Z;
  fpCrashPoint : Q;
  isUsed : bool;
  usedAt : option Z
}.

Record GameRow := mkGameRow {
  grRoundId : Z;
  grCrashPoint : Q;
  grSalt : string;
  grClientSeed : string;
  grServerSeed : string;
  grHouseEdge : Q
}.

(** What one batch reads from its surroundings: the house edge and
    client seed settings, the random salt, the random seed handed to
    [generateNextRounds] and the random byte of the crash point of a
    round. *)
Record Env := mkEnv {
  envHouseEdge : Q;
  envClientSeed : string;
  envSalt : string;
  envSeed : string;
  envJitter : Z -> Z
}.

Record World := mkWorld {
  instance : CrashGame.t;
  futureCrashPoint : list FuturePoint;
  gameTable : list GameRow;
  gameCounter : option Z;
  outcomes : list bool;
  now : Z;
  selfInvocations : nat
}.

Inductive Res := Ok | Thrown.

(** One persistence step: the next scripted outcome. *)
Definition draw (w : World) : bool * World :=
  match outcomes w with
  | [] => (true, w)
  | b :: rest =>
      (b, mkWorld (instance w) (futureCrashPoint w) (gameTable w)
            (gameCounter w) rest (now w) (selfInvocations w))
  end.

(** [await new Promise(resolve => setTimeout(resolve, ms))] *)
Definition sleep (ms : Z) (w : World) : World :=
  mkWorld (instance w) (futureCrashPoint w) (gameTable w)
    (gameCounter w) (outcomes w) (now w + ms)%Z (selfInvocations w).

(** A call of [advanceToNextRound] by itself. *)
Definition selfInvoke (w : World) : World :=
  mkWorld (instance w) (futureCrashPoint w) (gameTable w)
    (gameCounter w) (outcomes w) (now w) (S (selfInvocations w)).

Definition with_queue (q : list FuturePoint) (w : World) : World :=
  mkWorld (instance w) q (gameTable w)
    (gameCounter w) (outcomes w) (now w) (selfInvocations w).

Definition with_instance (g : CrashGame.t) (w : World) : World :=
  mkWorld g (futureCrashPoint w) (gameTable w)
    (gameCounter w) (outcomes w) (now w) (selfInvocations w).

(** [findFirst({ where: { isUsed: false }, orderBy: { roundId: 'asc' } })] *)
Fixpoint findFirstUnused (q : list FuturePoint) : option FuturePoint :=
  match q with
  | [] => None
  | p :: rest =>
      match findFirstUnused rest with
      | Some p' =>
          if isUsed p then Some p'
          else if (fpRoundId p <=? fpRoundId p')%Z then Some p else Some p'
      | None => if isUsed p then None else Some p
      end
  end.

(** [update({ where: { roundId }, data: { isUsed: true, usedAt } })];
    the round identifier is unique in the table. *)
Definition markUsed (rid : Z) (at_ : Z) (q : list FuturePoint) : list FuturePoint :=
  map (fun p => if (fpRoundId p =? rid)%Z
                then mkFuturePoint (fpRoundId p) (fpCrashPoint p) true (Some at_)
                else p) q.

(** [count({ where: { isUsed: false } })] *)
Definition countUnused (q : list FuturePoint) : nat :=
  length (List.filter (fun p => negb (isUsed p)) q).

(** One pass through the [try] block of the loop of
    [generateNextRounds]: whether it completed, the value of
    [currentHash] it leaves, and the world. *)
Definition tryGenerate (env : Env) (currentHash : string) (w : World)
    : bool * string * World :=
  match draw w with
  | (false, w1) => (false, currentHash, w1)
  | (true, w1) =>
      let nextRoundId :=
        match gameCounter w1 with None => 1 | Some c => c + 1 end%Z in
      let w2 := mkWorld (instance w1) (futureCrashPoint w1) (gameTable w1)
                  (Some nextRoundId) (outcomes w1) (now w1) (selfInvocations w1) in
      let crashPoint :=
        CrashGame.calculateCrashPoint (instance w2) (envHouseEdge env)
          (envJitter env nextRoundId) currentHash (envClientSeed env) (envSalt env) in
      let hash' := Sha256.generateHash currentHash in
      match draw w2 with
      | (false, w3) => (false, hash', w3)
      | (true, w3) =>
          let w4 := mkWorld (instance w3) (futureCrashPoint w3)
                      (gameTable w3 ++
                         [mkGameRow nextRoundId crashPoint (envSalt env)
                            (envClientSeed env) hash' (envHouseEdge env)])
                      (gameCounter w3) (outcomes w3) (now w3) (selfInvocations w3) in
          match draw w4 with
          | (false, w5) => (false, hash', w5)
          | (true, w5) =>
              (true, hash',
               with_queue (futureCrashPoint w5 ++
                             [mkFuturePoint nextRoundId crashPoint false None]) w5)
          end
      end
  end.

(** The loop of [generateNextRounds], [remaining] rounds being still
    to create; a failed pass is retried after two seconds. *)
Fixpoint generateLoop (env : Env) (fuel remaining : nat) (currentHash : string)
    (w : World) : option World :=
  match remaining with
  | O => Some w
  | S r =>
      match fuel with
      | O => None
      | S f =>
          match tryGenerate env currentHash w with
          | (true, hash', w') => generateLoop env f r hash' (sleep 100 w')
          | (false, hash', w') => generateLoop env f (S r) hash' (sleep 2000 w')
          end
      end
  end.

(** [generateNextRounds(previousGameHash)] *)
Definition generateNextRounds (env : Env) (fuel : nat) (w : World)
    : option (Res * World) :=
  match draw w with
  | (false, w0) => Some (Thrown, w0)
  | (true, w0) =>
      match generateLoop env fuel CrashGame.POINTS_TO_GENERATE
              (Sha256.generateHash (envSeed env)) w0 with
      | Some w' => Some (Ok, w')
      | None => None
      end
  end.

(** The [try] block of [advanceToNextRound]; [again] is the call of
    [advanceToNextRound] by itself that the block makes after it has
    generated a batch for an empty queue. *)
Definition advanceAttempt (env : Env) (f : nat)
    (again : World -> option (Res * World)) (w0 : World)
    : option (Res * World) :=
  match draw w0 with
  | (false, w1) => Some (Thrown, w1)
  | (true, w1) =>
      match findFirstUnused (futureCrashPoint w1) with
      | Some p =>
          let w2 := with_instance
                      (CrashGame.with_currentCrashPoint (fpCrashPoint p)
                         (instance w1)) w1 in
          match draw w2 with
          | (false, w3) => Some (Thrown, w3)
          | (true, w3) =>
              let w4 := with_queue
                          (markUsed (fpRoundId p) (now w3)
                             (futureCrashPoint w3)) w3 in
              match draw w4 with
              | (false, w5) => Some (Thrown, w5)
              | (true, w5) =>
                  if Qltb (inject_Z (Z.of_nat (countUnused (futureCrashPoint w5))))
                          (inject_Z (Z.of_nat CrashGame.POINTS_TO_GENERATE) / 2)
                  then generateNextRounds env f w5
                  else Some (Ok, w5)
              end
          end
      | None =>
          match generateNextRounds env f w1 with
          | Some (Ok, w2) => again (selfInvoke w2)
          | other => other
          end
      end
  end.

(** [advanceToNextRound()].  The first step, [getEmergencySettings],
    is outside the [try]; an error inside it is caught and followed,
    two seconds later, by a call of the function by itself.  [None]
    is a run that [fuel] nested calls and loop passes do not finish. *)
Fixpoint advanceToNextRound (env : Env) (fuel : nat) (w : World)
    : option (Res * World) :=
  match fuel with
  | O => None
  | S f =>
      match draw w with
      | (false, w0) => Some (Thrown, w0)
      | (true, w0) =>
          match advanceAttempt env f (advanceToNextRound env f) w0 with
          | Some (Thrown, w') =>
              advanceToNextRound env f (selfInvoke (sleep 2000 w'))
          | other => other
          end
      end
  end.

End RoundQueue.

(** ** socketServer.ts *)
Module SocketServer.
Import Num.

Record User := mkUser {
  uWalletId : string;
  wallet : Q;
  balance : Q;
  isLoggedIn : bool
}.

(** The [User] table by wallet identifier (the balance column) and the
    in-memory [users] map, socket identifier to user, in insertion
    order. *)
Record Store := mkStore {
  userTable : gmap string Q;
  users : list (string * User)
}.

Inductive Outcome := Resolved (s : Store) | Rejected (s : Store).

(** The assignment to the first in-memory user of the wallet. *)
Fixpoint cacheBalance (w : string) (b : Q) (l : list (string * User))
    : list (string * User) :=
  match l with
  | [] => []
  | (k, u) :: rest =>
      if String.eqb (uWalletId u) w
      then (k, mkUser (uWalletId u) b b (isLoggedIn u)) :: rest
      else (k, u) :: cacheBalance w b rest
  end.

(** [updateUserBalance(walletId, newBalance)].  The update throws when
    no row has the wallet identifier or when the database fails
    ([updateOk = false]); the error is rethrown. *)
Definition updateUserBalance (updateOk : bool) (w : string) (newBalance : Q)
    (s : Store) : Outcome :=
  match userTable s !! w with
  | Some _ =>
      if updateOk
      then Resolved (mkStore (<[w := Math_max 0 newBalance]> (userTable s))
                       (cacheBalance w (Math_max 0 newBalance) (users s)))
      else Rejected s
  | None => Rejected s
  end.

(** [Array.from(users.values()).find(u => u.walletId === walletId)] *)
Fixpoint findUser (w : string) (l : list (string * User)) : option User :=
  match l with
  | [] => None
  | (_, u) :: rest => if String.eqb (uWalletId u) w then Some u else findUser w rest
  end.

(** The reasons that the verdict of [checkEmergencyConditions] is
    declared to carry. *)
Inductive Reason :=
  POTENTIAL_WINNINGS | MAX_CRASHPOINT | PROBABLE_WIN | TOTAL_WON | BET_BASED.

(** The open bets of real wallets of one track, in the order the map
    enumerates them; the sums taken over them do not depend on it. *)
Definition openRealBets (m : gmap string GameSession.Bet) : list GameSession.Bet :=
  List.filter (fun b => match GameSession.cashoutAt b with
                   | None => negb (isSyntheticWallet (GameSession.walletId b))
                   | Some _ => false
                   end)
         (map snd (map_to_list m)).

(** The error of calling a member that the object does not have. *)
Inductive Thrown := TypeError.

(** [checkEmergencyConditions(currentGame, crashGameInstance,
    currentMultiplier)].  After the open bets of real wallets are
    listed, the first statement is
    [await crashGameInstance.getMaxAllowedCrashpoint()]:
    [getMaxAllowedCrashpoint] is a static method of [CrashGame], an
    instance has no member of that name, and the call throws.  Nothing
    has been assigned by then and no statement after it runs, so the
    call ends in no other way: no verdict, with or without a [Reason],
    is ever returned. *)
Definition checkEmergencyConditions (currentGame : GameSession.t)
    (crashGameInstance : CrashGame.t) (currentMultiplier : Q) : Thrown :=
  let activeBets := openRealBets (GameSession.bets currentGame) in
  let activeSecondBets := openRealBets (GameSession.secondBets currentGame) in
  let hasRealPlayers :=
    negb (Nat.eqb (length (activeBets ++ activeSecondBets)) 0) in
  TypeError.

(** What a run of the interval callback of [runGame] decides: the
    interval goes on, or it is cleared and [endGame(io)] is called. *)
Inductive TickResult := Continues | EndGameCalled.

(** One run of the interval callback of [runGame], at time [now]: the
    decision and the session it leaves.  A round that is not in progress
    clears the interval.  Otherwise the multiplier is updated and the
    emergency check is awaited inside the [try] block; its error is
    caught and logged by the callback, which ends there: the statements
    after the check, the test of the normal end
    [currentMultiplier >= crashPoint] among them, do not run, and the
    interval goes on. *)
Definition tick (Math_pow_E : Q -> Q) (now : Z) (gameInstance : GameSession.t)
    (crashInstance : CrashGame.t) : TickResult * GameSession.t :=
  if negb (GameSession.isGameInProgress gameInstance)
  then (EndGameCalled, gameInstance)
  else
    let updated := GameSession.updateMultiplier Math_pow_E now gameInstance in
    let currentMultiplier := GameSession.currentMultiplier updated in
    match checkEmergencyConditions updated crashInstance currentMultiplier with
    | TypeError => (Continues, updated)
    end.

(** The runs of the callback at the times [nows], up to the one that
    clears the interval. *)
Fixpoint runTicks (Math_pow_E : Q -> Q) (nows : list Z) (gameInstance : GameSession.t)
    (crashInstance : CrashGame.t) : TickResult * GameSession.t :=
  match nows with
  | [] => (Continues, gameInstance)
  | now :: rest =>
      match tick Math_pow_E now gameInstance crashInstance with
      | (Continues, s) => runTicks Math_pow_E rest s crashInstance
      | (EndGameCalled, s) => (EndGameCalled, s)
      end
  end.




End SocketServer.

(** ** BetSimulator *)
Module BetSimulator.
Import Num.

Inductive BettingStyle := conservative | moderate | aggressive.

Record BetRange := mkBetRange {
  min : Q;
  max : Q
}.

(** The fields of a simulated user that placing its bets reads. *)
Record SimulatedUser := mkSimulatedUser {
  userId : string;
  walletId : string;
  bettingStyle : BettingStyle;
  targetMultiplier : Q;
  preferredBetRange : BetRange
}.

(** [generateUserId()]; [suffix] is
    [Math.random().toString(36).substring(2, 8)]. *)
Definition generateUserId (suffix : string) : string := "SIM_" +:+ suffix.

(** [generateWalletId()]; [suffix] is
    [Math.random().toString(36).substring(2, 8).toUpperCase()]. *)
Definition generateWalletId (suffix : string) : string := "SW_" +:+ suffix.

(** [assignBettingStyle()], [rand] being its value of [Math.random()] *)
Definition assignBettingStyle (rand : Q) : BettingStyle :=
  if Qltb rand (4 # 10) then conservative
  else if Qltb rand (8 # 10) then moderate
  else aggressive.

(** [Number(x.toFixed(2))]: the nearest multiple of 0.01, halves
    rounded up. *)
Definition toFixed2 (x : Q) : Q := Math_round (x * 100) / 100.

(** [generateTargetMultiplier(style)], with its two values of
    [Math.random()] *)
Definition generateTargetMultiplier (style : BettingStyle) (baseDraw varianceDraw : Q)
    : Q :=
  let baseMultiplier :=
    match style with
    | conservative => (12 # 10) + baseDraw * (8 # 10)
    | moderate => 2 + baseDraw * 2
    | aggressive => 4 + baseDraw * 5
    end in
  let variance := (varianceDraw - (5 # 10)) * (2 # 10) * baseMultiplier in
  toFixed2 (baseMultiplier + variance).

(** [getPreferredBetRange(style)] *)
Definition getPreferredBetRange (style : BettingStyle) : BetRange :=
  match style with
  | conservative => mkBetRange 10 500
  | moderate => mkBetRange 500 2000
  | aggressive => mkBetRange 2000 10000
  end.

(** The successive values of [Math.random()] in one call of
    [generateBetAmount]. *)
Record BetDraws := mkBetDraws {
  amountDraw : Q;
  kindDraw : Q;
  sizeDraw : Q
}.

(** [generateBetAmount(user)] *)
Definition generateBetAmount (user : SimulatedUser) (d : BetDraws) : Q :=
  let range := preferredBetRange user in
  let baseAmount := Math_floor (amountDraw d * (max range - min range + 1) + min range) in
  let variance :=
    if Qltb (kindDraw d) (2 # 10)
    then sizeDraw d * baseAmount * (3 # 10)
    else sizeDraw d * baseAmount * (1 # 10) in
  Math_floor (baseAmount + variance).

(** One pass of the loop of [generateSimulatedUsers]: the user it
    stores, from the random suffixes and the values of [Math.random()]
    of the pass. *)
Definition generateSimulatedUser (userSuffix walletSuffix : string)
    (styleDraw baseDraw varianceDraw : Q) : SimulatedUser :=
  let style := assignBettingStyle styleDraw in
  mkSimulatedUser (generateUserId userSuffix) (generateWalletId walletSuffix) style
    (generateTargetMultiplier style baseDraw varianceDraw)
    (getPreferredBetRange style).

(** What [simulateBetsForNewGame(currentGame)] does to the session:
    each selected user, in the order of the shuffle, places a bet of a
    generated amount. *)
Definition simulateBetsForNewGame (selected : list (SimulatedUser * BetDraws))
    (currentGame : GameSession.t) : GameSession.t :=
  fold_left (fun game (ud : SimulatedUser * BetDraws) =>
               snd (GameSession.placeBet (walletId (fst ud))
                      (generateBetAmount (fst ud) (snd ud)) game))
            selected currentGame.

(** What [simulateNextRoundBets(currentGame)] does to the session. *)
Definition simulateNextRoundBets (selected : list (SimulatedUser * BetDraws))
    (currentGame : GameSession.t) : GameSession.t :=
  fold_left (fun game (ud : SimulatedUser * BetDraws) =>
               GameSession.addNextRoundBet
                 (GameSession.mkNextRoundBet (walletId (fst ud))
                    (generateBetAmount (fst ud) (snd ud))) game)
            selected currentGame.

End BetSimulator.

(** ** MinesGame *)
Module MinesGame.
Import Num.

(** The 5x5 grid. *)
Definition GRID_SIZE : nat := 25.

Record GameConfig := mkGameConfig {
  houseEdge : Q;
  minBet : Q;
  maxBet : Q;
  maxMines : Z;
  minMines : Z;
  minClicksBeforeCashout : Z;
  maxWinMultiplier : Q
}.

(** The configuration the constructor installs. *)
Definition gameConfig : GameConfig :=
  mkGameConfig (1 # 100) 1 1000 24 1 2 1000.

(** The fields of the game state that the functions below read or
    write; cell indices and the number of mines are integers. *)
Record GameState := mkGameState {
  revealedCells : list Z;
  minePositions : list Z;
  clientSeed : string;
  serverSeed : string;
  salt : string;
  nonce : string;
  numberOfMines : Z;
  isActive : bool;
  multiplier : Q;
  betAmount : Q;
  walletId : option string
}.

Inductive Error :=
| BetAmountOutOfRange
| NumberOfMinesOutOfRange
| NoActiveGame
| InvalidCellIndex
| CellAlreadyRevealed
| FailedToRevealCell.

(** [validateGameConfig(betAmount, numberOfMines)] *)
Definition validateGameConfig (betAmount : Q) (numberOfMines : Z) : option Error :=
  if Qltb betAmount (minBet gameConfig) || Qltb (maxBet gameConfig) betAmount
  then Some BetAmountOutOfRange
  else if ((numberOfMines <? minMines gameConfig)
           || (maxMines gameConfig <? numberOfMines))%Z
  then Some NumberOfMinesOutOfRange
  else None.

(** [l.splice(l.indexOf(x), 1)] for an [x] that is in [l]. *)
Fixpoint removeFirst (x : Z) (l : list Z) : list Z :=
  match l with
  | [] => []
  | y :: rest => if (y =? x)%Z then rest else y :: removeFirst x rest
  end.

(** The loop [while (positions.size < numMines)] of
    [generateMinePositions] and of [verifyGame], [positions] in
    insertion order.  [None] is a run that [fuel] passes do not finish,
    or one that reaches an empty [availablePositions], where the
    position read is not a number. *)
Fixpoint mineLoop (fuel : nat) (numMines : Z) (currentHash : string)
    (availablePositions positions : list Z) : option (list Z) :=
  if (Z.of_nat (length positions) <? numMines)%Z
  then
    match fuel with
    | O => None
    | S f =>
        let currentHash' := Sha256.generateHash currentHash in
        let number := Sha256.parseInt16 (String.substring 0 8 currentHash') in
        match nth_error availablePositions
                (Z.to_nat (number mod Z.of_nat (length availablePositions))) with
        | None => None
        | Some position =>
            if existsb (Z.eqb position) positions
            then mineLoop f numMines currentHash' availablePositions positions
            else mineLoop f numMines currentHash'
                   (removeFirst position availablePositions)
                   (positions ++ [position])
        end
    end
  else Some positions.

(** [sort((a, b) => a - b)] *)
Fixpoint insertAsc (x : Z) (l : list Z) : list Z :=
  match l with
  | [] => [x]
  | y :: rest => if (x <=? y)%Z then x :: y :: rest else y :: insertAsc x rest
  end.

Definition sortAsc (l : list Z) : list Z := fold_right insertAsc [] l.

(** [Array.from(Array(n).keys())] *)
Definition keys (n : nat) : list Z := map Z.of_nat (seq 0 n).

(** [generateMinePositions(numMines, firstClickIndex)] *)
Definition generateMinePositions (fuel : nat) (st : GameState) (numMines : Z)
    (firstClickIndex : Z) : option (list Z) :=
  let hmacMessage := clientSeed st +:+ "-" +:+ salt st +:+ "-" +:+ nonce st in
  let hash := Sha256.calculateHmac hmacMessage (serverSeed st) in
  let availablePositions :=
    List.filter (fun i => negb (i =? firstClickIndex)%Z) (keys GRID_SIZE) in
  option_map sortAsc (mineLoop fuel numMines hash availablePositions []).

(** [Number(x.toFixed(4))]: the nearest multiple of 0.0001, halves
    rounded up. *)
Definition toFixed4 (x : Q) : Q := Math_round (x * 10000) / 10000.

(** [calculateMultiplier(revealedCount, totalMines)] *)
Definition calculateMultiplier (revealedCount totalMines : Z) : Q :=
  let remainingCells := (Z.of_nat GRID_SIZE - revealedCount)%Z in
  let safeCells := (remainingCells - totalMines)%Z in
  if (safeCells <=? 0)%Z then 0
  else
    let probability := inject_Z safeCells / inject_Z remainingCells in
    let fairMultiplier := 1 / probability in
    let profit := fairMultiplier - 1 in
    let adjustedProfit := profit * (1 - houseEdge gameConfig) in
    toFixed4 (1 + adjustedProfit).

Record RevealResult := mkRevealResult {
  isMine : bool;
  rrRevealedCells : list Z;
  rrMultiplier : Q;
  rrMinePositions : option (list Z);
  potentialWinAmount : Q
}.

Definition with_reveal (revealed mines : list Z) (active : bool) (m : Q)
    (st : GameState) : GameState :=
  mkGameState revealed mines (clientSeed st) (serverSeed st) (salt st) (nonce st)
    (numberOfMines st) active m (betAmount st) (walletId st).

(** [revealCell(index)]: what it returns or throws, and the state it
    leaves.  [dbOk] says whether the update of the stored game
    succeeds; [None] is a run in which [generateMinePositions] does not
    return. *)
Definition revealCell (fuel : nat) (dbOk : bool) (index : Z) (st : GameState)
    : option ((Error + RevealResult) * GameState) :=
  if negb (isActive st) then Some (inl NoActiveGame, st)
  else if ((index <? 0) || (Z.of_nat GRID_SIZE <=? index))%Z
  then Some (inl InvalidCellIndex, st)
  else if existsb (Z.eqb index) (revealedCells st)
  then Some (inl CellAlreadyRevealed, st)
  else
    let generated :=
      if Nat.eqb (length (revealedCells st)) 0
      then generateMinePositions fuel st (numberOfMines st) index
      else Some (minePositions st) in
    match generated with
    | None => None
    | Some mines =>
        let revealed := revealedCells st ++ [index] in
        if existsb (Z.eqb index) mines
        then
          let st' := with_reveal revealed mines false (multiplier st) st in
          if dbOk
          then Some (inr (mkRevealResult true revealed 0 (Some mines) 0), st')
          else Some (inl FailedToRevealCell, st')
        else
          let m := calculateMultiplier (Z.of_nat (length revealed)) (numberOfMines st) in
          let st' := with_reveal revealed mines true m st in
          if dbOk
          then Some (inr (mkRevealResult false revealed m None (betAmount st * m)), st')
          else Some (inl FailedToRevealCell, st')
    end.

(** [MinesGame.verifyGame(gameHash, clientSeed, serverSeed, salt,
    numberOfMines)] *)
Definition verifyGame (fuel : nat) (clientSeed serverSeed salt : string)
    (numberOfMines : Z) : option (list Z) :=
  let hmac := Sha256.calculateHmac (clientSeed +:+ "-" +:+ salt) serverSeed in
  option_map sortAsc (mineLoop fuel numberOfMines hmac (keys 25) []).

End MinesGame.

(** ** Scenarios and auxiliary notions used by the properties *)

Import RoundQueue.

(** A round in progress with an open bet of one wallet on each track. *)
Definition sampleSession : GameSession.t :=
  snd (GameSession.placeSecondBet "254700000001" 50
         (snd (GameSession.placeBet "254700000001" 100
                 (GameSession.startGame 1000
                    (GameSession.new "g1" "hash" 2 "salt" "seed" 7))))).




(** Random draws under which the policy neither skips the round nor
    takes the high-value branch. *)
Definition someDraws : CrashGame.Draws := CrashGame.mkDraws (1 # 2) (9 # 10) (1 # 2).

(** A risk instance as the constructor leaves it, with a crash point of
    1.0, once it has loaded the policy settings of a table in which the
    policy is on and the other rows are created with their defaults:
    house edge 40 percent, floor 2. *)
Definition policyGame : CrashGame.t :=
  fst (snd (snd (CrashGame.getBetBasedSettings true (Some true) (CrashGame.new, ∅)))).

(** The numeric rows of the settings table after that load. *)
Definition policyRows : gmap string Q :=
  snd (snd (snd (CrashGame.getBetBasedSettings true (Some true) (CrashGame.new, ∅)))).


(** A round started at time 1000, without bets. *)
Definition clockSession : GameSession.t :=
  GameSession.startGame 1000 (GameSession.new "g1" "hash" 50 "salt" "seed" 7).

(** [Math.pow(Math.E, x)] by the Taylor polynomial of degree 20 of the
    exponential, which for [0 <= x <= 2] lies below [e^x] by less than
    [10^-12]. *)
Fixpoint taylorFrom (n : nat) (k : Z) (x : Q) : Q :=
  match n with
  | O => 1
  | S n' => 1 + x / inject_Z k * taylorFrom n' (k + 1) x
  end.

(** The polynomial above, in lowest terms. *)
Definition expTaylor (x : Q) : Q := Qred (taylorFrom 20 1 x).

(** The multiplier of the documented formula: the exponential value
    brought down to the step grid that starts at 1, fine up to 10x and
    coarse above. *)
Definition documentedMultiplier (raw : Q) : Q :=
  let step := if Num.Qltb 10 raw then 51 # 100 else 11 # 1000 in
  1 + Num.Math_floor ((raw - 1) / step) * step.

(** Ticks every 100 ms during the first five seconds of a round started
    at time 1000. *)
Definition fiveSeconds : list Z :=
  map (fun k => (1000 + 100 * Z.of_nat k)%Z) (seq 1 50).


(** The server seed of the documented scenario, SHA-256 of "seed0". *)
Definition scenarioSeed : string :=
  "28554ffdaccebd7ecb9f313a72e272e27fe3f2c7b1d15b1c6a7df5a361769dd8".

(** The risk instance with the default settings: no emergency, crash
    points capped at 3.0. *)
Definition defaultGame : CrashGame.t :=
  CrashGame.mkCrashGame 1 1000 0 false 3 true 0 false 60 1 80 10 0.

(** The values of one random byte. *)
Definition allBytes : list Z := map Z.of_nat (seq 0 256).

(** The scripted outcomes not yet consumed. *)
Definition pending (w : World) : nat := length (outcomes w).

(** Whether the queue holds a point that is not consumed. *)
Definition hasUnused (q : list FuturePoint) : bool :=
  existsb (fun p => negb (isUsed p)) q.

(** Calls of [advanceToNextRound] by itself so far, plus the outcomes
    still to come. *)
Definition spent (w : World) : nat := (selfInvocations w + pending w)%nat.

(** What a finished run of [advanceToNextRound] from [w] owes: every
    call of the function by itself is paid by a scripted outcome it has
    consumed, but for at most one call, made for an empty queue. *)
Definition settled (w : World) (res : option (Res * World)) : Prop :=
  exists r w',
    res = Some (r, w')
    /\ (pending w' <= pending w)%nat
    /\ (selfInvocations w <= selfInvocations w')%nat
    /\ (spent w' <= spent w + 1)%nat
    /\ (hasUnused (futureCrashPoint w) = true -> (spent w' <= spent w)%nat)
    /\ (r = Thrown -> (spent w' + 1 <= spent w)%nat).

(** A script in which, [n] times over, [getEmergencySettings] succeeds
    and the query for the next point fails. *)
Fixpoint flakyScript (n : nat) : list bool :=
  match n with
  | O => []
  | S n' => true :: false :: flakyScript n'
  end.

(** A fresh instance over empty tables, with the given script. *)
Definition emptyWorld (script : list bool) : World :=
  mkWorld CrashGame.new [] [] None script 0 0.

(** The surroundings of the documented scenario. *)
Definition sampleEnv : Env := mkEnv (1 # 4) "abc" "def" "seed0" (fun _ => 128%Z).

(** The part of a session that bets do not touch. *)
Definition clockOf (s : GameSession.t) : option Z * option Z * Q :=
  (GameSession.gameStartTime s, GameSession.gameEndTime s,
   GameSession.currentMultiplier s).

(** What one call can do to an entry of a ledger: an entry it leaves
    was there before or was written by this call, and an entry that was
    cashed out before is still there. *)
Definition ledgerStep (s s' : GameSession.t) : Prop :=
  forall (tr : GameSession.Track) (w : string) (b : GameSession.Bet),
    (GameSession.ledger tr s' !! w = Some b ->
     GameSession.ledger tr s !! w = Some b
     \/ GameSession.cashoutAt b = None
     \/ GameSession.cashoutAt b = Some (GameSession.currentMultiplier s))
    /\ (GameSession.ledger tr s !! w = Some b ->
        is_Some (GameSession.cashoutAt b) ->
        GameSession.ledger tr s' !! w = Some b).

(** What every session reached from a new one satisfies: the multiplier
    is at least 1 and a whole number of hundredths, and every recorded
    cashout multiplier lies between 1 and the current multiplier. *)
Definition sessionInvariant (s : GameSession.t) : Prop :=
  1 <= GameSession.currentMultiplier s
  /\ (exists k : Z, GameSession.currentMultiplier s == inject_Z k / 100)
  /\ forall (tr : GameSession.Track) (w : string) (b : GameSession.Bet) (m : Q),
       GameSession.ledger tr s !! w = Some b ->
       GameSession.cashoutAt b = Some m ->
       1 <= m /\ m <= GameSession.currentMultiplier s.

(** The order of the lifecycle states. *)
Definition lifecycleRank (l : GameSession.Lifecycle) : nat :=
  match l with
  | GameSession.WAITING => 0
  | GameSession.ACTIVE => 1
  | GameSession.ENDED => 2
  end.

(** The stake of the first bet that a next-round queue holds for a
    wallet. *)
Definition firstQueued (w : string) (l : list GameSession.NextRoundBet) : option Q :=
  match GameSession.spliceFirst w l with
  | Some (a, _) => Some a
  | None => None
  end.

(** The calls of [updateCurrentWinnings] of a round, each with its
    stake, its multiplier and its simulation flag. *)
Definition recordAll (l : list (Q * Q * bool)) (g : CrashGame.t) : CrashGame.t :=
  fold_left (fun acc (x : Q * Q * bool) => CrashGame.updateCurrentWinnings (fst (fst x)) (snd (fst x))
                            (snd x) acc) l g.

(** The net winnings of the calls that are not simulated. *)
Definition realNetWinnings (l : list (Q * Q * bool)) : Q :=
  fold_right (fun (x : Q * Q * bool) total =>
                if snd x then total
                else (fst (fst x) * snd (fst x) - fst (fst x)) + total) 0 l.

(** [lastRoundId] of the counter row, 0 while the row does not exist. *)
Definition lastRoundId (w : World) : Z :=
  match gameCounter w with None => 0 | Some c => c end.

(** A point just created for the round [rid]: not consumed, with a
    crash point of at least 1, and with its row in the game table. *)
Definition freshPoint (lo hi : Z) (rows : list GameRow) (p : FuturePoint) : Prop :=
  isUsed p = false
  /\ usedAt p = None
  /\ 1 <= fpCrashPoint p
  /\ (lo < fpRoundId p <= hi)%Z
  /\ exists row, In row rows
                 /\ grRoundId row = fpRoundId p
                 /\ grCrashPoint row = fpCrashPoint p.

(** What a run that creates [n] points makes of the world [w]. *)
Definition batchAdded (n : nat) (w w' : World) : Prop :=
  exists (added : list FuturePoint) (rows : list GameRow),
    futureCrashPoint w' = futureCrashPoint w ++ added
    /\ gameTable w' = gameTable w ++ rows
    /\ length added = n
    /\ Forall (freshPoint (lastRoundId w) (lastRoundId w') rows) added
    /\ StronglySorted Z.lt (map fpRoundId added)
    /\ (lastRoundId w <= lastRoundId w')%Z
    /\ instance w' = instance w.

(** The round identifiers of the queue are distinct and not above the
    counter. *)
Definition queueWellFormed (w : World) : Prop :=
  List.NoDup (map fpRoundId (futureCrashPoint w))
  /\ Forall (fun p => (fpRoundId p <= lastRoundId w)%Z) (futureCrashPoint w).

(** What a later state of a queued point may differ in: it may have
    been consumed. *)
Definition samePoint (p p' : FuturePoint) : Prop :=
  fpRoundId p' = fpRoundId p
  /\ fpCrashPoint p' = fpCrashPoint p
  /\ (isUsed p = true -> isUsed p' = true).

(** The queue [q'] is the queue [q] with some points consumed and some
    points appended. *)
Definition queueGrows (q q' : list FuturePoint) : Prop :=
  exists kept added, q' = kept ++ added /\ Forall2 samePoint q kept.

(** The crash point of the instance is that of a consumed point of the
    queue. *)
Definition currentIsConsumed (w : World) : Prop :=
  exists p, In p (futureCrashPoint w)
            /\ isUsed p = true
            /\ fpCrashPoint p = CrashGame.currentCrashPoint (instance w).

(** What a run from [w] to [w'] keeps of the queue. *)
Definition queueKept (w w' : World) : Prop :=
  queueGrows (futureCrashPoint w) (futureCrashPoint w')
  /\ (queueWellFormed w -> queueWellFormed w').

(** A round in progress in which only synthetic wallets have bet. *)
Definition simulatedOnlySession : GameSession.t :=
  snd (GameSession.placeSecondBet "SIM_17" 900
         (snd (GameSession.placeBet "SW_AB12CD" 500
                 (GameSession.startGame 1000
                    (GameSession.new "g1" "hash" 50 "salt" "seed" 7))))).

(** What the passes of the loop keep: the positions taken are distinct
    and are not available any more. *)
Definition mineLoopInvariant (P : Z -> Prop) (available positions : list Z) : Prop :=
  List.NoDup available
  /\ List.NoDup positions
  /\ (forall x, In x available -> P x)
  /\ (forall x, In x positions -> P x /\ ~ In x available).

(** A game as [startNewGame] leaves it: active, nothing revealed, the
    multiplier at 1. *)
Definition startedGame (numberOfMines : Z) (betAmount : Q) (wallet : string)
    : MinesGame.GameState :=
  MinesGame.mkGameState [] [] "c0ffee" "5eed" "5a17" "01" numberOfMines true 1
    betAmount (Some wallet).

(** Successive calls of [revealCell], each with its cell and with
    whether its update of the stored game succeeds; what the calls
    return or throw is dropped. *)
Fixpoint revealCells (fuel : nat) (calls : list (Z * bool)) (st : MinesGame.GameState)
    : option MinesGame.GameState :=
  match calls with
  | [] => Some st
  | (index, dbOk) :: rest =>
      match MinesGame.revealCell fuel dbOk index st with
      | Some (_, st') => revealCells fuel rest st'
      | None => None
      end
  end.

(** What holds of a game between calls: the revealed cells are
    distinct cells of the grid; the mines, once laid, are as many
    distinct cells of the grid as the game asks for; and while the game
    is active no revealed cell is a mine and the multiplier is the one
    of the number of revealed cells. *)
Definition gameInvariant (st : MinesGame.GameState) : Prop :=
  List.NoDup (MinesGame.revealedCells st)
  /\ (forall c, In c (MinesGame.revealedCells st) -> (0 <= c < 25)%Z)
  /\ (MinesGame.revealedCells st <> [] ->
      Z.of_nat (length (MinesGame.minePositions st)) = MinesGame.numberOfMines st
      /\ StronglySorted Z.lt (MinesGame.minePositions st)
      /\ (forall c, In c (MinesGame.minePositions st) -> (0 <= c < 25)%Z)
      /\ (MinesGame.isActive st = true ->
          (forall c, In c (MinesGame.revealedCells st) ->
                     ~ In c (MinesGame.minePositions st))
          /\ MinesGame.multiplier st
             = MinesGame.calculateMultiplier
                 (Z.of_nat (length (MinesGame.revealedCells st)))
                 (MinesGame.numberOfMines st))).

(** The values [Math.random()] can take. *)
Definition isRandom (r : Q) : Prop := 0 <= r /\ r < 1.

(** The users [generateSimulatedUsers] can create. *)
Definition isSimulatedUser (u : BetSimulator.SimulatedUser) : Prop :=
  exists userSuffix walletSuffix styleDraw baseDraw varianceDraw,
    u = BetSimulator.generateSimulatedUser userSuffix walletSuffix styleDraw
          baseDraw varianceDraw.

(** The sample round, ended at time 2000. *)
Definition endedSession : GameSession.t := GameSession.endGame 2000 sampleSession.

(** The sample round after the first bet has been cashed out. *)
Definition cashedOutSession : GameSession.t :=
  snd (GameSession.cashout "254700000001" sampleSession).

(** The sample round with a bet of 30 queued for the next round. *)
Definition queuedSession : GameSession.t :=
  GameSession.addNextRoundBet (GameSession.mkNextRoundBet "254700000001" 30)
    sampleSession.

(** One open real stake of 1000. *)
Definition openStake : list CrashGame.ActiveBet :=
  [CrashGame.mkActiveBet 1000 "254700000001" None].

(** One real bet of 100 that was not cashed out. *)
Definition lostRoundBets : list CrashGame.ActiveBet :=
  [CrashGame.mkActiveBet 100 "254700000001" None].

(** Two open bets of simulated players. *)
Definition simulatedStakes : list CrashGame.ActiveBet :=
  [CrashGame.mkActiveBet 500 "SW_AB12CD" None; CrashGame.mkActiveBet 40 "SIM_17" None].

(** A world with two points queued, the later round first, and no
    persistence failure ahead. *)
Definition stockedWorld : World :=
  mkWorld CrashGame.new
    [mkFuturePoint 5 2 false None; mkFuturePoint 3 (3 # 2) false None]
    [] (Some 5%Z) [] 0 0.

(** A script in which everything succeeds up to the count of the
    points left, and [getEmergencySettings] then fails inside
    [generateNextRounds]. *)
Definition failedRefill : list bool := [true; true; true; true; false].

(** A world with two points queued and a refill that will fail. *)
Definition lowWorld : World :=
  mkWorld CrashGame.new
    [mkFuturePoint 5 2 false None; mkFuturePoint 3 (3 # 2) false None]
    [] (Some 5%Z) failedRefill 0 0.

(** The numeric policy rows with their defaults. *)
Definition policyDefaults : gmap string Q :=
  {["betBasedHouseEdgePercentage" := 40]} ∪ {["minCrashPoint" := 2]}
  ∪ {["highCrashPointFrequency" := 80]} ∪ {["skipCrashPointManagement" := 10]}
  ∪ {["betBasedOffsetAmount" := 0]}.

(** The number a numeric row holds, or its default when it is missing. *)
Definition rowOr (d : Q) (key : string) (rows : gmap string Q) : Q :=
  default d (rows !! key).

(** * Properties *)

(** ** Number helpers *)

Lemma Qltb_lt (x y : Q) : Num.Qltb x y = true <-> x < y.
Proof.
  unfold Num.Qltb. rewrite negb_true_iff.
  split; intros H.
  - apply Qnot_le_lt. intros Hle. apply Qle_bool_iff in Hle. congruence.
  - destruct (Qle_bool y x) eqn:E; [|reflexivity].
    apply Qle_bool_iff in E. exfalso. apply (Qlt_not_le _ _ H E).
Qed.

Lemma Qltb_ge (x y : Q) : Num.Qltb x y = false <-> y <= x.
Proof.
  unfold Num.Qltb. rewrite negb_false_iff. apply Qle_bool_iff.
Qed.

Lemma Math_max_lower (a b : Q) : a <= Num.Math_max a b.
Proof.
  unfold Num.Math_max. destruct (Qle_bool a b) eqn:E.
  - now apply Qle_bool_iff.
  - apply Qle_refl.
Qed.

Lemma Math_max_upper (a b : Q) : b <= Num.Math_max a b.
Proof.
  unfold Num.Math_max. destruct (Qle_bool a b) eqn:E.
  - apply Qle_refl.
  - apply Qlt_le_weak. apply Qnot_le_lt. intros H.
    apply Qle_bool_iff in H. congruence.
Qed.

(** ** The bet ledger of a round session *)

(** C5. On either track, a bet placed for a wallet that already has an
    entry in the ledger of the track (open or cashed out) is refused and
    the session is left as it was. *)
Theorem placeBet_occupied_slot (tr : GameSession.Track) (s : GameSession.t)
    (w : string) (a : Q) (b : GameSession.Bet)
    (Hslot : GameSession.ledger tr s !! w = Some b) :
  GameSession.placeOn tr w a s = (false, s).
Proof.
  destruct tr; simpl in *.
  - unfold GameSession.placeBet. now rewrite Hslot.
  - unfold GameSession.placeSecondBet. now rewrite Hslot.
Qed.

Lemma placeBet_occupied_slot_witness :
  GameSession.placeBet "254700000001" 30 sampleSession = (false, sampleSession)
  /\ GameSession.placeSecondBet "254700000001" 30 sampleSession
     = (false, sampleSession).
Proof.
  split.
  - apply (placeBet_occupied_slot GameSession.PRIMARY sampleSession
             "254700000001" 30 (GameSession.mkBet "254700000001" 100 None)).
    vm_compute. reflexivity.
  - apply (placeBet_occupied_slot GameSession.SECONDARY sampleSession
             "254700000001" 30 (GameSession.mkBet "254700000001" 50 None)).
    vm_compute. reflexivity.
Defined.

(** C10. [placeBet] succeeds exactly when the primary ledger has no
    entry for the wallet, and then records an open bet; the start and end
    times of the session, which decide its lifecycle state, have no part
    in it. *)
Theorem placeBet_ignores_lifecycle (s : GameSession.t) (w : string) (a : Q)
    (st en : option Z) :
  (fst (GameSession.placeBet w a s) = true <-> GameSession.bets s !! w = None)
  /\ (fst (GameSession.placeBet w a s) = true ->
      GameSession.bets (snd (GameSession.placeBet w a s)) !! w
      = Some (GameSession.mkBet w a None))
  /\ GameSession.placeBet w a (GameSession.with_times st en s)
     = (fst (GameSession.placeBet w a s),
        GameSession.with_times st en (snd (GameSession.placeBet w a s))).
Proof.
  unfold GameSession.placeBet. simpl.
  destruct (GameSession.bets s !! w) eqn:E; simpl.
  - repeat split; intros; try discriminate; try reflexivity.
  - repeat split; intros; try reflexivity.
    apply lookup_insert_eq.
Qed.

(** A cashout multiplier that is set is never changed by a cashout, of
    any wallet, on either track. *)
Lemma cashout_keeps_set_multiplier (tr tr' : GameSession.Track)
    (s : GameSession.t) (w w' : string) (b : GameSession.Bet) (m : Q) :
  GameSession.ledger tr s !! w = Some b ->
  GameSession.cashoutAt b = Some m ->
  GameSession.ledger tr (snd (GameSession.cashoutOn tr' w' s)) !! w = Some b.
Proof.
  intros Hb Hm.
  destruct tr'; simpl; unfold GameSession.cashout, GameSession.secondCashout;
    destruct (negb (GameSession.isGameInProgress s)); simpl; try assumption.
  - destruct (GameSession.bets s !! w') as [b'|] eqn:E; simpl; try assumption.
    destruct (GameSession.cashoutAt b') eqn:E'; simpl; try assumption.
    destruct tr; simpl in *; try assumption.
    destruct (decide (w' = w)) as [->|Hne].
    + rewrite Hb in E. injection E as <-. congruence.
    + now rewrite lookup_insert_ne.
  - destruct (GameSession.secondBets s !! w') as [b'|] eqn:E; simpl; try assumption.
    destruct (GameSession.cashoutAt b') eqn:E'; simpl; try assumption.
    destruct tr; simpl in *; try assumption.
    destruct (decide (w' = w)) as [->|Hne].
    + rewrite Hb in E. injection E as <-. congruence.
    + now rewrite lookup_insert_ne.
Qed.

Lemma cashout_open (s : GameSession.t) (w : string) (b : GameSession.Bet) :
  GameSession.isGameInProgress s = true ->
  GameSession.bets s !! w = Some b ->
  GameSession.cashoutAt b = None ->
  GameSession.cashout w s
  = (Some (GameSession.amount b * GameSession.currentMultiplier s),
     GameSession.with_bets
       (<[w := GameSession.mkBet (GameSession.walletId b) (GameSession.amount b)
                 (Some (GameSession.currentMultiplier s))]> (GameSession.bets s)) s).
Proof.
  intros Hp Hb Ho. unfold GameSession.cashout. now rewrite Hp, Hb, Ho.
Qed.

Lemma cashout_closed (s : GameSession.t) (w : string) (b : GameSession.Bet) (m : Q) :
  GameSession.bets s !! w = Some b ->
  GameSession.cashoutAt b = Some m ->
  GameSession.cashout w s = (None, s).
Proof.
  intros Hb Hc. unfold GameSession.cashout.
  destruct (negb (GameSession.isGameInProgress s)); [reflexivity|].
  now rewrite Hb, Hc.
Qed.

Lemma secondCashout_open (s : GameSession.t) (w : string) (b : GameSession.Bet) :
  GameSession.isGameInProgress s = true ->
  GameSession.secondBets s !! w = Some b ->
  GameSession.cashoutAt b = None ->
  GameSession.secondCashout w s
  = (Some (GameSession.amount b * GameSession.currentMultiplier s),
     GameSession.with_secondBets
       (<[w := GameSession.mkBet (GameSession.walletId b) (GameSession.amount b)
                 (Some (GameSession.currentMultiplier s))]>
          (GameSession.secondBets s)) s).
Proof.
  intros Hp Hb Ho. unfold GameSession.secondCashout. now rewrite Hp, Hb, Ho.
Qed.

Lemma secondCashout_closed (s : GameSession.t) (w : string) (b : GameSession.Bet)
    (m : Q) :
  GameSession.secondBets s !! w = Some b ->
  GameSession.cashoutAt b = Some m ->
  GameSession.secondCashout w s = (None, s).
Proof.
  intros Hb Hc. unfold GameSession.secondCashout.
  destruct (negb (GameSession.isGameInProgress s)); [reflexivity|].
  now rewrite Hb, Hc.
Qed.

(** C6. In a round in progress, of two cashouts made one after the other
    for the same open bet, the first pays the stake times the current
    multiplier and records that multiplier on the bet; the second, at the
    same multiplier, returns the failure value and changes nothing. *)
Theorem cashout_twice (tr : GameSession.Track) (s : GameSession.t)
    (w : string) (b : GameSession.Bet)
    (Hprogress : GameSession.isGameInProgress s = true)
    (Hbet : GameSession.ledger tr s !! w = Some b)
    (Hopen : GameSession.cashoutAt b = None) :
  let first := GameSession.cashoutOn tr w s in
  let second := GameSession.cashoutOn tr w (snd first) in
  fst first = Some (GameSession.amount b * GameSession.currentMultiplier s)
  /\ GameSession.ledger tr (snd first) !! w
     = Some (GameSession.mkBet (GameSession.walletId b) (GameSession.amount b)
               (Some (GameSession.currentMultiplier s)))
  /\ GameSession.currentMultiplier (snd first) = GameSession.currentMultiplier s
  /\ fst second = None
  /\ snd second = snd first.
Proof.
  destruct tr; simpl in *.
  - rewrite (cashout_open s w b Hprogress Hbet Hopen). simpl.
    erewrite cashout_closed; [| apply lookup_insert_eq | reflexivity].
    simpl. rewrite lookup_insert_eq. repeat split.
  - rewrite (secondCashout_open s w b Hprogress Hbet Hopen). simpl.
    erewrite secondCashout_closed; [| apply lookup_insert_eq | reflexivity].
    simpl. rewrite lookup_insert_eq. repeat split.
Qed.

Lemma cashout_twice_witness :
  let first := GameSession.cashout "254700000001" sampleSession in
  let second := GameSession.cashout "254700000001" (snd first) in
  fst first = Some (100 * 1) /\ fst second = None /\ snd second = snd first.
Proof.
  pose proof (cashout_twice GameSession.PRIMARY sampleSession "254700000001"
                (GameSession.mkBet "254700000001" 100 None)
                eq_refl eq_refl eq_refl) as H.
  simpl in H. destruct H as (H1 & _ & _ & H4 & H5).
  repeat split; assumption.
Defined.

(** ** Balance updates *)

(** C9. When [updateUserBalance] resolves, the balance row of the wallet
    and the cached wallet and balance of its in-memory user hold
    [Math.max(0, newBalance)], a non-negative value equal to the requested
    balance when that is non-negative and to 0 otherwise; it rejects only
    when the wallet has no row or the database fails, and then stores
    nothing. *)
Theorem updateUserBalance_clamps (updateOk : bool) (w : string) (newBalance : Q)
    (s : SocketServer.Store) :
  let stored := Num.Math_max 0 newBalance in
  0 <= stored
  /\ stored = (if Qle_bool 0 newBalance then newBalance else 0)
  /\ match SocketServer.updateUserBalance updateOk w newBalance s with
     | SocketServer.Resolved s' =>
         SocketServer.userTable s' !! w = Some stored
         /\ (forall w', w' <> w ->
               SocketServer.userTable s' !! w' = SocketServer.userTable s !! w')
         /\ SocketServer.findUser w (SocketServer.users s')
            = match SocketServer.findUser w (SocketServer.users s) with
              | Some u => Some (SocketServer.mkUser (SocketServer.uWalletId u)
                                  stored stored (SocketServer.isLoggedIn u))
              | None => None
              end
     | SocketServer.Rejected s' =>
         s' = s /\ (updateOk = false \/ SocketServer.userTable s !! w = None)
     end.
Proof.
  simpl. split; [apply Math_max_lower|]. split; [reflexivity|].
  unfold SocketServer.updateUserBalance.
  destruct (SocketServer.userTable s !! w) eqn:E.
  - destruct updateOk; simpl.
    + split; [apply lookup_insert_eq|]. split.
      * intros w' Hne. now apply lookup_insert_ne.
      * induction (SocketServer.users s) as [|[k u] l IH]; simpl; [reflexivity|].
        destruct (String.eqb (SocketServer.uWalletId u) w) eqn:Eu; simpl.
        -- apply String.eqb_eq in Eu. subst w. now rewrite String.eqb_refl.
        -- now rewrite Eu.
    + split; [reflexivity | now left].
  - split; [reflexivity | now right].
Qed.

(** ** The offset accumulator *)



(** ** The emergency check of the tick *)

Lemma updateMultiplier_frame (pow : Q -> Q) (now : Z) (s : GameSession.t) :
  GameSession.isGameInProgress (GameSession.updateMultiplier pow now s)
  = GameSession.isGameInProgress s
  /\ GameSession.crashPoint (GameSession.updateMultiplier pow now s)
     = GameSession.crashPoint s
  /\ GameSession.bets (GameSession.updateMultiplier pow now s) = GameSession.bets s
  /\ GameSession.secondBets (GameSession.updateMultiplier pow now s)
     = GameSession.secondBets s.
Proof.
  unfold GameSession.updateMultiplier.
  destruct (negb (GameSession.isGameInProgress s)); [repeat split|].
  destruct (0 <? GameSession.steps pow now s)%Z; repeat split.
Qed.





(** ** Overrides of the crash point *)




(** ** The multiplier clock *)

Lemma Math_round_bounds (x : Q) :
  x - (1 # 2) < Num.Math_round x /\ Num.Math_round x <= x + (1 # 2).
Proof.
  unfold Num.Math_round. split.
  - pose proof (Qlt_floor (x + (1 # 2))) as H.
    rewrite inject_Z_plus in H. change (inject_Z 1) with 1 in H. lra.
  - apply Qfloor_le.
Qed.

Lemma updateMultiplier_step (pow : Q -> Q) (now : Z) (s : GameSession.t) :
  let a := GameSession.currentMultiplier s in
  let b := GameSession.currentMultiplier (GameSession.updateMultiplier pow now s) in
  a <= b /\ b <= a + (103 # 200)
  /\ (b = a
      \/ (b = Num.Math_round ((a + GameSession.increment s) * 100) / 100
          /\ a + GameSession.increment s <= GameSession.rawMultiplier pow now s)).
Proof.
  simpl. unfold GameSession.updateMultiplier.
  destruct (negb (GameSession.isGameInProgress s));
    [repeat split; [lra | lra | now left]|].
  destruct (0 <? GameSession.steps pow now s)%Z eqn:Hsteps;
    [|repeat split; [lra | lra | now left]].
  simpl. split; [|split; [|right; split; [reflexivity|]]].
  - pose proof (Math_round_bounds
                  ((GameSession.currentMultiplier s + GameSession.increment s) * 100))
      as [Hlo _].
    unfold GameSession.increment in *. unfold Qdiv. change (/ 100) with (1 # 100).
    destruct (Num.Qltb 10 (GameSession.currentMultiplier s)); lra.
  - pose proof (Math_round_bounds
                  ((GameSession.currentMultiplier s + GameSession.increment s) * 100))
      as [_ Hhi].
    unfold GameSession.increment in *. unfold Qdiv. change (/ 100) with (1 # 100).
    destruct (Num.Qltb 10 (GameSession.currentMultiplier s)); lra.
  - apply Z.ltb_lt in Hsteps. unfold GameSession.steps in Hsteps.
    match type of Hsteps with
    | (0 < Qfloor ?x)%Z =>
        assert (Hx : 1 <= x)
          by (apply Qle_trans with (inject_Z (Qfloor x));
              [change 1 with (inject_Z 1); rewrite <- Zle_Qle; lia
              | apply Qfloor_le])
    end.
    unfold GameSession.increment in *. unfold Qdiv in Hx.
    destruct (Num.Qltb 10 (GameSession.currentMultiplier s)).
    + change (/ (51 # 100)) with (100 # 51) in Hx. lra.
    + change (/ (11 # 1000)) with (1000 # 11) in Hx. lra.
Qed.

Lemma updateMultiplier_start (pow : Q -> Q) (now : Z) (s : GameSession.t) :
  GameSession.gameStartTime (GameSession.updateMultiplier pow now s)
  = GameSession.gameStartTime s.
Proof.
  unfold GameSession.updateMultiplier.
  destruct (negb (GameSession.isGameInProgress s)); [reflexivity|].
  destruct (0 <? GameSession.steps pow now s)%Z; reflexivity.
Qed.

Lemma updateMultiplier_exact (pow : Q -> Q) (now : Z) (s : GameSession.t) :
  GameSession.currentMultiplier (GameSession.updateMultiplier pow now s)
  = (if GameSession.isGameInProgress s
        && Qle_bool (GameSession.currentMultiplier s + GameSession.increment s)
             (GameSession.rawMultiplier pow now s)
     then Num.Math_round
            ((GameSession.currentMultiplier s + GameSession.increment s) * 100) / 100
     else GameSession.currentMultiplier s).
Proof.
  unfold GameSession.updateMultiplier.
  destruct (GameSession.isGameInProgress s); [|reflexivity]. cbn [negb andb].
  assert (Hinc : 0 < GameSession.increment s).
  { unfold GameSession.increment.
    destruct (Num.Qltb 10 (GameSession.currentMultiplier s)); reflexivity. }
  set (a := GameSession.currentMultiplier s) in *.
  set (inc := GameSession.increment s) in *.
  set (raw := GameSession.rawMultiplier pow now s).
  unfold GameSession.steps. fold a inc raw.
  destruct (Qle_bool (a + inc) raw) eqn:E.
  - apply Qle_bool_iff in E.
    assert (H1 : 1 <= (raw - a) / inc)
      by (apply Qle_shift_div_l; [exact Hinc | lra]).
    assert (Hs : (0 <? Qfloor ((raw - a) / inc))%Z = true).
    { apply Z.ltb_lt.
      assert (1 <= Qfloor ((raw - a) / inc))%Z; [|lia].
      change 1%Z with (Qfloor 1). now apply Qfloor_resp_le. }
    now rewrite Hs.
  - assert (E' : raw < a + inc).
    { apply Qnot_le_lt. intros H. apply Qle_bool_iff in H. congruence. }
    assert (H1 : (raw - a) / inc < 1)
      by (apply Qlt_shift_div_r; [exact Hinc | lra]).
    assert (Hs : (0 <? Qfloor ((raw - a) / inc))%Z = false).
    { apply Z.ltb_ge.
      assert (Qfloor ((raw - a) / inc) < 1)%Z; [|lia].
      rewrite Zlt_Qlt. eapply Qle_lt_trans; [apply Qfloor_le | exact H1]. }
    now rewrite Hs.
Qed.

Lemma Math_round_hundredths (k j : Z) (a e : Q) :
  a == inject_Z k / 100 ->
  inject_Z j - (1 # 2) <= e * 100 -> e * 100 < inject_Z j + (1 # 2) ->
  Num.Math_round ((a + e) * 100) / 100 == a + inject_Z j / 100.
Proof.
  intros Ha Hlo Hhi. unfold Num.Math_round.
  assert (Hf : Qfloor ((a + e) * 100 + (1 # 2)) = (k + j)%Z).
  { assert (Hlow : inject_Z (k + j) <= (a + e) * 100 + (1 # 2)).
    { rewrite inject_Z_plus, Ha. field_simplify. lra. }
    assert (Hup : (a + e) * 100 + (1 # 2) < inject_Z (k + j + 1)).
    { rewrite !inject_Z_plus, Ha. change (inject_Z 1) with 1. field_simplify. lra. }
    apply Z.le_antisymm.
    - assert (Qfloor ((a + e) * 100 + (1 # 2)) < k + j + 1)%Z; [|lia].
      rewrite Zlt_Qlt. eapply Qle_lt_trans; [apply Qfloor_le | exact Hup].
    - rewrite <- (Qfloor_Z (k + j)). now apply Qfloor_resp_le. }
  rewrite Hf, inject_Z_plus, Ha. field.
Qed.

(** C7, as the code has it.  Along any sequence of ticks, and whatever
    value the exponential has at each of them, a tick raises the
    multiplier by one increment of the grid (0.011 up to 10x and 0.51
    above, rounded to two decimals) exactly when the round is in progress
    and the exponential is at least one increment ahead, and leaves it
    unchanged otherwise.  So the multiplier never decreases, a raise is
    a strict one of at most 0.515, and from a whole number of hundredths
    it is a raise by 0.01 up to 10x and by 0.51 above: the multiplier
    follows the exponential from below, one step per tick. *)
Theorem multiplier_one_increment_per_tick (pow : Q -> Q) (nows : list Z)
    (s : GameSession.t) (i : nat) (now : Z) (a b : Q) :
  let ms := GameSession.currentMultiplier s :: GameSession.tickMultipliers pow nows s in
  let inc := if Num.Qltb 10 a then 51 # 100 else 11 # 1000 in
  let rises := GameSession.isGameInProgress s
               && Qle_bool (a + inc) (GameSession.rawMultiplier pow now s) in
  nows !! i = Some now -> ms !! i = Some a -> ms !! S i = Some b ->
  b = (if rises then Num.Math_round ((a + inc) * 100) / 100 else a)
  /\ a <= b /\ b <= a + (103 # 200)
  /\ (rises = true -> a + (3 # 500) < b)
  /\ (rises = true -> forall k : Z, a == inject_Z k / 100 ->
      b == a + (if Num.Qltb 10 a then 51 # 100 else 1 # 100)).
Proof.
  cbv zeta. revert s i. induction nows as [|now0 rest IH]; intros s i Hnow Ha Hb.
  - destruct i; simpl in *; discriminate.
  - destruct i as [|i]; simpl in *.
    + injection Hnow as <-. injection Ha as <-. injection Hb as <-.
      rewrite updateMultiplier_exact. unfold GameSession.increment.
      set (a := GameSession.currentMultiplier s).
      split; [reflexivity|].
      destruct (Num.Qltb 10 a).
      * pose proof (Math_round_bounds ((a + (51 # 100)) * 100)) as [Hlo Hhi].
        destruct (GameSession.isGameInProgress s && Qle_bool _ _).
        -- split; [|split; [|split]].
           ++ unfold Qdiv. change (/ 100) with (1 # 100). lra.
           ++ unfold Qdiv. change (/ 100) with (1 # 100). lra.
           ++ intros _. unfold Qdiv. change (/ 100) with (1 # 100). lra.
           ++ intros _ k Hk.
              rewrite (Math_round_hundredths k 51 a (51 # 100) Hk);
                [reflexivity | vm_compute; discriminate | reflexivity].
        -- split; [lra|]. split; [lra|]. split; intros; discriminate.
      * pose proof (Math_round_bounds ((a + (11 # 1000)) * 100)) as [Hlo Hhi].
        destruct (GameSession.isGameInProgress s && Qle_bool _ _).
        -- split; [|split; [|split]].
           ++ unfold Qdiv. change (/ 100) with (1 # 100). lra.
           ++ unfold Qdiv. change (/ 100) with (1 # 100). lra.
           ++ intros _. unfold Qdiv. change (/ 100) with (1 # 100). lra.
           ++ intros _ k Hk.
              rewrite (Math_round_hundredths k 1 a (11 # 1000) Hk);
                [reflexivity | vm_compute; discriminate | reflexivity].
        -- split; [lra|]. split; [lra|]. split; intros; discriminate.
    + replace (GameSession.rawMultiplier pow now s)
        with (GameSession.rawMultiplier pow now (GameSession.updateMultiplier pow now0 s))
        by (unfold GameSession.rawMultiplier; now rewrite updateMultiplier_start).
      replace (GameSession.isGameInProgress s)
        with (GameSession.isGameInProgress (GameSession.updateMultiplier pow now0 s))
        by apply updateMultiplier_frame.
      apply (IH (GameSession.updateMultiplier pow now0 s) i); assumption.
Qed.

(** The first tick of a round, 100 ms after its start, finds the
    exponential above 1.011 and raises the multiplier from 1 to 1.01. *)
Lemma multiplier_one_increment_per_tick_witness :
  let b := GameSession.currentMultiplier
             (GameSession.updateMultiplier expTaylor 1100 clockSession) in
  1 + (3 # 500) < b /\ b == 101 # 100.
Proof.
  pose proof (multiplier_one_increment_per_tick expTaylor [1100%Z] clockSession
                0 1100 1 _ eq_refl eq_refl eq_refl) as H.
  split.
  - exact (proj1 (proj2 (proj2 (proj2 H))) eq_refl).
  - exact (proj2 (proj2 (proj2 (proj2 H))) eq_refl 100%Z eq_refl).
Defined.

(** C7 as stated fails: with a tick every 100 ms, the multiplier after
    the 50 ticks of the first five seconds is 1.50, one hundredth per
    tick, while the exponential is above 4.48 and the documented
    multiplier above 4.47: they differ by more than 2.9. *)
Lemma multiplier_lags_exponential :
  let s := GameSession.runTicks expTaylor fiveSeconds clockSession in
  let raw := GameSession.rawMultiplier expTaylor 6000 s in
  map Qred (GameSession.tickMultipliers expTaylor fiveSeconds clockSession)
  = map (fun k => Qred (1 + inject_Z (Z.of_nat k) / 100)) (seq 1 50)
  /\ Qeq_bool (GameSession.currentMultiplier s) (3 # 2) = true
  /\ Num.Qltb (448 # 100) raw = true
  /\ Num.Qltb (447 # 100) (documentedMultiplier raw) = true
  /\ Qle_bool (Qabs (GameSession.currentMultiplier s - documentedMultiplier raw))
       (29 # 10) = false.
Proof. vm_compute. repeat split. Qed.

(** ** Verification of a finished round *)

Example sha256_abc :
  Sha256.generateHash "abc"
  = "ba7816bf8f01cfea414140de5dae2223b00361a396177a9cb410ff61f20015ad".
Proof. vm_compute. reflexivity. Qed.

Example scenarioSeed_is_hash_of_seed0 : Sha256.generateHash "seed0" = scenarioSeed.
Proof. vm_compute. reflexivity. Qed.

Lemma scenario_fraction :
  CrashGame.hmacFraction scenarioSeed "abc" "def"
  = 2753683831717127 # 4503599627370496.
Proof. vm_compute. reflexivity. Qed.

Lemma allBytes_spec (j : Z) : (0 <= j <= 255)%Z -> In j allBytes.
Proof.
  intros H. unfold allBytes. apply in_map_iff. exists (Z.to_nat j).
  split; [lia|]. apply in_seq. lia.
Qed.

Lemma scenario_points_apart :
  forallb (fun j =>
             Qle_bool (CrashGame.crashPointOfFraction defaultGame (1 # 4) j
                         (2753683831717127 # 4503599627370496)) (205 # 100)
             && Qle_bool (221 # 100)
                  (CrashGame.verifiedPointOfFraction j (1 # 4)
                     (2753683831717127 # 4503599627370496)))
          allBytes = true.
Proof. vm_compute. reflexivity. Qed.

(** C1 fails on the code.  For the documented scenario (server seed
    SHA-256 of "seed0", client seed "abc", salt "def", house edge 0.25),
    where r = 0.6114..., the generation function yields at most 2.05 and
    [verifyGame] at least 2.21, whatever random bytes the two draw: the
    two bucket tables differ. *)
Theorem verifyGame_misses_generated_point (j1 j2 : Z)
    (H1 : (0 <= j1 <= 255)%Z) (H2 : (0 <= j2 <= 255)%Z) :
  CrashGame.calculateCrashPoint defaultGame (1 # 4) j1 scenarioSeed "abc" "def"
  <= 205 # 100
  /\ 221 # 100 <= CrashGame.verifyGame j2 scenarioSeed "abc" "def" (1 # 4).
Proof.
  unfold CrashGame.calculateCrashPoint, CrashGame.verifyGame.
  rewrite scenario_fraction.
  pose proof scenario_points_apart as H.
  rewrite forallb_forall in H.
  split.
  - specialize (H j1 (allBytes_spec j1 H1)).
    apply andb_true_iff in H. apply Qle_bool_iff. exact (proj1 H).
  - specialize (H j2 (allBytes_spec j2 H2)).
    apply andb_true_iff in H. apply Qle_bool_iff. exact (proj2 H).
Qed.

Lemma verifyGame_misses_generated_point_witness :
  CrashGame.calculateCrashPoint defaultGame (1 # 4) 128 scenarioSeed "abc" "def"
  <= 205 # 100
  /\ 221 # 100 <= CrashGame.verifyGame 128 scenarioSeed "abc" "def" (1 # 4).
Proof.
  apply (verifyGame_misses_generated_point 128 128); lia.
Defined.

(** ** The round queue *)

Lemma draw_nil (w : World) : outcomes w = [] -> draw w = (true, w).
Proof. intros H. unfold draw. now rewrite H. Qed.

Lemma draw_true_inv (w w' : World) :
  draw w = (true, w') ->
  selfInvocations w' = selfInvocations w
  /\ (pending w' <= pending w)%nat
  /\ futureCrashPoint w' = futureCrashPoint w.
Proof.
  unfold draw, pending. destruct (outcomes w) as [|b rest] eqn:E; intros H.
  - injection H as <-. rewrite E. auto.
  - injection H as -> <-. simpl. auto.
Qed.

Lemma draw_false_inv (w w' : World) :
  draw w = (false, w') ->
  selfInvocations w' = selfInvocations w
  /\ S (pending w') = pending w
  /\ futureCrashPoint w' = futureCrashPoint w.
Proof.
  unfold draw, pending. destruct (outcomes w) as [|b rest] eqn:E; intros H.
  - discriminate.
  - injection H as -> <-. simpl. auto.
Qed.

Lemma draw_cons_inv (w w' : World) (b : bool) :
  outcomes w <> [] -> draw w = (b, w') -> S (pending w') = pending w.
Proof.
  unfold draw, pending. destruct (outcomes w) as [|b0 rest] eqn:E; intros Hne H.
  - congruence.
  - injection H as _ <-. reflexivity.
Qed.

Lemma pending_zero (w : World) : pending w = 0%nat <-> outcomes w = [].
Proof. unfold pending. destruct (outcomes w); simpl; split; intros; congruence. Qed.

Lemma hasUnused_app (q : list FuturePoint) (p : FuturePoint) :
  isUsed p = false -> hasUnused (q ++ [p]) = true.
Proof.
  intros H. unfold hasUnused. rewrite existsb_app. simpl. rewrite H. simpl.
  now rewrite orb_true_r.
Qed.

Lemma hasUnused_app_l (q r : list FuturePoint) :
  hasUnused q = true -> hasUnused (q ++ r) = true.
Proof. intros H. unfold hasUnused in *. rewrite existsb_app, H. reflexivity. Qed.

Lemma findFirstUnused_None (q : list FuturePoint) :
  findFirstUnused q = None <-> hasUnused q = false.
Proof.
  induction q as [|p rest IH]; simpl; [tauto|].
  fold (hasUnused rest).
  destruct (findFirstUnused rest) as [p'|] eqn:E.
  - destruct (hasUnused rest) eqn:Hr.
    + rewrite orb_true_r.
      destruct (isUsed p); [split; discriminate|].
      destruct (fpRoundId p <=? fpRoundId p')%Z; split; discriminate.
    + destruct IH as [_ IH]. specialize (IH eq_refl). discriminate.
  - destruct IH as [IH _]. rewrite (IH eq_refl), orb_false_r.
    destruct (isUsed p); simpl; split; intros; congruence.
Qed.

Lemma tryGenerate_inv (env : Env) (h h' : string) (w w' : World) (ok : bool) :
  tryGenerate env h w = (ok, h', w') ->
  selfInvocations w' = selfInvocations w
  /\ (pending w' <= pending w)%nat
  /\ (ok = false -> (pending w' < pending w)%nat)
  /\ (ok = true -> hasUnused (futureCrashPoint w') = true)
  /\ (hasUnused (futureCrashPoint w) = true ->
      hasUnused (futureCrashPoint w') = true).
Proof.
  unfold tryGenerate.
  destruct (draw w) as [b1 w1] eqn:D1. destruct b1.
  2:{ intros H. injection H as <- <- <-. apply draw_false_inv in D1.
      destruct D1 as (Hs & Hp & Hq). rewrite Hq.
      repeat split; try lia; try discriminate; auto. }
  apply draw_true_inv in D1. destruct D1 as (Hs1 & Hp1 & Hq1).
  match goal with
  | |- context [draw ?x] => destruct (draw x) as [b2 w3] eqn:D2
  end.
  destruct b2.
  2:{ intros H. injection H as <- <- <-. apply draw_false_inv in D2.
      unfold pending in *. simpl in D2. destruct D2 as (Hs & Hp & Hq).
      rewrite Hq, Hq1.
      repeat split; try lia; try discriminate; auto. }
  apply draw_true_inv in D2. unfold pending in *. simpl in D2.
  destruct D2 as (Hs2 & Hp2 & Hq2).
  match goal with
  | |- context [draw ?x] => destruct (draw x) as [b3 w5] eqn:D3
  end.
  destruct b3.
  - intros H. injection H as <- <- <-. apply draw_true_inv in D3.
    unfold pending in *. simpl in D3. destruct D3 as (Hs & Hp & Hq).
    simpl. repeat split; try lia; try discriminate.
    + intros _. now apply hasUnused_app.
    + intros _. now apply hasUnused_app.
  - intros H. injection H as <- <- <-. apply draw_false_inv in D3.
    unfold pending in *. simpl in D3. destruct D3 as (Hs & Hp & Hq).
    rewrite Hq, Hq2, Hq1.
    repeat split; try lia; try discriminate; auto.
Qed.

Lemma generateLoop_total (env : Env) (fuel : nat) :
  forall (remaining : nat) (h : string) (w : World),
    (remaining + pending w <= fuel)%nat ->
    exists w',
      generateLoop env fuel remaining h w = Some w'
      /\ selfInvocations w' = selfInvocations w
      /\ (pending w' <= pending w)%nat
      /\ ((0 < remaining)%nat \/ hasUnused (futureCrashPoint w) = true ->
          hasUnused (futureCrashPoint w') = true).
Proof.
  induction fuel as [|f IH]; intros remaining h w Hfuel.
  - destruct remaining; [|lia]. exists w. simpl.
    repeat split; auto. intros [H|H]; [lia | exact H].
  - destruct remaining as [|r].
    + exists w. simpl. repeat split; auto. intros [H|H]; [lia | exact H].
    + simpl. destruct (tryGenerate env h w) as [[ok h'] w1] eqn:T.
      apply tryGenerate_inv in T. destruct T as (Hs & Hp & Hfail & Hok & Hkeep).
      destruct ok.
      * destruct (IH r h' (sleep 100 w1)) as (w' & Hrun & Hs' & Hp' & Hu').
        { unfold pending in *. simpl. lia. }
        exists w'. split; [exact Hrun|]. unfold pending in *. simpl in *.
        repeat split; try lia. intros _. apply Hu'. right. now apply Hok.
      * specialize (Hfail eq_refl).
        destruct (IH (S r) h' (sleep 2000 w1)) as (w' & Hrun & Hs' & Hp' & Hu').
        { unfold pending in *. simpl. lia. }
        exists w'. split; [exact Hrun|]. unfold pending in *. simpl in *.
        repeat split; try lia. intros _. apply Hu'. left. lia.
Qed.

Lemma generateNextRounds_total (env : Env) (fuel : nat) (w : World) :
  (25 + pending w <= fuel)%nat ->
  exists r w',
    generateNextRounds env fuel w = Some (r, w')
    /\ selfInvocations w' = selfInvocations w
    /\ (pending w' <= pending w)%nat
    /\ (r = Ok -> hasUnused (futureCrashPoint w') = true)
    /\ (r = Thrown -> (pending w' < pending w)%nat).
Proof.
  intros Hfuel. unfold generateNextRounds.
  destruct (draw w) as [b w0] eqn:D. destruct b.
  - apply draw_true_inv in D. destruct D as (Hs & Hp & Hq).
    destruct (generateLoop_total env fuel CrashGame.POINTS_TO_GENERATE
                (Sha256.generateHash (envSeed env)) w0) as (w' & Hrun & Hs' & Hp' & Hu').
    { unfold CrashGame.POINTS_TO_GENERATE. lia. }
    rewrite Hrun. exists Ok, w'. split; [reflexivity|].
    repeat split; try lia; try discriminate.
    intros _. apply Hu'. left. unfold CrashGame.POINTS_TO_GENERATE. lia.
  - apply draw_false_inv in D. destruct D as (Hs & Hp & Hq).
    exists Thrown, w0. split; [reflexivity|].
    repeat split; try lia; try discriminate.
Qed.

Lemma advanceAttempt_cases (env : Env) (f : nat)
    (again : World -> option (Res * World)) (w0 : World) :
  (25 + pending w0 <= f)%nat ->
  (exists w', advanceAttempt env f again w0 = Some (Ok, w')
              /\ selfInvocations w' = selfInvocations w0
              /\ (pending w' <= pending w0)%nat)
  \/ (exists w', advanceAttempt env f again w0 = Some (Thrown, w')
                 /\ selfInvocations w' = selfInvocations w0
                 /\ (pending w' < pending w0)%nat)
  \/ (exists w2, advanceAttempt env f again w0 = again (selfInvoke w2)
                 /\ hasUnused (futureCrashPoint w0) = false
                 /\ selfInvocations w2 = selfInvocations w0
                 /\ (pending w2 <= pending w0)%nat
                 /\ hasUnused (futureCrashPoint w2) = true).
Proof.
  intros Hfuel. unfold advanceAttempt.
  destruct (draw w0) as [b1 w1] eqn:D1. destruct b1.
  2:{ apply draw_false_inv in D1. destruct D1 as (Hs & Hp & Hq).
      right. left. exists w1. repeat split; try lia. }
  apply draw_true_inv in D1. destruct D1 as (Hs1 & Hp1 & Hq1).
  destruct (findFirstUnused (futureCrashPoint w1)) as [p|] eqn:F.
  - match goal with
    | |- context [draw ?x] => destruct (draw x) as [b2 w3] eqn:D2
    end.
    destruct b2.
    2:{ apply draw_false_inv in D2. unfold pending in *. simpl in D2.
        destruct D2 as (Hs & Hp & Hq).
        right. left. exists w3. repeat split; try lia. }
    apply draw_true_inv in D2. unfold pending in *. simpl in D2.
    destruct D2 as (Hs2 & Hp2 & Hq2).
    match goal with
    | |- context [draw ?x] => destruct (draw x) as [b3 w5] eqn:D3
    end.
    destruct b3.
    2:{ apply draw_false_inv in D3. unfold pending in *. simpl in D3.
        destruct D3 as (Hs & Hp & Hq).
        right. left. exists w5. repeat split; try lia. }
    apply draw_true_inv in D3. unfold pending in *. simpl in D3.
    destruct D3 as (Hs3 & Hp3 & Hq3).
    match goal with
    | |- context [if ?c then _ else _] => destruct c
    end.
    + destruct (generateNextRounds_total env f w5) as (r & w' & Hg & Hs & Hp & _ & Hthrown).
      { unfold pending. lia. }
      unfold pending in *. rewrite Hg. destruct r.
      * left. exists w'. repeat split; try lia.
      * specialize (Hthrown eq_refl).
        right. left. exists w'. repeat split; try lia.
    + left. exists w5. repeat split; try lia.
  - apply findFirstUnused_None in F. rewrite Hq1 in F.
    destruct (generateNextRounds_total env f w1) as (r & w' & Hg & Hs & Hp & Hok & Hthrown).
    { lia. }
    rewrite Hg. destruct r.
    + right. right. exists w'. repeat split; try lia; auto.
    + specialize (Hthrown eq_refl).
      right. left. exists w'. repeat split; try lia.
Qed.

Lemma advance_stocked_quiet (env : Env) (fuel : nat) (w : World) :
  outcomes w = [] ->
  hasUnused (futureCrashPoint w) = true ->
  (26 <= fuel)%nat ->
  exists w',
    advanceToNextRound env fuel w = Some (Ok, w')
    /\ selfInvocations w' = selfInvocations w
    /\ pending w' = 0%nat.
Proof.
  intros Hout Hstock Hfuel. destruct fuel as [|f]; [lia|].
  simpl. rewrite (draw_nil w Hout).
  assert (Hp0 : pending w = 0%nat) by now apply pending_zero.
  destruct (advanceAttempt_cases env f (advanceToNextRound env f) w)
    as [(w' & Ha & Hs & Hp) | [(w' & Ha & Hs & Hp) | (w2 & _ & Hno & _)]].
  - lia.
  - rewrite Ha. exists w'. repeat split; auto. lia.
  - lia.
  - congruence.
Qed.

Lemma advance_quiet (env : Env) (fuel : nat) (w : World) :
  outcomes w = [] ->
  (27 <= fuel)%nat ->
  exists w',
    advanceToNextRound env fuel w = Some (Ok, w')
    /\ pending w' = 0%nat
    /\ (selfInvocations w <= selfInvocations w' <= selfInvocations w + 1)%nat
    /\ (hasUnused (futureCrashPoint w) = true ->
        selfInvocations w' = selfInvocations w).
Proof.
  intros Hout Hfuel. destruct fuel as [|f]; [lia|].
  simpl. rewrite (draw_nil w Hout).
  assert (Hp0 : pending w = 0%nat) by now apply pending_zero.
  destruct (advanceAttempt_cases env f (advanceToNextRound env f) w)
    as [(w' & Ha & Hs & Hp) | [(w' & Ha & Hs & Hp) | (w2 & Ha & Hno & Hs & Hp & Hstock)]].
  - lia.
  - rewrite Ha. exists w'. repeat split; auto; lia.
  - lia.
  - rewrite Ha.
    destruct (advance_stocked_quiet env f (selfInvoke w2)) as (w' & Hr & Hs' & Hp').
    + apply pending_zero. unfold pending in *. simpl. lia.
    + exact Hstock.
    + lia.
    + rewrite Hr. exists w'. simpl in Hs'. repeat split; auto; try lia.
      intros H. congruence.
Qed.

Lemma advance_settles (env : Env) (fuel : nat) :
  forall w : World,
    (pending w + 27 <= fuel)%nat ->
    settled w (advanceToNextRound env fuel w).
Proof.
  induction fuel as [|f IH]; intros w Hfuel; [lia|].
  destruct (outcomes w) as [|b0 rest] eqn:Hout.
  { destruct (advance_quiet env (S f) w Hout) as (w' & Hr & Hp & Hs & Hstock); [lia|].
    exists Ok, w'. split; [exact Hr|]. unfold spent.
    repeat split; try lia; try discriminate.
    intros H. specialize (Hstock H). lia. }
  assert (Hne : outcomes w <> []) by (rewrite Hout; discriminate).
  simpl. destruct (draw w) as [b w0] eqn:D.
  pose proof (draw_cons_inv w w0 b Hne D) as Hp0.
  destruct b.
  2:{ apply draw_false_inv in D. destruct D as (Hs & _ & Hq).
      exists Thrown, w0. split; [reflexivity|]. unfold spent.
      repeat split; intros; lia. }
  apply draw_true_inv in D. destruct D as (Hs0 & _ & Hq0).
  destruct (advanceAttempt_cases env f (advanceToNextRound env f) w0)
    as [(w' & Ha & Hs & Hp) | [(w' & Ha & Hs & Hp) | (w2 & Ha & Hno & Hs & Hp & Hstock)]].
  - lia.
  - rewrite Ha. exists Ok, w'. split; [reflexivity|]. unfold spent.
    repeat split; intros; try discriminate; lia.
  - rewrite Ha.
    destruct (IH (selfInvoke (sleep 2000 w'))) as (r & w'' & Hr & Hp' & Hm' & Ha' & _ & Ht').
    { unfold pending in *. simpl. lia. }
    rewrite Hr. exists r, w''. split; [reflexivity|].
    unfold spent, pending in *. simpl in *.
    repeat split; intros; try lia.
    specialize (Ht' H). lia.
  - rewrite Ha. rewrite Hq0 in Hno.
    destruct (IH (selfInvoke w2)) as (r3 & w3 & Hr3 & Hp3 & Hm3 & _ & Hb3 & Ht3).
    { unfold pending in *. simpl. lia. }
    specialize (Hb3 Hstock). rewrite Hr3.
    destruct r3.
    + exists Ok, w3. split; [reflexivity|].
      unfold spent, pending in *. simpl in *.
      repeat split; intros; try discriminate; try lia.
    + specialize (Ht3 eq_refl).
      destruct (IH (selfInvoke (sleep 2000 w3))) as (r & w'' & Hr & Hp' & Hm' & Ha' & _ & Ht').
      { unfold pending in *. simpl in *. lia. }
      rewrite Hr. exists r, w''. split; [reflexivity|].
      unfold spent, pending in *. simpl in *.
      repeat split; intros; try lia; try congruence.
      specialize (Ht' H). lia.
Qed.

Lemma flakyScript_self_invocations (env : Env) (n : nat) :
  forall (fuel : nat) (w : World),
    outcomes w = flakyScript n ->
    (pending w + 27 <= fuel)%nat ->
    exists r w',
      advanceToNextRound env fuel w = Some (r, w')
      /\ (selfInvocations w + n <= selfInvocations w')%nat.
Proof.
  induction n as [|n IH]; intros fuel w Hout Hfuel.
  - destruct (advance_settles env fuel w Hfuel) as (r & w' & Hr & _ & Hm & _).
    exists r, w'. split; [exact Hr | lia].
  - destruct fuel as [|f]; [lia|].
    unfold pending in Hfuel. rewrite Hout in Hfuel. simpl in Hfuel.
    simpl. unfold advanceAttempt, draw. rewrite Hout. simpl.
    match goal with
    | |- context [advanceToNextRound env f ?x] =>
        destruct (IH f x) as (r & w' & Hr & Hlow)
    end.
    + reflexivity.
    + unfold pending. simpl. lia.
    + exists r, w'. split; [exact Hr|]. simpl in Hlow. lia.
Qed.

(** C8, as the code has it.  [advanceToNextRound] retries by calling
    itself, with no cap on the number of calls: once after it has
    generated a batch for an empty queue, and two seconds after every
    error.  When the persistence failures are finitely many it returns,
    and the calls of the function by itself are at most the number of
    scripted outcomes plus one. *)
Theorem advanceToNextRound_terminates (env : Env) (w : World) (fuel : nat)
    (Hfuel : (length (outcomes w) + 27 <= fuel)%nat) :
  exists r w',
    advanceToNextRound env fuel w = Some (r, w')
    /\ (selfInvocations w' <= selfInvocations w + length (outcomes w) + 1)%nat.
Proof.
  destruct (advance_settles env fuel w Hfuel) as (r & w' & Hr & Hp & _ & Ha & _).
  exists r, w'. split; [exact Hr|]. unfold spent, pending in *. lia.
Qed.

Lemma advanceToNextRound_terminates_witness :
  exists r w',
    advanceToNextRound sampleEnv 29 (emptyWorld [true; false]) = Some (r, w')
    /\ (selfInvocations w' <= 0 + 2 + 1)%nat.
Proof.
  apply (advanceToNextRound_terminates sampleEnv (emptyWorld [true; false]) 29).
  simpl. lia.
Defined.

(** C8 as stated fails: no number bounds the calls of
    [advanceToNextRound] by itself.  When the query for the next point
    fails [n] times before it succeeds, the function calls itself at
    least [n] times. *)
Lemma advanceToNextRound_no_retry_bound :
  ~ (exists bound : nat,
       forall (env : Env) (w : World) (fuel : nat) (r : Res) (w' : World),
         advanceToNextRound env fuel w = Some (r, w') ->
         (selfInvocations w' <= selfInvocations w + bound)%nat).
Proof.
  intros [bound H].
  destruct (flakyScript_self_invocations sampleEnv (S bound)
              (pending (emptyWorld (flakyScript (S bound))) + 27)
              (emptyWorld (flakyScript (S bound))) eq_refl (le_n _))
    as (r & w' & Hr & Hlow).
  specialize (H _ _ _ _ _ Hr). simpl in *. lia.
Qed.

(** ** Sequences of calls on a round session *)

Lemma placeBet_frame (w : string) (a : Q) (s : GameSession.t) :
  let s' := snd (GameSession.placeBet w a s) in
  GameSession.gameStartTime s' = GameSession.gameStartTime s
  /\ GameSession.gameEndTime s' = GameSession.gameEndTime s
  /\ GameSession.currentMultiplier s' = GameSession.currentMultiplier s
  /\ GameSession.secondBets s' = GameSession.secondBets s
  /\ GameSession.nextRoundBets s' = GameSession.nextRoundBets s
  /\ GameSession.secondNextRoundBets s' = GameSession.secondNextRoundBets s.
Proof.
  simpl. unfold GameSession.placeBet.
  destruct (GameSession.bets s !! w); simpl; repeat split.
Qed.

Lemma placeSecondBet_frame (w : string) (a : Q) (s : GameSession.t) :
  let s' := snd (GameSession.placeSecondBet w a s) in
  GameSession.gameStartTime s' = GameSession.gameStartTime s
  /\ GameSession.gameEndTime s' = GameSession.gameEndTime s
  /\ GameSession.currentMultiplier s' = GameSession.currentMultiplier s
  /\ GameSession.bets s' = GameSession.bets s
  /\ GameSession.nextRoundBets s' = GameSession.nextRoundBets s
  /\ GameSession.secondNextRoundBets s' = GameSession.secondNextRoundBets s.
Proof.
  simpl. unfold GameSession.placeSecondBet.
  destruct (GameSession.secondBets s !! w); simpl; repeat split.
Qed.

Lemma placeAll_clock (l : list GameSession.NextRoundBet) (s : GameSession.t) :
  clockOf (fold_left (fun acc b => snd (GameSession.placeBet (GameSession.nrWalletId b)
                                          (GameSession.nrAmount b) acc)) l s)
  = clockOf s.
Proof.
  revert s. induction l as [|b l IH]; intros s; simpl; [reflexivity|].
  rewrite IH. unfold clockOf.
  destruct (placeBet_frame (GameSession.nrWalletId b) (GameSession.nrAmount b) s)
    as (H1 & H2 & H3 & _).
  simpl in *. now rewrite H1, H2, H3.
Qed.

Lemma placeAllSecond_clock (l : list GameSession.NextRoundBet) (s : GameSession.t) :
  clockOf (fold_left (fun acc b => snd (GameSession.placeSecondBet
                                          (GameSession.nrWalletId b)
                                          (GameSession.nrAmount b) acc)) l s)
  = clockOf s.
Proof.
  revert s. induction l as [|b l IH]; intros s; simpl; [reflexivity|].
  rewrite IH. unfold clockOf.
  destruct (placeSecondBet_frame (GameSession.nrWalletId b) (GameSession.nrAmount b) s)
    as (H1 & H2 & H3 & _).
  simpl in *. now rewrite H1, H2, H3.
Qed.

Lemma moveNextRoundBetsToCurrent_clock (s : GameSession.t) :
  clockOf (GameSession.moveNextRoundBetsToCurrent s) = clockOf s.
Proof.
  unfold GameSession.moveNextRoundBetsToCurrent.
  rewrite <- (placeAll_clock (GameSession.nextRoundBets s) s). reflexivity.
Qed.

Lemma moveSecondNextRoundBetsToCurrent_clock (s : GameSession.t) :
  clockOf (GameSession.moveSecondNextRoundBetsToCurrent s) = clockOf s.
Proof.
  unfold GameSession.moveSecondNextRoundBetsToCurrent.
  rewrite <- (placeAllSecond_clock (GameSession.secondNextRoundBets s) s). reflexivity.
Qed.

Lemma startGame_clock (now : Z) (s : GameSession.t) :
  clockOf (GameSession.startGame now s)
  = (Some now, GameSession.gameEndTime s, GameSession.currentMultiplier s).
Proof.
  unfold GameSession.startGame.
  now rewrite moveSecondNextRoundBetsToCurrent_clock, moveNextRoundBetsToCurrent_clock.
Qed.

Lemma startGame_times (now : Z) (s : GameSession.t) :
  GameSession.gameStartTime (GameSession.startGame now s) = Some now
  /\ GameSession.gameEndTime (GameSession.startGame now s) = GameSession.gameEndTime s
  /\ GameSession.currentMultiplier (GameSession.startGame now s)
     = GameSession.currentMultiplier s.
Proof.
  pose proof (startGame_clock now s) as Hc. unfold clockOf in Hc.
  repeat split; congruence.
Qed.

Lemma clockOf_inv (s s' : GameSession.t) :
  clockOf s' = clockOf s ->
  GameSession.gameStartTime s' = GameSession.gameStartTime s
  /\ GameSession.gameEndTime s' = GameSession.gameEndTime s
  /\ GameSession.currentMultiplier s' = GameSession.currentMultiplier s.
Proof. unfold clockOf. intros H. repeat split; congruence. Qed.

Lemma call_after_end (pow : Q -> Q) (op : GameSession.Op) (s : GameSession.t) :
  is_Some (GameSession.gameEndTime s) ->
  is_Some (GameSession.gameEndTime (GameSession.call pow op s))
  /\ GameSession.currentMultiplier (GameSession.call pow op s)
     = GameSession.currentMultiplier s.
Proof.
  intros [e He].
  assert (Hnp : GameSession.isGameInProgress s = false).
  { unfold GameSession.isGameInProgress. rewrite He.
    destruct (GameSession.gameStartTime s); reflexivity. }
  destruct op as [t|t|t|c|w a|w|w|b| |w a|w|w|b|w| |t]; cbn [GameSession.call].
  - destruct (startGame_times t s) as (_ & H2 & H3). rewrite H2, H3, He. eauto.
  - simpl. eauto.
  - unfold GameSession.updateMultiplier. rewrite Hnp. simpl. rewrite He. eauto.
  - simpl. rewrite He. eauto.
  - destruct (placeBet_frame w a s) as (_ & H2 & H3 & _). simpl in *.
    rewrite H2, H3, He. eauto.
  - unfold GameSession.cancelBet. rewrite Hnp.
    destruct (GameSession.bets s !! w) as [b|]; simpl; [|rewrite He; eauto].
    destruct (GameSession.cashoutAt b); simpl; rewrite He; eauto.
  - unfold GameSession.cashout. rewrite Hnp. simpl. rewrite He. eauto.
  - simpl. rewrite He. eauto.
  - destruct (clockOf_inv _ _ (moveNextRoundBetsToCurrent_clock s)) as (_ & H2 & H3).
    rewrite H2, H3, He. eauto.
  - destruct (placeSecondBet_frame w a s) as (_ & H2 & H3 & _). simpl in *.
    rewrite H2, H3, He. eauto.
  - unfold GameSession.cancelSecondBet. rewrite Hnp.
    destruct (GameSession.secondBets s !! w) as [b|]; simpl; [|rewrite He; eauto].
    destruct (GameSession.cashoutAt b); simpl; rewrite He; eauto.
  - unfold GameSession.secondCashout. rewrite Hnp. simpl. rewrite He. eauto.
  - simpl. rewrite He. eauto.
  - unfold GameSession.cancelSecondNextRoundBet.
    destruct (GameSession.spliceFirst w (GameSession.secondNextRoundBets s))
      as [[a rest]|]; simpl; rewrite He; eauto.
  - destruct (clockOf_inv _ _ (moveSecondNextRoundBetsToCurrent_clock s)) as (_ & H2 & H3).
    rewrite H2, H3, He. eauto.
  - unfold GameSession.forceGameEnd. rewrite Hnp. rewrite He. eauto.
Qed.

(** X1. Once a round has an end time, no sequence of calls brings it
    back in progress: every later cashout on either track returns the
    failure value and changes nothing, and the multiplier stays where
    it was. *)
Theorem ended_round_stays_ended (pow : Q -> Q) (ops : list GameSession.Op)
    (s : GameSession.t) (w : string) (tr : GameSession.Track)
    (Hended : is_Some (GameSession.gameEndTime s)) :
  let s' := GameSession.calls pow ops s in
  GameSession.isGameInProgress s' = false
  /\ GameSession.cashoutOn tr w s' = (None, s')
  /\ GameSession.currentMultiplier s' = GameSession.currentMultiplier s.
Proof.
  simpl.
  assert (H : is_Some (GameSession.gameEndTime (GameSession.calls pow ops s))
              /\ GameSession.currentMultiplier (GameSession.calls pow ops s)
                 = GameSession.currentMultiplier s).
  { revert s Hended. unfold GameSession.calls.
    induction ops as [|op ops IH]; intros s Hended; simpl; [auto|].
    destruct (call_after_end pow op s Hended) as [He Hm].
    destruct (IH _ He) as [He' Hm']. split; [exact He' | congruence]. }
  destruct H as [[e He] Hm].
  assert (Hnp : GameSession.isGameInProgress (GameSession.calls pow ops s) = false).
  { unfold GameSession.isGameInProgress. rewrite He.
    destruct (GameSession.gameStartTime _); reflexivity. }
  split; [exact Hnp|]. split; [|exact Hm].
  destruct tr; simpl; unfold GameSession.cashout, GameSession.secondCashout;
    now rewrite Hnp.
Qed.

Lemma ledger_with_nextRoundBets (tr : GameSession.Track) (l : list GameSession.NextRoundBet)
    (s : GameSession.t) :
  GameSession.ledger tr (GameSession.with_nextRoundBets l s) = GameSession.ledger tr s.
Proof. destruct tr; reflexivity. Qed.

Lemma ledger_with_secondNextRoundBets (tr : GameSession.Track)
    (l : list GameSession.NextRoundBet) (s : GameSession.t) :
  GameSession.ledger tr (GameSession.with_secondNextRoundBets l s)
  = GameSession.ledger tr s.
Proof. destruct tr; reflexivity. Qed.

Lemma ledger_with_times (tr : GameSession.Track) (st en : option Z) (s : GameSession.t) :
  GameSession.ledger tr (GameSession.with_times st en s) = GameSession.ledger tr s.
Proof. destruct tr; reflexivity. Qed.

Lemma ledgerStep_refl (s s' : GameSession.t) :
  (forall tr, GameSession.ledger tr s' = GameSession.ledger tr s) -> ledgerStep s s'.
Proof. intros H tr w b. rewrite H. split; auto. Qed.

Lemma ledgerStep_trans (s1 s2 s3 : GameSession.t) :
  GameSession.currentMultiplier s2 = GameSession.currentMultiplier s1 ->
  ledgerStep s1 s2 -> ledgerStep s2 s3 -> ledgerStep s1 s3.
Proof.
  intros Hm H12 H23 tr w b. split.
  - intros H3. destruct (proj1 (H23 tr w b) H3) as [H2|[Hn|Hc]].
    + exact (proj1 (H12 tr w b) H2).
    + auto.
    + rewrite Hm in Hc. auto.
  - intros H1 Hc. apply (proj2 (H23 tr w b)); [|exact Hc].
    apply (proj2 (H12 tr w b)); assumption.
Qed.

Lemma placeBet_ledgerStep (w : string) (a : Q) (s : GameSession.t) :
  ledgerStep s (snd (GameSession.placeBet w a s)).
Proof.
  unfold GameSession.placeBet.
  destruct (GameSession.bets s !! w) eqn:E; simpl; [now apply ledgerStep_refl|].
  intros tr w' b. destruct tr; simpl; [|split; auto].
  destruct (decide (w = w')) as [->|Hne].
  - rewrite lookup_insert_eq. split.
    + intros H. injection H as <-. right. left. reflexivity.
    + intros H. congruence.
  - rewrite lookup_insert_ne by exact Hne. split; auto.
Qed.

Lemma placeSecondBet_ledgerStep (w : string) (a : Q) (s : GameSession.t) :
  ledgerStep s (snd (GameSession.placeSecondBet w a s)).
Proof.
  unfold GameSession.placeSecondBet.
  destruct (GameSession.secondBets s !! w) eqn:E; simpl; [now apply ledgerStep_refl|].
  intros tr w' b. destruct tr; simpl; [split; auto|].
  destruct (decide (w = w')) as [->|Hne].
  - rewrite lookup_insert_eq. split.
    + intros H. injection H as <-. right. left. reflexivity.
    + intros H. congruence.
  - rewrite lookup_insert_ne by exact Hne. split; auto.
Qed.

Lemma placeAll_ledgerStep (l : list GameSession.NextRoundBet) (s : GameSession.t) :
  ledgerStep s (fold_left (fun acc b => snd (GameSession.placeBet
                                               (GameSession.nrWalletId b)
                                               (GameSession.nrAmount b) acc)) l s).
Proof.
  revert s. induction l as [|b l IH]; intros s; simpl.
  - now apply ledgerStep_refl.
  - eapply ledgerStep_trans; [| apply placeBet_ledgerStep | apply IH].
    apply (placeBet_frame (GameSession.nrWalletId b) (GameSession.nrAmount b) s).
Qed.

Lemma placeAllSecond_ledgerStep (l : list GameSession.NextRoundBet) (s : GameSession.t) :
  ledgerStep s (fold_left (fun acc b => snd (GameSession.placeSecondBet
                                               (GameSession.nrWalletId b)
                                               (GameSession.nrAmount b) acc)) l s).
Proof.
  revert s. induction l as [|b l IH]; intros s; simpl.
  - now apply ledgerStep_refl.
  - eapply ledgerStep_trans; [| apply placeSecondBet_ledgerStep | apply IH].
    apply (placeSecondBet_frame (GameSession.nrWalletId b) (GameSession.nrAmount b) s).
Qed.

Lemma moveNextRoundBetsToCurrent_ledgerStep (s : GameSession.t) :
  ledgerStep s (GameSession.moveNextRoundBetsToCurrent s).
Proof.
  unfold GameSession.moveNextRoundBetsToCurrent.
  eapply ledgerStep_trans; [| apply (placeAll_ledgerStep (GameSession.nextRoundBets s) s) |].
  - pose proof (placeAll_clock (GameSession.nextRoundBets s) s) as H.
    unfold clockOf in H. congruence.
  - apply ledgerStep_refl. intros tr. apply ledger_with_nextRoundBets.
Qed.

Lemma moveSecondNextRoundBetsToCurrent_ledgerStep (s : GameSession.t) :
  ledgerStep s (GameSession.moveSecondNextRoundBetsToCurrent s).
Proof.
  unfold GameSession.moveSecondNextRoundBetsToCurrent.
  eapply ledgerStep_trans;
    [| apply (placeAllSecond_ledgerStep (GameSession.secondNextRoundBets s) s) |].
  - pose proof (placeAllSecond_clock (GameSession.secondNextRoundBets s) s) as H.
    unfold clockOf in H. congruence.
  - apply ledgerStep_refl. intros tr. apply ledger_with_secondNextRoundBets.
Qed.

Lemma startGame_ledgerStep (now : Z) (s : GameSession.t) :
  ledgerStep s (GameSession.startGame now s).
Proof.
  unfold GameSession.startGame.
  eapply ledgerStep_trans; [| |apply moveSecondNextRoundBetsToCurrent_ledgerStep].
  - destruct (clockOf_inv _ _ (moveNextRoundBetsToCurrent_clock
                                 (GameSession.with_times (Some now)
                                    (GameSession.gameEndTime s) s))) as (_ & _ & H).
    exact H.
  - eapply ledgerStep_trans; [| |apply moveNextRoundBetsToCurrent_ledgerStep].
    + reflexivity.
    + apply ledgerStep_refl. intros tr. apply ledger_with_times.
Qed.

Lemma cancelBet_ledgerStep (w : string) (s : GameSession.t) :
  ledgerStep s (snd (GameSession.cancelBet w s)).
Proof.
  unfold GameSession.cancelBet.
  destruct (GameSession.isGameInProgress s).
  - destruct (GameSession.spliceFirst w (GameSession.nextRoundBets s)) as [[a rest]|];
      simpl; apply ledgerStep_refl; intros tr; destruct tr; reflexivity.
  - destruct (GameSession.bets s !! w) as [b0|] eqn:E; simpl;
      [|now apply ledgerStep_refl].
    destruct (GameSession.cashoutAt b0) eqn:Ec; simpl; [now apply ledgerStep_refl|].
    intros tr w' b. destruct tr; simpl; [|split; auto].
    destruct (decide (w = w')) as [->|Hne].
    + rewrite lookup_delete_eq. split; [discriminate|].
      intros H [m Hm]. congruence.
    + rewrite lookup_delete_ne by exact Hne. split; auto.
Qed.

Lemma cancelSecondBet_ledgerStep (w : string) (s : GameSession.t) :
  ledgerStep s (snd (GameSession.cancelSecondBet w s)).
Proof.
  unfold GameSession.cancelSecondBet.
  destruct (GameSession.isGameInProgress s).
  - destruct (GameSession.spliceFirst w (GameSession.secondNextRoundBets s))
      as [[a rest]|];
      simpl; apply ledgerStep_refl; intros tr; destruct tr; reflexivity.
  - destruct (GameSession.secondBets s !! w) as [b0|] eqn:E; simpl;
      [|now apply ledgerStep_refl].
    destruct (GameSession.cashoutAt b0) eqn:Ec; simpl; [now apply ledgerStep_refl|].
    intros tr w' b. destruct tr; simpl; [split; auto|].
    destruct (decide (w = w')) as [->|Hne].
    + rewrite lookup_delete_eq. split; [discriminate|].
      intros H [m Hm]. congruence.
    + rewrite lookup_delete_ne by exact Hne. split; auto.
Qed.

Lemma cashout_ledgerStep (w : string) (s : GameSession.t) :
  ledgerStep s (snd (GameSession.cashout w s)).
Proof.
  unfold GameSession.cashout.
  destruct (negb (GameSession.isGameInProgress s)); simpl; [now apply ledgerStep_refl|].
  destruct (GameSession.bets s !! w) as [b0|] eqn:E; simpl; [|now apply ledgerStep_refl].
  destruct (GameSession.cashoutAt b0) eqn:Ec; simpl; [now apply ledgerStep_refl|].
  intros tr w' b. destruct tr; simpl; [|split; auto].
  destruct (decide (w = w')) as [->|Hne].
  - rewrite lookup_insert_eq. split.
    + intros H. injection H as <-. right. right. reflexivity.
    + intros H [m Hm]. congruence.
  - rewrite lookup_insert_ne by exact Hne. split; auto.
Qed.

Lemma secondCashout_ledgerStep (w : string) (s : GameSession.t) :
  ledgerStep s (snd (GameSession.secondCashout w s)).
Proof.
  unfold GameSession.secondCashout.
  destruct (negb (GameSession.isGameInProgress s)); simpl; [now apply ledgerStep_refl|].
  destruct (GameSession.secondBets s !! w) as [b0|] eqn:E; simpl;
    [|now apply ledgerStep_refl].
  destruct (GameSession.cashoutAt b0) eqn:Ec; simpl; [now apply ledgerStep_refl|].
  intros tr w' b. destruct tr; simpl; [split; auto|].
  destruct (decide (w = w')) as [->|Hne].
  - rewrite lookup_insert_eq. split.
    + intros H. injection H as <-. right. right. reflexivity.
    + intros H [m Hm]. congruence.
  - rewrite lookup_insert_ne by exact Hne. split; auto.
Qed.

Lemma call_ledgerStep (pow : Q -> Q) (op : GameSession.Op) (s : GameSession.t) :
  ledgerStep s (GameSession.call pow op s).
Proof.
  destruct op as [t|t|t|c|w a|w|w|b| |w a|w|w|b|w| |t]; cbn [GameSession.call].
  - apply startGame_ledgerStep.
  - apply ledgerStep_refl. intros tr. apply ledger_with_times.
  - apply ledgerStep_refl. intros tr. unfold GameSession.updateMultiplier.
    destruct (negb (GameSession.isGameInProgress s)); [reflexivity|].
    destruct (0 <? GameSession.steps pow t s)%Z; destruct tr; reflexivity.
  - apply ledgerStep_refl. intros tr. destruct tr; reflexivity.
  - apply placeBet_ledgerStep.
  - apply cancelBet_ledgerStep.
  - apply cashout_ledgerStep.
  - apply ledgerStep_refl. intros tr. destruct tr; reflexivity.
  - apply moveNextRoundBetsToCurrent_ledgerStep.
  - apply placeSecondBet_ledgerStep.
  - apply cancelSecondBet_ledgerStep.
  - apply secondCashout_ledgerStep.
  - apply ledgerStep_refl. intros tr. destruct tr; reflexivity.
  - apply ledgerStep_refl. intros tr. unfold GameSession.cancelSecondNextRoundBet.
    destruct (GameSession.spliceFirst w (GameSession.secondNextRoundBets s))
      as [[a rest]|]; destruct tr; reflexivity.
  - apply moveSecondNextRoundBetsToCurrent_ledgerStep.
  - apply ledgerStep_refl. intros tr. unfold GameSession.forceGameEnd.
    destruct (GameSession.isGameInProgress s); destruct tr; reflexivity.
Qed.

(** X2. A bet that has been cashed out stays in its ledger, with the
    stake and the cashout multiplier it has, through every sequence of
    calls: no bet placed, cancelled, cashed out or moved in from the
    next-round queue replaces or removes it. *)
Theorem cashed_out_bet_is_final (pow : Q -> Q) (ops : list GameSession.Op)
    (s : GameSession.t) (tr : GameSession.Track) (w : string)
    (b : GameSession.Bet) (m : Q)
    (Hbet : GameSession.ledger tr s !! w = Some b)
    (Hcashed : GameSession.cashoutAt b = Some m) :
  GameSession.ledger tr (GameSession.calls pow ops s) !! w = Some b.
Proof.
  revert s Hbet. unfold GameSession.calls.
  induction ops as [|op ops IH]; intros s Hbet; simpl; [exact Hbet|].
  apply IH. apply (proj2 (call_ledgerStep pow op s tr w b)); [exact Hbet|].
  rewrite Hcashed. eauto.
Qed.

Lemma call_multiplier (pow : Q -> Q) (op : GameSession.Op) (s : GameSession.t) :
  GameSession.currentMultiplier (GameSession.call pow op s)
  = GameSession.currentMultiplier s
  \/ exists t, op = GameSession.CallUpdateMultiplier t.
Proof.
  destruct op as [t|t|t|c|w a|w|w|b| |w a|w|w|b|w| |t]; cbn [GameSession.call];
    try (right; eexists; reflexivity); left.
  - apply startGame_times.
  - reflexivity.
  - reflexivity.
  - apply placeBet_frame.
  - unfold GameSession.cancelBet. destruct (GameSession.isGameInProgress s).
    + destruct (GameSession.spliceFirst w (GameSession.nextRoundBets s)) as [[a rest]|];
        reflexivity.
    + destruct (GameSession.bets s !! w) as [b|]; [|reflexivity].
      destruct (GameSession.cashoutAt b); reflexivity.
  - unfold GameSession.cashout.
    destruct (negb (GameSession.isGameInProgress s)); [reflexivity|].
    destruct (GameSession.bets s !! w) as [b|]; [|reflexivity].
    destruct (GameSession.cashoutAt b); reflexivity.
  - reflexivity.
  - apply (clockOf_inv _ _ (moveNextRoundBetsToCurrent_clock s)).
  - apply placeSecondBet_frame.
  - unfold GameSession.cancelSecondBet. destruct (GameSession.isGameInProgress s).
    + destruct (GameSession.spliceFirst w (GameSession.secondNextRoundBets s))
        as [[a rest]|]; reflexivity.
    + destruct (GameSession.secondBets s !! w) as [b|]; [|reflexivity].
      destruct (GameSession.cashoutAt b); reflexivity.
  - unfold GameSession.secondCashout.
    destruct (negb (GameSession.isGameInProgress s)); [reflexivity|].
    destruct (GameSession.secondBets s !! w) as [b|]; [|reflexivity].
    destruct (GameSession.cashoutAt b); reflexivity.
  - reflexivity.
  - unfold GameSession.cancelSecondNextRoundBet.
    destruct (GameSession.spliceFirst w (GameSession.secondNextRoundBets s))
      as [[a rest]|]; reflexivity.
  - apply (clockOf_inv _ _ (moveSecondNextRoundBetsToCurrent_clock s)).
  - unfold GameSession.forceGameEnd.
    destruct (GameSession.isGameInProgress s); reflexivity.
Qed.

Lemma call_keeps_invariant (pow : Q -> Q) (op : GameSession.Op) (s : GameSession.t) :
  sessionInvariant s -> sessionInvariant (GameSession.call pow op s).
Proof.
  intros (Hone & [k Hk] & Hledger).
  assert (Hmono : GameSession.currentMultiplier s
                  <= GameSession.currentMultiplier (GameSession.call pow op s)).
  { destruct (call_multiplier pow op s) as [->|[t ->]]; [apply Qle_refl|].
    apply (updateMultiplier_step pow t s). }
  split; [|split].
  - eapply Qle_trans; eassumption.
  - destruct (call_multiplier pow op s) as [->|[t ->]]; [now exists k|].
    cbn [GameSession.call].
    destruct (updateMultiplier_step pow t s) as (_ & _ & [->|[-> _]]); [now exists k|].
    unfold Num.Math_round. eexists. reflexivity.
  - intros tr w b m Hb Hm.
    destruct (proj1 (call_ledgerStep pow op s tr w b) Hb) as [Hold|[Hnone|Hnow]].
    + destruct (Hledger tr w b m Hold Hm) as [H1 H2].
      split; [exact H1 | eapply Qle_trans; eassumption].
    + congruence.
    + rewrite Hm in Hnow. injection Hnow as ->. split; assumption.
Qed.

(** X3. In every session reached from a new one by any sequence of
    calls, the multiplier is at least 1 and a whole number of
    hundredths, and every bet that was cashed out carries a multiplier
    between 1 and the current one. *)
Theorem reachable_session_invariant (pow : Q -> Q) (ops : list GameSession.Op)
    (id gameHash : string) (crashPoint : Q) (salt clientSeed : string) (roundId : Z) :
  sessionInvariant
    (GameSession.calls pow ops
       (GameSession.new id gameHash crashPoint salt clientSeed roundId)).
Proof.
  assert (H0 : sessionInvariant
                 (GameSession.new id gameHash crashPoint salt clientSeed roundId)).
  { split; [apply Qle_refl|]. split; [exists 100%Z; reflexivity|].
    intros tr w b m Hb. destruct tr; simpl in Hb; rewrite lookup_empty in Hb;
      discriminate. }
  revert H0. generalize (GameSession.new id gameHash crashPoint salt clientSeed roundId).
  unfold GameSession.calls.
  induction ops as [|op ops IH]; intros s Hs; simpl; [exact Hs|].
  apply IH. now apply call_keeps_invariant.
Qed.

Lemma call_times (pow : Q -> Q) (op : GameSession.Op) (s : GameSession.t) :
  let s' := GameSession.call pow op s in
  (is_Some (GameSession.gameStartTime s) -> is_Some (GameSession.gameStartTime s'))
  /\ (is_Some (GameSession.gameEndTime s) -> is_Some (GameSession.gameEndTime s'))
  /\ (is_Some (GameSession.gameEndTime s') ->
      is_Some (GameSession.gameEndTime s) \/ is_Some (GameSession.gameStartTime s)
      \/ exists t, op = GameSession.CallEndGame t).
Proof.
  destruct op as [t|t|t|c|w a|w|w|b| |w a|w|w|b|w| |t]; cbn [GameSession.call]; cbv zeta.
  - destruct (startGame_times t s) as (H1 & H2 & _). rewrite H1, H2. eauto 6.
  - simpl. eauto 6.
  - unfold GameSession.updateMultiplier.
    destruct (negb (GameSession.isGameInProgress s)); [auto|].
    destruct (0 <? GameSession.steps pow t s)%Z; simpl; auto.
  - simpl. auto.
  - destruct (placeBet_frame w a s) as (H1 & H2 & _). simpl in *. rewrite H1, H2. auto.
  - unfold GameSession.cancelBet. destruct (GameSession.isGameInProgress s).
    + destruct (GameSession.spliceFirst w (GameSession.nextRoundBets s)) as [[a rest]|];
        simpl; auto.
    + destruct (GameSession.bets s !! w) as [b|]; [|simpl; auto].
      destruct (GameSession.cashoutAt b); simpl; auto.
  - unfold GameSession.cashout.
    destruct (negb (GameSession.isGameInProgress s)); [simpl; auto|].
    destruct (GameSession.bets s !! w) as [b|]; [|simpl; auto].
    destruct (GameSession.cashoutAt b); simpl; auto.
  - simpl. auto.
  - destruct (clockOf_inv _ _ (moveNextRoundBetsToCurrent_clock s)) as (H1 & H2 & _).
    rewrite H1, H2. auto.
  - destruct (placeSecondBet_frame w a s) as (H1 & H2 & _). simpl in *.
    rewrite H1, H2. auto.
  - unfold GameSession.cancelSecondBet. destruct (GameSession.isGameInProgress s).
    + destruct (GameSession.spliceFirst w (GameSession.secondNextRoundBets s))
        as [[a rest]|]; simpl; auto.
    + destruct (GameSession.secondBets s !! w) as [b|]; [|simpl; auto].
      destruct (GameSession.cashoutAt b); simpl; auto.
  - unfold GameSession.secondCashout.
    destruct (negb (GameSession.isGameInProgress s)); [simpl; auto|].
    destruct (GameSession.secondBets s !! w) as [b|]; [|simpl; auto].
    destruct (GameSession.cashoutAt b); simpl; auto.
  - simpl. auto.
  - unfold GameSession.cancelSecondNextRoundBet.
    destruct (GameSession.spliceFirst w (GameSession.secondNextRoundBets s))
      as [[a rest]|]; simpl; auto.
  - destruct (clockOf_inv _ _ (moveSecondNextRoundBetsToCurrent_clock s)) as (H1 & H2 & _).
    rewrite H1, H2. auto.
  - unfold GameSession.forceGameEnd. unfold GameSession.isGameInProgress.
    destruct (GameSession.gameStartTime s) eqn:E1;
      destruct (GameSession.gameEndTime s) eqn:E2; simpl; rewrite ?E1, ?E2; eauto 6.
Qed.

Lemma call_lifecycle (pow : Q -> Q) (op : GameSession.Op) (s : GameSession.t) :
  (lifecycleRank (GameSession.lifecycle s)
   <= lifecycleRank (GameSession.lifecycle (GameSession.call pow op s)))%nat.
Proof.
  destruct (call_times pow op s) as (Hs & He & _).
  unfold GameSession.lifecycle.
  destruct (GameSession.gameStartTime s) as [t1|] eqn:E1; [|simpl; lia].
  destruct (Hs (mk_is_Some _ _ eq_refl)) as [t1' ->].
  destruct (GameSession.gameEndTime s) as [t2|] eqn:E2.
  - destruct (He (mk_is_Some _ _ eq_refl)) as [t2' ->]. simpl. lia.
  - destruct (GameSession.gameEndTime (GameSession.call pow op s)); simpl; lia.
Qed.

(** X4. The lifecycle of a session never moves backwards, whatever is
    called on it: it goes from WAITING to ACTIVE to ENDED, so a crash point
    that [getGameState] has reported stays reported after every further
    call, and it is reported in no state before ENDED. *)
Theorem lifecycle_never_goes_back (pow : Q -> Q) (ops : list GameSession.Op)
    (s : GameSession.t) (now now' : Z) :
  let s' := GameSession.calls pow ops s in
  (lifecycleRank (GameSession.lifecycle s)
   <= lifecycleRank (GameSession.lifecycle s'))%nat
  /\ (GameSession.gsCrashPoint (GameSession.getGameState now s) <> None ->
      GameSession.gsCrashPoint (GameSession.getGameState now' s')
      = Some (GameSession.crashPoint s'))
  /\ (GameSession.lifecycle s' <> GameSession.ENDED ->
      GameSession.gsCrashPoint (GameSession.getGameState now' s') = None).
Proof.
  simpl.
  assert (Hrank : (lifecycleRank (GameSession.lifecycle s)
                   <= lifecycleRank (GameSession.lifecycle
                                       (GameSession.calls pow ops s)))%nat).
  { revert s. unfold GameSession.calls.
    induction ops as [|op ops IH]; intros s; simpl; [lia|].
    etransitivity; [apply (call_lifecycle pow op s) | apply IH]. }
  split; [exact Hrank|]. unfold GameSession.getGameState. simpl. split.
  - destruct (GameSession.lifecycle s); try congruence.
    destruct (GameSession.lifecycle (GameSession.calls pow ops s));
      simpl in Hrank; try lia. reflexivity.
  - destruct (GameSession.lifecycle (GameSession.calls pow ops s)); congruence.
Qed.

Lemma with_bets_same (s : GameSession.t) (m : gmap string GameSession.Bet) :
  GameSession.with_bets (GameSession.bets s) (GameSession.with_bets m s) = s.
Proof. destruct s; reflexivity. Qed.

(** X5. Before the round starts or after it has ended, placing a bet
    for a wallet without an entry and cancelling it again returns the
    stake and restores the session exactly. *)
Theorem placeBet_cancelBet_round_trip (s : GameSession.t) (w : string) (a : Q)
    (Hfree : GameSession.bets s !! w = None)
    (Hidle : GameSession.isGameInProgress s = false) :
  GameSession.placeBet w a s
  = (true, snd (GameSession.placeBet w a s))
  /\ GameSession.cancelBet w (snd (GameSession.placeBet w a s)) = (Some a, s).
Proof.
  unfold GameSession.placeBet. rewrite Hfree. simpl. split; [reflexivity|].
  unfold GameSession.cancelBet.
  assert (Hidle' : GameSession.isGameInProgress
                     (GameSession.with_bets
                        (<[w:=GameSession.mkBet w a None]> (GameSession.bets s)) s)
                   = false) by exact Hidle.
  rewrite Hidle'. simpl. rewrite lookup_insert_eq. simpl.
  rewrite delete_insert_eq, delete_id by exact Hfree.
  now rewrite with_bets_same.
Qed.

Lemma spliceFirst_spec (w : string) (l : list GameSession.NextRoundBet) :
  match GameSession.spliceFirst w l with
  | Some (a, rest) =>
      exists pre b post,
        l = pre ++ b :: post
        /\ rest = pre ++ post
        /\ GameSession.nrWalletId b = w
        /\ GameSession.nrAmount b = a
        /\ Forall (fun x => GameSession.nrWalletId x <> w) pre
  | None => Forall (fun x => GameSession.nrWalletId x <> w) l
  end.
Proof.
  induction l as [|x l IH]; simpl; [constructor|].
  destruct (String.eqb (GameSession.nrWalletId x) w) eqn:E.
  - apply String.eqb_eq in E. exists [], x, l. repeat split; [exact E | constructor].
  - apply String.eqb_neq in E.
    destruct (GameSession.spliceFirst w l) as [[a rest]|].
    + destruct IH as (pre & b & post & Hl & Hrest & Hw & Ha & Hpre).
      exists (x :: pre), b, post. rewrite Hl, Hrest.
      repeat split; [exact Hw | exact Ha | now constructor].
    + now constructor.
Qed.

(** X6. While a round is in progress, [cancelBet] never touches a live
    bet: both ledgers and the queue of the second track stay as they
    are.  When the wallet has a bet queued for the next round, the refund
    is the stake of the first such bet, and the session is left with
    that one entry taken out of the queue, the entries before and after
    it in place; otherwise the answer is [null] and nothing changes. *)
Theorem cancelBet_in_progress (s : GameSession.t) (w : string)
    (Hprogress : GameSession.isGameInProgress s = true) :
  let s' := snd (GameSession.cancelBet w s) in
  GameSession.bets s' = GameSession.bets s
  /\ GameSession.secondBets s' = GameSession.secondBets s
  /\ GameSession.secondNextRoundBets s' = GameSession.secondNextRoundBets s
  /\ ((exists pre b post,
         GameSession.nextRoundBets s = pre ++ b :: post
         /\ GameSession.nrWalletId b = w
         /\ Forall (fun x => GameSession.nrWalletId x <> w) pre
         /\ fst (GameSession.cancelBet w s) = Some (GameSession.nrAmount b)
         /\ s' = GameSession.with_nextRoundBets (pre ++ post) s)
      \/ (Forall (fun x => GameSession.nrWalletId x <> w) (GameSession.nextRoundBets s)
          /\ fst (GameSession.cancelBet w s) = None
          /\ s' = s)).
Proof.
  cbv zeta. unfold GameSession.cancelBet. rewrite Hprogress.
  pose proof (spliceFirst_spec w (GameSession.nextRoundBets s)) as H.
  destruct (GameSession.spliceFirst w (GameSession.nextRoundBets s)) as [[a rest]|].
  - destruct H as (pre & b & post & Hl & Hrest & Hw & Ha & Hpre).
    cbn [fst snd]. repeat split. left. exists pre, b, post.
    rewrite Ha, Hrest. repeat split; assumption.
  - cbn [fst snd]. repeat split. right. repeat split. exact H.
Qed.

Lemma placeAll_bets (l : list GameSession.NextRoundBet) (s : GameSession.t) (w : string) :
  GameSession.bets
    (fold_left (fun acc b => snd (GameSession.placeBet (GameSession.nrWalletId b)
                                    (GameSession.nrAmount b) acc)) l s) !! w
  = match GameSession.bets s !! w with
    | Some b => Some b
    | None => match firstQueued w l with
              | Some a => Some (GameSession.mkBet w a None)
              | None => None
              end
    end.
Proof.
  revert s. induction l as [|b l IH]; intros s; simpl.
  - unfold firstQueued. simpl. destruct (GameSession.bets s !! w); reflexivity.
  - rewrite IH. unfold GameSession.placeBet at 1. unfold firstQueued. simpl.
    destruct (String.eqb (GameSession.nrWalletId b) w) eqn:Eb.
    + apply String.eqb_eq in Eb. subst w.
      destruct (GameSession.bets s !! GameSession.nrWalletId b) eqn:E; simpl.
      * now rewrite E.
      * now rewrite lookup_insert_eq.
    + assert (Hne : GameSession.nrWalletId b <> w)
        by (intros Heq; rewrite Heq, String.eqb_refl in Eb; discriminate).
      destruct (GameSession.bets s !! GameSession.nrWalletId b) eqn:E; simpl.
      * destruct (GameSession.bets s !! w); [reflexivity|].
        unfold firstQueued.
        destruct (GameSession.spliceFirst w l) as [[a rest]|]; reflexivity.
      * rewrite lookup_insert_ne by exact Hne.
        destruct (GameSession.bets s !! w); [reflexivity|].
        unfold firstQueued.
        destruct (GameSession.spliceFirst w l) as [[a rest]|]; reflexivity.
Qed.

(** X7. [moveNextRoundBetsToCurrent] empties the queue and leaves the
    second track alone; a wallet that already has a live bet keeps it,
    and a wallet without one gets an open bet with the stake of the
    first bet it had queued, later queued bets of the same wallet being
    dropped. *)
Theorem moveNextRoundBetsToCurrent_first_bet_wins (s : GameSession.t) (w : string) :
  let s' := GameSession.moveNextRoundBetsToCurrent s in
  GameSession.nextRoundBets s' = []
  /\ GameSession.secondBets s' = GameSession.secondBets s
  /\ GameSession.bets s' !! w
     = match GameSession.bets s !! w with
       | Some b => Some b
       | None => match firstQueued w (GameSession.nextRoundBets s) with
                 | Some a => Some (GameSession.mkBet w a None)
                 | None => None
                 end
       end.
Proof.
  simpl. unfold GameSession.moveNextRoundBetsToCurrent. simpl.
  split; [reflexivity|]. split; [|apply placeAll_bets].
  generalize (GameSession.nextRoundBets s) at 1. intros l. revert s.
  induction l as [|b l IH]; intros s; simpl; [reflexivity|].
  rewrite IH. apply (placeBet_frame (GameSession.nrWalletId b) (GameSession.nrAmount b) s).
Qed.

(** ** Crash points, exposure and policy of the risk instance *)

Lemma Math_max_mono (a b c : Q) : b <= c -> Num.Math_max a b <= Num.Math_max a c.
Proof.
  intros H. unfold Num.Math_max.
  destruct (Qle_bool a b) eqn:E1; destruct (Qle_bool a c) eqn:E2.
  - exact H.
  - apply Qle_bool_iff in E1. exfalso.
    assert (Hac : a <= c) by (eapply Qle_trans; eassumption).
    apply Qle_bool_iff in Hac. congruence.
  - now apply Qle_bool_iff.
  - apply Qle_refl.
Qed.

(** X8. A generated crash point is never below 1; while the maximum is
    enforced it is never above the larger of 1 and the maximum; and
    while the emergency flag is up it is exactly 1.  A verified point is
    never below 1 either. *)
Theorem crash_point_bounds (g : CrashGame.t) (houseEdge : Q) (jitter : Z)
    (gameHash clientSeed salt : string) :
  let c := CrashGame.calculateCrashPoint g houseEdge jitter gameHash clientSeed salt in
  1 <= c
  /\ (CrashGame.enforceMaxCrashpoint g = true ->
      c <= Num.Math_max 1 (CrashGame.maxAllowedCrashpoint g))
  /\ (CrashGame.isEmergencyCrash g = true -> c = 1)
  /\ 1 <= CrashGame.verifyGame jitter gameHash clientSeed salt houseEdge.
Proof.
  simpl. unfold CrashGame.calculateCrashPoint, CrashGame.crashPointOfFraction,
    CrashGame.verifyGame, CrashGame.verifiedPointOfFraction.
  repeat split.
  - destruct (CrashGame.isEmergencyCrash g); [apply Qle_refl|].
    destruct (CrashGame.generationTable _); [apply Math_max_lower | apply Qle_refl].
  - intros Hen. rewrite Hen.
    destruct (CrashGame.isEmergencyCrash g); [apply Math_max_lower|].
    destruct (CrashGame.generationTable _) as [c0|]; [|apply Math_max_lower].
    apply Math_max_mono. cbv zeta. simpl andb.
    destruct (Num.Qltb 1 c0);
      match goal with
      | |- context [Num.Qltb ?a ?b] => destruct (Num.Qltb a b) eqn:E
      end; try apply Qle_refl; now apply Qltb_ge.
  - intros He. now rewrite He.
  - destruct (CrashGame.verificationTable _); [apply Math_max_lower | apply Qle_refl].
Qed.

Lemma updateCurrentWinnings_frame (a m : Q) (sim : bool) (g : CrashGame.t) :
  let g' := CrashGame.updateCurrentWinnings a m sim g in
  CrashGame.emergencyThreshold g' = CrashGame.emergencyThreshold g
  /\ (CrashGame.isEmergencyCrash g = true -> CrashGame.isEmergencyCrash g' = true)
  /\ (CrashGame.potentialWinnings g = CrashGame.currentGameWinnings g ->
      CrashGame.potentialWinnings g' = CrashGame.currentGameWinnings g')
  /\ CrashGame.currentGameWinnings g'
     == CrashGame.currentGameWinnings g + (if sim then 0 else a * m - a)
  /\ (sim = false -> CrashGame.isEmergencyCrash g' = false ->
      CrashGame.currentGameWinnings g' <= CrashGame.emergencyThreshold g).
Proof.
  simpl. unfold CrashGame.updateCurrentWinnings. destruct sim; simpl.
  - repeat split; auto; try lra; try (intros; discriminate).
  - repeat split; auto; try lra.
    + intros ->. now destruct (_ || _).
    + intros ->. reflexivity.
    + intros _.
      destruct (Num.Qltb (CrashGame.emergencyThreshold g)
                  (CrashGame.currentGameWinnings g + (a * m - a))) eqn:E;
        simpl; [discriminate|].
      intros _. now apply Qltb_ge.
Qed.

(** X9. From [resetGameWinnings], through any sequence of
    [updateCurrentWinnings], the realized and the potential accumulator
    hold the same value, the sum of the net winnings of the calls that
    are not simulated; a simulated call changes nothing; the emergency
    flag, once up, stays up; and if it is down after a call that is not
    simulated, the realized winnings are within the threshold. *)
Theorem exposure_accumulators (g : CrashGame.t) (l : list (Q * Q * bool)) :
  let g' := recordAll l (CrashGame.resetGameWinnings g) in
  CrashGame.potentialWinnings g' = CrashGame.currentGameWinnings g'
  /\ CrashGame.currentGameWinnings g' == realNetWinnings l
  /\ CrashGame.emergencyThreshold g' = CrashGame.emergencyThreshold g
  /\ (forall a m h, CrashGame.updateCurrentWinnings a m true h = h)
  /\ (forall a m sim,
        CrashGame.isEmergencyCrash g' = true ->
        CrashGame.isEmergencyCrash (CrashGame.updateCurrentWinnings a m sim g') = true)
  /\ (forall a m,
        let g'' := CrashGame.updateCurrentWinnings a m false g' in
        CrashGame.isEmergencyCrash g'' = false ->
        CrashGame.currentGameWinnings g'' <= CrashGame.emergencyThreshold g).
Proof.
  simpl.
  assert (H : forall h,
             CrashGame.potentialWinnings h = CrashGame.currentGameWinnings h ->
             CrashGame.potentialWinnings (recordAll l h)
             = CrashGame.currentGameWinnings (recordAll l h)
             /\ CrashGame.currentGameWinnings (recordAll l h)
                == CrashGame.currentGameWinnings h + realNetWinnings l
             /\ CrashGame.emergencyThreshold (recordAll l h)
                = CrashGame.emergencyThreshold h).
  { unfold recordAll. induction l as [|[[a m] sim] l IH]; intros h Hh; simpl.
    - repeat split; auto. lra.
    - destruct (updateCurrentWinnings_frame a m sim h) as (Ht & _ & Hp & Hc & _).
      simpl in *. destruct (IH _ (Hp Hh)) as (IH1 & IH2 & IH3).
      split; [exact IH1|]. split; [|congruence].
      rewrite IH2, Hc. destruct sim; lra. }
  destruct (H (CrashGame.resetGameWinnings g) eq_refl) as (H1 & H2 & H3).
  split; [exact H1|]. split; [rewrite H2; simpl; lra|]. split; [exact H3|].
  split; [reflexivity|]. split.
  - intros a m sim. apply updateCurrentWinnings_frame.
  - intros a m. cbv zeta. intros Hflag.
    destruct (updateCurrentWinnings_frame a m false
                (recordAll l (CrashGame.resetGameWinnings g))) as (_ & _ & _ & _ & Hle).
    specialize (Hle eq_refl Hflag). rewrite H3 in Hle. exact Hle.
Qed.

Lemma realBets_idempotent (l : list CrashGame.ActiveBet) :
  CrashGame.realBets (CrashGame.realBets l) = CrashGame.realBets l.
Proof.
  unfold CrashGame.realBets. induction l as [|b l IH]; simpl; [reflexivity|].
  destruct (negb (Num.isSyntheticWallet (CrashGame.abWalletId b))) eqn:E; simpl.
  - now rewrite E, IH.
  - exact IH.
Qed.

Lemma realBets_synthetic (l : list CrashGame.ActiveBet) :
  Forall (fun b => Num.isSyntheticWallet (CrashGame.abWalletId b) = true) l ->
  CrashGame.realBets l = [].
Proof.
  unfold CrashGame.realBets. induction 1 as [|b l Hb _ IH]; simpl; [reflexivity|].
  now rewrite Hb.
Qed.

Lemma realBets_app (l l' : list CrashGame.ActiveBet) :
  CrashGame.realBets (l ++ l') = CrashGame.realBets l ++ CrashGame.realBets l'.
Proof. unfold CrashGame.realBets. apply List.filter_app. Qed.

(** The rounding of doubles: 0.1 + 0.2 is 0.30000000000000004, and
    3 / (3 * 0.4) is 2.4999999999999996. *)
Example double_sums_and_quotients :
  Num.double (Num.double (1 # 10) + Num.double (2 # 10))
  = 1351079888211149 # 4503599627370496
  /\ Num.double (3 / Num.double (3 * Num.double (4 # 10)))
     = 5629499534213119 # 2251799813685248.
Proof. vm_compute. split; reflexivity. Qed.

(** The candidate of the policy depends on the stakes through that
    rounding: with a house edge of 40 percent and a floor of 2 (no skip
    and no high-value draw), a stake of 1000 gives 2.5 and a stake of 3
    gives 2.49. *)
Example calculateBetBasedCrashPoint_rounds :
  CrashGame.calculateBetBasedCrashPoint policyGame someDraws openStake = Some (5 # 2)
  /\ CrashGame.calculateBetBasedCrashPoint policyGame someDraws
       [CrashGame.mkActiveBet 3 "254700000001" None]
     = Some (Num.double (249 # 100)).
Proof. vm_compute. split; reflexivity. Qed.

(** X11. Bets of synthetic wallets, those whose identifier starts with
    [SW_] or [SIM_], never count: adding any of them to the bets of a
    round changes neither the candidate of the policy nor what
    [trackRoundResults] does to the offset, and a round in which only
    they bet leaves the offset and the settings as they were. *)
Theorem synthetic_bets_do_not_count (g : CrashGame.t) (d : CrashGame.Draws)
    (upsertOk : bool) (finalCrashPoint : Q) (settings : gmap string Q)
    (real synthetic : list CrashGame.ActiveBet)
    (Hsynthetic : Forall (fun b => Num.isSyntheticWallet (CrashGame.abWalletId b) = true)
                    synthetic) :
  CrashGame.calculateBetBasedCrashPoint g d (real ++ synthetic)
  = CrashGame.calculateBetBasedCrashPoint g d real
  /\ CrashGame.calculateBetBasedCrashPoint g d (synthetic ++ real)
     = CrashGame.calculateBetBasedCrashPoint g d real
  /\ CrashGame.trackRoundResults upsertOk (real ++ synthetic) finalCrashPoint (g, settings)
     = CrashGame.trackRoundResults upsertOk real finalCrashPoint (g, settings)
  /\ CrashGame.trackRoundResults upsertOk synthetic finalCrashPoint (g, settings)
     = (g, settings).
Proof.
  pose proof (realBets_synthetic synthetic Hsynthetic) as Hs.
  unfold CrashGame.calculateBetBasedCrashPoint, CrashGame.trackRoundResults.
  rewrite !realBets_app, Hs, app_nil_r. simpl. repeat split.
Qed.

Lemma readNumber_other (key key' : string) (default : Q) (rows : gmap string Q) :
  key <> key' ->
  snd (CrashGame.readNumber key default rows) !! key' = rows !! key'.
Proof.
  intros H. unfold CrashGame.readNumber.
  destruct (rows !! key); [reflexivity|]. simpl. now apply lookup_insert_ne.
Qed.

Lemma readNumber_present (key : string) (default v : Q) (rows : gmap string Q) :
  rows !! key = Some v -> CrashGame.readNumber key default rows = (v, rows).
Proof. intros H. unfold CrashGame.readNumber. now rewrite H. Qed.

(** The offset that a load of the settings assigns is the one the table
    holds. *)
Lemma getBetBasedCrashPointSettings_offset (flag : option bool) (g : CrashGame.t)
    (rows : gmap string Q) (o : Q) :
  rows !! "betBasedOffsetAmount" = Some o ->
  exists flag' g' rows',
    CrashGame.getBetBasedCrashPointSettings true flag (g, rows)
    = CrashGame.Fulfilled (flag', (g', rows'))
    /\ CrashGame.betBasedOffsetAmount g' = o
    /\ CrashGame.currentCrashPoint g' = CrashGame.currentCrashPoint g.
Proof.
  intros H. unfold CrashGame.getBetBasedCrashPointSettings. cbn [fst snd].
  do 3 eexists. split; [reflexivity|]. split; [|reflexivity]. cbn.
  erewrite readNumber_present; [reflexivity|].
  rewrite !readNumber_other by discriminate. exact H.
Qed.

(** X12. After a round with real bets that leaves a positive offset, that
    is, when the offset plus the stakes exceeds the payouts, and whose
    upsert of the offset succeeds, the table holds that offset, and
    [applyBetBasedCrashPointIfEnabled], which loads the settings first,
    overrides nothing: it answers false, or rejects when the settings
    cannot be read, and leaves the crash point of the queue and the
    offset in place, whatever bets are open and whatever the flag row
    says. *)
Theorem policy_bypassed_while_offset_positive (dbOk : bool) (flag : option bool)
    (roundBets openBets : list CrashGame.ActiveBet) (finalCrashPoint : Q)
    (g : CrashGame.t) (settings : gmap string Q) (d : CrashGame.Draws)
    (Hreal : CrashGame.realBets roundBets <> [])
    (Hprofit : 0 < CrashGame.betBasedOffsetAmount g
                   + (CrashGame.sumAmounts (CrashGame.realBets roundBets)
                      - CrashGame.totalPayouts finalCrashPoint
                          (CrashGame.realBets roundBets))) :
  let st' := CrashGame.trackRoundResults true roundBets finalCrashPoint
               (g, settings) in
  let offset' := CrashGame.betBasedOffsetAmount (fst st') in
  0 < offset'
  /\ snd st' !! "betBasedOffsetAmount" = Some offset'
  /\ exists left,
       CrashGame.applyBetBasedCrashPointIfEnabled dbOk d openBets flag st'
       = Some (if dbOk then CrashGame.Fulfilled false else CrashGame.Failed, left)
       /\ CrashGame.currentCrashPoint (fst (snd left)) = CrashGame.currentCrashPoint g
       /\ CrashGame.betBasedOffsetAmount (fst (snd left)) = offset'.
Proof.
  cbv zeta. unfold CrashGame.trackRoundResults.
  destruct (CrashGame.realBets roundBets) as [|b l] eqn:E; [congruence|].
  unfold CrashGame.updateBetBasedOffsetAmount. cbn [fst snd].
  set (o := Num.Math_max 0 _).
  assert (Hpos : 0 < o).
  { eapply Qlt_le_trans; [exact Hprofit | apply Math_max_upper]. }
  assert (Hrow : (<["betBasedOffsetAmount" := o]> settings : gmap string Q)
                 !! "betBasedOffsetAmount" = Some o) by apply lookup_insert_eq.
  split; [exact Hpos|]. split; [exact Hrow|].
  unfold CrashGame.applyBetBasedCrashPointIfEnabled.
  destruct dbOk.
  - destruct (getBetBasedCrashPointSettings_offset flag
                (CrashGame.with_betBasedOffsetAmount o g) _ o Hrow)
      as (flag' & g' & rows' & Hload & Hoff & Hcp).
    rewrite Hload. cbn [fst snd]. rewrite Hoff.
    apply Qltb_lt in Hpos. rewrite Hpos.
    exists (flag', (g', rows')).
    split; [destruct (negb (CrashGame.isBetBasedCrashPoint g')); reflexivity|].
    split; [exact Hcp | exact Hoff].
  - exists (flag, (CrashGame.with_betBasedOffsetAmount o g,
                   <["betBasedOffsetAmount" := o]> settings)).
    repeat split.
Qed.

Lemma readNumber_spec (key : string) (d : Q) (rows : gmap string Q) :
  CrashGame.readNumber key d rows = (rowOr d key rows, rows ∪ {[key := d]}).
Proof.
  unfold CrashGame.readNumber, rowOr.
  destruct (rows !! key) as [v|] eqn:E; simpl.
  - f_equal. apply map_eq. intros j. rewrite lookup_union.
    destruct (decide (j = key)) as [->|Hj].
    + rewrite E, lookup_singleton_eq. reflexivity.
    + rewrite lookup_singleton_ne by congruence. now destruct (rows !! j).
  - f_equal. now apply insert_union_singleton_r.
Qed.

Lemma rowOr_union_other (d d' : Q) (key key' : string) (rows : gmap string Q) :
  key <> key' -> rowOr d key (rows ∪ {[key' := d']}) = rowOr d key rows.
Proof.
  intros H. unfold rowOr. rewrite lookup_union, lookup_singleton_ne by congruence.
  now destruct (rows !! key).
Qed.

Lemma rowOr_filled (d : Q) (key : string) (rows : gmap string Q) :
  (exists d', policyDefaults !! key = Some d' /\ d' = d) ->
  rowOr d key (rows ∪ policyDefaults) = rowOr d key rows.
Proof.
  intros (d' & Hd & ->). unfold rowOr. rewrite lookup_union, Hd.
  now destruct (rows !! key).
Qed.

(** X28. When the database answers, [getBetBasedCrashPointSettings]
    assigns every policy field of the instance from its row, the default
    standing for a missing row (the policy off, 40, 2, 80, 10 and 0),
    creates the missing numeric rows with those defaults and leaves
    every other row and every other field as it was; a second load
    changes nothing.  [getBetBasedSettings] returns the values just
    loaded.  When the database does not answer, the load rejects. *)
Theorem getBetBasedCrashPointSettings_loads (flag : option bool) (g : CrashGame.t)
    (rows : gmap string Q) :
  let enabled := match flag with Some b => b | None => false end in
  let g' :=
    CrashGame.mkCrashGame (CrashGame.currentCrashPoint g)
      (CrashGame.emergencyThreshold g) (CrashGame.currentGameWinnings g)
      (CrashGame.isEmergencyCrash g) (CrashGame.maxAllowedCrashpoint g)
      (CrashGame.enforceMaxCrashpoint g) (CrashGame.potentialWinnings g)
      enabled
      (rowOr 40 "betBasedHouseEdgePercentage" rows)
      (rowOr 2 "minCrashPoint" rows)
      (rowOr 80 "highCrashPointFrequency" rows)
      (rowOr 10 "skipCrashPointManagement" rows)
      (rowOr 0 "betBasedOffsetAmount" rows) in
  let loaded := (Some enabled, (g', rows ∪ policyDefaults)) in
  CrashGame.getBetBasedCrashPointSettings true flag (g, rows)
  = CrashGame.Fulfilled loaded
  /\ CrashGame.getBetBasedCrashPointSettings true (Some enabled)
       (g', rows ∪ policyDefaults)
     = CrashGame.Fulfilled loaded
  /\ CrashGame.getBetBasedSettings true flag (g, rows)
     = (CrashGame.mkBetBasedSettings enabled
          (rowOr 40 "betBasedHouseEdgePercentage" rows)
          (rowOr 2 "minCrashPoint" rows)
          (rowOr 80 "highCrashPointFrequency" rows)
          (rowOr 10 "skipCrashPointManagement" rows)
          (rowOr 0 "betBasedOffsetAmount" rows),
        loaded)
  /\ CrashGame.getBetBasedCrashPointSettings false flag (g, rows) = CrashGame.Failed.
Proof.
  cbv zeta.
  assert (Hload : forall (fl : option bool) (h : CrashGame.t) (m : gmap string Q),
             CrashGame.getBetBasedCrashPointSettings true fl (h, m)
             = CrashGame.Fulfilled
                 (Some (match fl with Some b => b | None => false end),
                  (CrashGame.mkCrashGame (CrashGame.currentCrashPoint h)
                     (CrashGame.emergencyThreshold h) (CrashGame.currentGameWinnings h)
                     (CrashGame.isEmergencyCrash h) (CrashGame.maxAllowedCrashpoint h)
                     (CrashGame.enforceMaxCrashpoint h) (CrashGame.potentialWinnings h)
                     (match fl with Some b => b | None => false end)
                     (rowOr 40 "betBasedHouseEdgePercentage" m)
                     (rowOr 2 "minCrashPoint" m)
                     (rowOr 80 "highCrashPointFrequency" m)
                     (rowOr 10 "skipCrashPointManagement" m)
                     (rowOr 0 "betBasedOffsetAmount" m),
                   m ∪ policyDefaults))).
  { intros fl h m. unfold CrashGame.getBetBasedCrashPointSettings. cbn [fst snd].
    rewrite !readNumber_spec. cbn [fst snd].
    rewrite !rowOr_union_other by discriminate.
    unfold policyDefaults. rewrite !(assoc_L (∪)). reflexivity. }
  split; [apply Hload|]. split; [|split; [|reflexivity]].
  - rewrite Hload. cbn [CrashGame.currentCrashPoint CrashGame.emergencyThreshold
                          CrashGame.currentGameWinnings CrashGame.isEmergencyCrash
                          CrashGame.maxAllowedCrashpoint CrashGame.enforceMaxCrashpoint
                          CrashGame.potentialWinnings].
    rewrite !rowOr_filled by (eexists; split; [reflexivity | reflexivity]).
    rewrite <- (assoc_L (∪)), (idemp_L (∪)). reflexivity.
  - unfold CrashGame.getBetBasedSettings. rewrite Hload. reflexivity.
Qed.

(** X13. The risk level that [getCurrentRiskMetrics] reports is HIGH
    exactly when the larger of the two accumulators has reached 80
    percent of the emergency threshold, MEDIUM exactly when it has
    reached 50 but not 80 percent, and LOW when it is below both marks
    (below 50 percent, for a threshold that is not negative); the
    reported distance is the threshold less that larger value. *)
Theorem risk_level_thresholds (g : CrashGame.t) :
  let exposure := Num.Math_max (CrashGame.currentGameWinnings g)
                    (CrashGame.potentialWinnings g) in
  let metrics := CrashGame.getCurrentRiskMetrics g in
  CrashGame.distanceToThreshold metrics = CrashGame.emergencyThreshold g - exposure
  /\ (CrashGame.riskLevel metrics = CrashGame.HIGH
      <-> (8 # 10) * CrashGame.emergencyThreshold g <= exposure)
  /\ (CrashGame.riskLevel metrics = CrashGame.MEDIUM
      <-> (5 # 10) * CrashGame.emergencyThreshold g <= exposure
          /\ exposure < (8 # 10) * CrashGame.emergencyThreshold g)
  /\ (CrashGame.riskLevel metrics = CrashGame.LOW
      <-> exposure < (5 # 10) * CrashGame.emergencyThreshold g
          /\ exposure < (8 # 10) * CrashGame.emergencyThreshold g).
Proof.
  simpl. unfold CrashGame.getCurrentRiskMetrics. simpl.
  set (e := Num.Math_max _ _). set (t := CrashGame.emergencyThreshold g).
  split; [reflexivity|].
  destruct (Qle_bool (t - e) (t * (2 # 10))) eqn:E1.
  - apply Qle_bool_iff in E1.
    (repeat split; intros;
       repeat match goal with H : _ /\ _ |- _ => destruct H end;
       try reflexivity; try congruence; try lra).
  - assert (H1 : ~ t - e <= t * (2 # 10))
      by (intros H; apply Qle_bool_iff in H; congruence).
    destruct (Qle_bool (t - e) (t * (5 # 10))) eqn:E2.
    + apply Qle_bool_iff in E2.
      (repeat split; intros;
       repeat match goal with H : _ /\ _ |- _ => destruct H end;
       try reflexivity; try congruence; try lra).
    + assert (H2 : ~ t - e <= t * (5 # 10))
        by (intros H; apply Qle_bool_iff in H; congruence).
      (repeat split; intros;
       repeat match goal with H : _ /\ _ |- _ => destruct H end;
       try reflexivity; try congruence; try lra).
Qed.

(** X14. The answer of [shouldEmergencyCrash] is the emergency flag it
    leaves: it answers true whenever the flag was already up, and when it
    answers false nothing has changed; the accumulators and the
    threshold are never touched. *)
Theorem shouldEmergencyCrash_latches (m : Q) (activeBets : list CrashGame.ActiveBet)
    (g : CrashGame.t) :
  let r := CrashGame.shouldEmergencyCrash m activeBets g in
  fst r = CrashGame.isEmergencyCrash (snd r)
  /\ (CrashGame.isEmergencyCrash g = true -> fst r = true)
  /\ (fst r = false -> snd r = g)
  /\ CrashGame.currentGameWinnings (snd r) = CrashGame.currentGameWinnings g
  /\ CrashGame.potentialWinnings (snd r) = CrashGame.potentialWinnings g
  /\ CrashGame.emergencyThreshold (snd r) = CrashGame.emergencyThreshold g.
Proof.
  simpl. unfold CrashGame.shouldEmergencyCrash.
  destruct (CrashGame.enforceMaxCrashpoint g
            && Qle_bool (CrashGame.maxAllowedCrashpoint g) m); simpl;
    [repeat split; intros; congruence|].
  match goal with
  | |- context [Num.Qltb ?a ?b] => destruct (Num.Qltb a b)
  end; simpl; [repeat split; intros; congruence|].
  destruct (CrashGame.isEmergencyCrash g) eqn:E; simpl; rewrite ?E;
    repeat split; intros; congruence.
Qed.

(** ** The queue of future crash points *)

Lemma calculateCrashPoint_at_least_1 (g : CrashGame.t) (houseEdge : Q) (jitter : Z)
    (gameHash clientSeed salt : string) :
  1 <= CrashGame.calculateCrashPoint g houseEdge jitter gameHash clientSeed salt.
Proof.
  unfold CrashGame.calculateCrashPoint, CrashGame.crashPointOfFraction.
  destruct (CrashGame.isEmergencyCrash g); [apply Qle_refl|].
  destruct (CrashGame.generationTable _); [apply Math_max_lower | apply Qle_refl].
Qed.

Lemma draw_frame (w w' : World) (b : bool) :
  draw w = (b, w') ->
  instance w' = instance w
  /\ futureCrashPoint w' = futureCrashPoint w
  /\ gameTable w' = gameTable w
  /\ gameCounter w' = gameCounter w
  /\ now w' = now w
  /\ selfInvocations w' = selfInvocations w.
Proof.
  unfold draw. destruct (outcomes w); intros H; injection H as <- <-;
    repeat split.
Qed.

Lemma freshPoint_weaken (lo lo' hi hi' : Z) (rows rows' : list GameRow)
    (p : FuturePoint) :
  (lo' <= lo)%Z -> (hi <= hi')%Z -> (forall r, In r rows -> In r rows') ->
  freshPoint lo hi rows p -> freshPoint lo' hi' rows' p.
Proof.
  intros Hlo Hhi Hin (H1 & H2 & H3 & H4 & row & H5 & H6 & H7).
  repeat split; auto; try lia. exists row. auto.
Qed.

Lemma tryGenerate_batch (env : Env) (h h' : string) (w w' : World) (ok : bool) :
  tryGenerate env h w = (ok, h', w') ->
  (ok = true -> batchAdded 1 w w' /\ (lastRoundId w' = lastRoundId w + 1)%Z)
  /\ (ok = false -> batchAdded 0 w w').
Proof.
  unfold tryGenerate.
  destruct (draw w) as [b1 w1] eqn:D1. apply draw_frame in D1.
  destruct D1 as (I1 & Q1 & G1 & C1 & _ & _).
  destruct b1.
  2:{ intros H. injection H as <- <- <-. split; [discriminate|]. intros _.
      exists [], []. rewrite !app_nil_r. unfold lastRoundId. rewrite C1.
      repeat split; auto; try constructor; lia. }
  match goal with
  | |- context [draw ?x] => destruct (draw x) as [b2 w3] eqn:D2
  end.
  apply draw_frame in D2. simpl in D2.
  destruct D2 as (I2 & Q2 & G2 & C2 & _ & _).
  assert (Hc : (lastRoundId w3 = lastRoundId w + 1)%Z).
  { unfold lastRoundId. rewrite C2, C1. destruct (gameCounter w); lia. }
  destruct b2.
  2:{ intros H. injection H as <- <- <-. split; [discriminate|]. intros _.
      exists [], []. rewrite !app_nil_r.
      repeat split; auto; try constructor; try congruence; lia. }
  match goal with
  | |- context [draw ?x] => destruct (draw x) as [b3 w5] eqn:D3
  end.
  apply draw_frame in D3. simpl in D3.
  destruct D3 as (I3 & Q3 & G3 & C3 & _ & _).
  assert (Hc' : (lastRoundId w5 = lastRoundId w + 1)%Z).
  { rewrite <- Hc. unfold lastRoundId. now rewrite C3, C2. }
  destruct b3.
  - intros H. injection H as <- <- <-. split; [|discriminate]. intros _.
    split; [|exact Hc'].
    eexists [_], [_]. simpl. rewrite Q3, Q2, Q1, G3, G2, G1.
    split; [reflexivity|]. split; [reflexivity|]. split; [reflexivity|].
    replace (lastRoundId (with_queue _ w5)) with (lastRoundId w5) by reflexivity.
    split; [|split; [|split]].
    + constructor; [|constructor]. unfold freshPoint. simpl.
      split; [reflexivity|]. split; [reflexivity|].
      split; [apply calculateCrashPoint_at_least_1|].
      split.
      * rewrite Hc'. unfold lastRoundId. rewrite C1. destruct (gameCounter w); lia.
      * eexists. split; [left; reflexivity|]. split; reflexivity.
    + repeat constructor.
    + lia.
    + congruence.
  - intros H. injection H as <- <- <-. split; [discriminate|]. intros _.
    eexists [], [_]. rewrite app_nil_r. rewrite Q3, Q2, Q1, G3. simpl.
    rewrite G2, G1.
    repeat split; auto; try constructor; try congruence; lia.
Qed.

Lemma batchAdded_trans (n m : nat) (w1 w2 w3 : World) :
  batchAdded n w1 w2 -> batchAdded m w2 w3 -> batchAdded (n + m) w1 w3.
Proof.
  intros (a1 & r1 & Q1 & G1 & L1 & F1 & S1 & C1 & I1)
         (a2 & r2 & Q2 & G2 & L2 & F2 & S2 & C2 & I2).
  exists (a1 ++ a2), (r1 ++ r2).
  rewrite Q2, Q1, G2, G1, !app_assoc.
  split; [reflexivity|]. split; [reflexivity|].
  split; [rewrite length_app; lia|].
  split; [|split; [|split; [lia | congruence]]].
  - apply List.Forall_app. split.
    + eapply List.Forall_impl; [|exact F1]. intros p. apply freshPoint_weaken; try lia.
      intros r Hr. apply in_or_app. now left.
    + eapply List.Forall_impl; [|exact F2]. intros p. apply freshPoint_weaken; try lia.
      intros r Hr. apply in_or_app. now right.
  - rewrite map_app. clear L1 Q1 G1. induction a1 as [|p a1 IH]; simpl; [exact S2|].
    inversion S1 as [|x l Hs Hall]; subst. inversion F1 as [|x l Hp Hf]; subst.
    constructor; [apply IH; assumption|].
    rewrite List.Forall_app. split; [exact Hall|].
    rewrite List.Forall_map. eapply List.Forall_impl; [|exact F2].
    intros q (_ & _ & _ & Hq & _). destruct Hp as (_ & _ & _ & Hp & _). lia.
Qed.

Lemma sleep_batch (n : nat) (ms : Z) (w w' : World) :
  batchAdded n w w' -> batchAdded n w (sleep ms w').
Proof. intros H. exact H. Qed.

Lemma generateLoop_batch (env : Env) (fuel : nat) :
  forall (remaining : nat) (h : string) (w w' : World),
    generateLoop env fuel remaining h w = Some w' ->
    batchAdded remaining w w'.
Proof.
  assert (Hrefl : forall w, batchAdded 0 w w).
  { intros w. exists [], []. rewrite !app_nil_r.
    repeat split; auto; try constructor; lia. }
  induction fuel as [|f IH]; intros remaining h w w' Hrun.
  - destruct remaining; [|discriminate]. injection Hrun as <-. apply Hrefl.
  - destruct remaining as [|r]; [injection Hrun as <-; apply Hrefl|].
    simpl in Hrun. destruct (tryGenerate env h w) as [[ok h1] w1] eqn:T.
    apply tryGenerate_batch in T. destruct T as [Hok Hfail]. destruct ok.
    + destruct (Hok eq_refl) as [Hb _]. apply IH in Hrun.
      change (S r) with (1 + r)%nat. eapply batchAdded_trans; [exact Hb|exact Hrun].
    + specialize (Hfail eq_refl). apply IH in Hrun.
      change (S r) with (0 + S r)%nat. eapply batchAdded_trans; [exact Hfail|exact Hrun].
Qed.

Lemma generateNextRounds_batch (env : Env) (fuel : nat) (w w' : World) (r : Res) :
  generateNextRounds env fuel w = Some (r, w') ->
  (r = Ok -> batchAdded CrashGame.POINTS_TO_GENERATE w w')
  /\ (r = Thrown -> batchAdded 0 w w' /\ gameTable w' = gameTable w
                    /\ gameCounter w' = gameCounter w).
Proof.
  unfold generateNextRounds. destruct (draw w) as [b w0] eqn:D.
  apply draw_frame in D. destruct D as (I0 & Q0 & G0 & C0 & _ & _).
  assert (Hw0 : batchAdded 0 w w0).
  { exists [], []. rewrite !app_nil_r. unfold lastRoundId. rewrite C0.
    repeat split; auto; try constructor; lia. }
  destruct b.
  - destruct (generateLoop _ _ _ _ _) as [w1|] eqn:L; [|discriminate].
    intros H. injection H as <- <-. split; [|discriminate]. intros _.
    apply generateLoop_batch in L.
    change CrashGame.POINTS_TO_GENERATE with (0 + CrashGame.POINTS_TO_GENERATE)%nat.
    eapply batchAdded_trans; eassumption.
  - intros H. injection H as <- <-. split; [discriminate|]. intros _. auto.
Qed.

(** X15. Given fuel for its 25 rounds and for the failures still
    scripted, [generateNextRounds] returns.  When it completes, it has
    appended exactly 25 points to the queue, none of them consumed, each
    with a crash point of at least 1, each with a row of the same round
    and crash point appended to the game table, and with round
    identifiers that increase strictly and lie above the counter it
    found and up to the counter it leaves; the points already queued
    are untouched.  When it throws, the queue, the game table and the
    counter are as before. *)
Theorem generateNextRounds_appends_batch (env : Env) (fuel : nat) (w : World)
    (Hfuel : (25 + pending w <= fuel)%nat) :
  exists r w',
    generateNextRounds env fuel w = Some (r, w')
    /\ (r = Ok -> batchAdded 25 w w')
    /\ (r = Thrown ->
        futureCrashPoint w' = futureCrashPoint w
        /\ gameTable w' = gameTable w
        /\ gameCounter w' = gameCounter w).
Proof.
  destruct (generateNextRounds_total env fuel w Hfuel) as (r & w' & Hrun & _).
  exists r, w'. split; [exact Hrun|].
  apply generateNextRounds_batch in Hrun. destruct Hrun as [Hok Hthrown].
  split; [exact Hok|]. intros Hr. destruct (Hthrown Hr) as ((a & rows & Hq & _ & Hl & _) & Hg & Hc).
  destruct a; [|discriminate]. rewrite app_nil_r in Hq. auto.
Qed.

Lemma samePoint_refl (q : list FuturePoint) : Forall2 samePoint q q.
Proof. induction q; constructor; auto. repeat split; auto. Qed.

Lemma queueGrows_refl (q : list FuturePoint) : queueGrows q q.
Proof. exists q, []. rewrite app_nil_r. split; [reflexivity | apply samePoint_refl]. Qed.

Lemma samePoint_trans (q1 q2 q3 : list FuturePoint) :
  Forall2 samePoint q1 q2 -> Forall2 samePoint q2 q3 -> Forall2 samePoint q1 q3.
Proof.
  intros H. revert q3. induction H as [|p p' l l' Hp _ IH]; intros q3 H3.
  - inversion H3. constructor.
  - inversion H3 as [|x y l0 l1 Hy Hl]; subst. constructor; [|now apply IH].
    destruct Hp as (A1 & A2 & A3), Hy as (B1 & B2 & B3).
    repeat split; try congruence. auto.
Qed.

Lemma queueGrows_trans (q1 q2 q3 : list FuturePoint) :
  queueGrows q1 q2 -> queueGrows q2 q3 -> queueGrows q1 q3.
Proof.
  intros (k1 & a1 & E1 & F1) (k2 & a2 & E2 & F2). subst q2 q3.
  apply List.Forall2_app_inv_l in F2. destruct F2 as (k & a & Fk & Fa & ->).
  exists k, (a ++ a2). rewrite app_assoc. split; [reflexivity|].
  eapply samePoint_trans; eassumption.
Qed.

Lemma markUsed_ids (rid at_ : Z) (q : list FuturePoint) :
  map fpRoundId (markUsed rid at_ q) = map fpRoundId q.
Proof.
  unfold markUsed. rewrite map_map. apply map_ext. intros p.
  now destruct (fpRoundId p =? rid)%Z.
Qed.

Lemma markUsed_samePoint (rid at_ : Z) (q : list FuturePoint) :
  Forall2 samePoint q (markUsed rid at_ q).
Proof.
  unfold markUsed. induction q as [|p q IH]; simpl; constructor; auto.
  destruct (fpRoundId p =? rid)%Z; repeat split; auto.
Qed.

Lemma markUsed_marks (at_ : Z) (q : list FuturePoint) (p : FuturePoint) :
  In p q ->
  In (mkFuturePoint (fpRoundId p) (fpCrashPoint p) true (Some at_))
     (markUsed (fpRoundId p) at_ q).
Proof.
  intros H. unfold markUsed. apply in_map_iff. exists p. split; [|exact H].
  now rewrite Z.eqb_refl.
Qed.

Lemma findFirstUnused_Some (q : list FuturePoint) (p : FuturePoint) :
  findFirstUnused q = Some p ->
  In p q /\ isUsed p = false
  /\ forall p', In p' q -> isUsed p' = false -> (fpRoundId p <= fpRoundId p')%Z.
Proof.
  revert p. induction q as [|x rest IH]; simpl; [discriminate|]. intros p.
  destruct (findFirstUnused rest) as [p0|] eqn:E.
  - destruct (IH p0 eq_refl) as (Hin & Hu & Hmin).
    destruct (isUsed x) eqn:Ux.
    + intros H. injection H as <-. split; [now right|]. split; [exact Hu|].
      intros p' [<-|Hp'] Hfree; [congruence | now apply Hmin].
    + destruct (fpRoundId x <=? fpRoundId p0)%Z eqn:L; intros H; injection H as <-.
      * apply Z.leb_le in L. split; [now left|]. split; [exact Ux|].
        intros p' [<-|Hp'] Hfree; [lia|]. specialize (Hmin p' Hp' Hfree). lia.
      * apply Z.leb_gt in L. split; [now right|]. split; [exact Hu|].
        intros p' [<-|Hp'] Hfree; [lia | now apply Hmin].
  - apply findFirstUnused_None in E.
    destruct (isUsed x) eqn:Ux; [discriminate|].
    intros H. injection H as <-. split; [now left|]. split; [exact Ux|].
    intros p' [<-|Hp'] Hfree; [lia|]. exfalso.
    unfold hasUnused in E.
    assert (Hex : existsb (fun p => negb (isUsed p)) rest = true).
    { apply existsb_exists. exists p'. split; [exact Hp'|]. now rewrite Hfree. }
    congruence.
Qed.

Lemma batchAdded_grows (n : nat) (w w' : World) :
  batchAdded n w w' ->
  queueGrows (futureCrashPoint w) (futureCrashPoint w')
  /\ (queueWellFormed w -> queueWellFormed w')
  /\ (currentIsConsumed w -> currentIsConsumed w').
Proof.
  intros (added & rows & Hq & _ & _ & Hfresh & Hsorted & Hc & Hi).
  split; [|split].
  - exists (futureCrashPoint w), added. split; [exact Hq | apply samePoint_refl].
  - intros [Hnd Hle]. unfold queueWellFormed. rewrite Hq. split.
    + rewrite map_app. apply List.NoDup_app; [exact Hnd| |].
      * clear Hfresh Hq. induction added as [|p added IH]; simpl; [constructor|].
        inversion Hsorted as [|x l Hs Hall]; subst. constructor; [|now apply IH].
        intros Hin. rewrite List.Forall_forall in Hall. specialize (Hall _ Hin). lia.
      * intros rid Hin1 Hin2. apply in_map_iff in Hin1, Hin2.
        destruct Hin1 as (p1 & <- & Hp1), Hin2 as (p2 & Heq & Hp2).
        rewrite List.Forall_forall in Hle, Hfresh.
        specialize (Hle p1 Hp1). destruct (Hfresh p2 Hp2) as (_ & _ & _ & Hlt & _). lia.
    + apply List.Forall_app. split.
      * eapply List.Forall_impl; [|exact Hle]. simpl. intros p Hp. lia.
      * eapply List.Forall_impl; [|exact Hfresh]. intros p (_ & _ & _ & Hlt & _). lia.
  - intros (p & Hin & Hu & Hcp). exists p. rewrite Hq, Hi.
    split; [apply in_or_app; now left | auto].
Qed.

Lemma queueKept_trans (w1 w2 w3 : World) :
  queueKept w1 w2 -> queueKept w2 w3 -> queueKept w1 w3.
Proof.
  intros [G1 W1] [G2 W2]. split; [eapply queueGrows_trans; eassumption | auto].
Qed.

Lemma queueKept_frame (w w' : World) :
  futureCrashPoint w' = futureCrashPoint w ->
  gameCounter w' = gameCounter w ->
  queueKept w w'.
Proof.
  intros Hq Hc. split.
  - rewrite Hq. apply queueGrows_refl.
  - unfold queueWellFormed, lastRoundId. now rewrite Hq, Hc.
Qed.

Lemma queueKept_markUsed (rid at_ : Z) (w : World) :
  queueKept w (with_queue (markUsed rid at_ (futureCrashPoint w)) w).
Proof.
  split.
  - exists (markUsed rid at_ (futureCrashPoint w)), []. rewrite app_nil_r.
    split; [reflexivity | apply markUsed_samePoint].
  - intros [Hnd Hle]. unfold queueWellFormed. simpl. rewrite markUsed_ids.
    split; [exact Hnd|]. unfold markUsed. rewrite List.Forall_map.
    eapply List.Forall_impl; [|exact Hle]. intros p Hp.
    now destruct (fpRoundId p =? rid)%Z.
Qed.

Lemma advanceAttempt_keeps (env : Env) (f : nat)
    (again : World -> option (Res * World)) (w0 : World) (r : Res) (w' : World) :
  (forall w r w', again w = Some (r, w') ->
                  queueKept w w' /\ (r = Ok -> currentIsConsumed w')) ->
  advanceAttempt env f again w0 = Some (r, w') ->
  queueKept w0 w' /\ (r = Ok -> currentIsConsumed w').
Proof.
  intros Hagain. unfold advanceAttempt.
  destruct (draw w0) as [b1 w1] eqn:D1. apply draw_frame in D1.
  destruct D1 as (I1 & Q1 & _ & C1 & _ & _).
  assert (K1 : queueKept w0 w1) by now apply queueKept_frame.
  destruct b1.
  2:{ intros H. injection H as <- <-. split; [exact K1 | discriminate]. }
  destruct (findFirstUnused (futureCrashPoint w1)) as [p|] eqn:F.
  - apply findFirstUnused_Some in F. destruct F as (Hin & _ & _).
    match goal with
    | |- context [draw ?x] => destruct (draw x) as [b2 w3] eqn:D2
    end.
    apply draw_frame in D2. simpl in D2. destruct D2 as (I2 & Q2 & _ & C2 & _ & _).
    assert (K3 : queueKept w0 w3).
    { eapply queueKept_trans; [exact K1|]. now apply queueKept_frame. }
    destruct b2.
    2:{ intros H. injection H as <- <-. split; [exact K3 | discriminate]. }
    match goal with
    | |- context [draw ?x] => destruct (draw x) as [b3 w5] eqn:D3
    end.
    apply draw_frame in D3. simpl in D3. destruct D3 as (I3 & Q3 & _ & C3 & _ & _).
    assert (K5 : queueKept w0 w5).
    { eapply queueKept_trans; [exact K3|].
      eapply queueKept_trans; [apply (queueKept_markUsed (fpRoundId p) (now w3))|].
      now apply queueKept_frame. }
    assert (U5 : currentIsConsumed w5).
    { exists (mkFuturePoint (fpRoundId p) (fpCrashPoint p) true (Some (now w3))).
      rewrite Q3, I3, I2. simpl. split; [|split; reflexivity].
      rewrite Q2. apply markUsed_marks. exact Hin. }
    destruct b3.
    2:{ intros H. injection H as <- <-. split; [exact K5 | discriminate]. }
    match goal with
    | |- context [if ?c then _ else _] => destruct c
    end.
    + intros H. apply generateNextRounds_batch in H. destruct H as [Hok Hthrown].
      destruct r.
      * destruct (batchAdded_grows _ _ _ (Hok eq_refl)) as (G & W & U).
        split; [|auto]. eapply queueKept_trans; [exact K5 | split; assumption].
      * destruct (Hthrown eq_refl) as (Hb & _).
        destruct (batchAdded_grows _ _ _ Hb) as (G & W & U).
        split; [|discriminate]. eapply queueKept_trans; [exact K5 | split; assumption].
    + intros H. injection H as <- <-. split; [exact K5 | auto].
  - destruct (generateNextRounds env f w1) as [[[|] w2]|] eqn:G; [| |discriminate].
    + apply generateNextRounds_batch in G. destruct G as [Hok _].
      destruct (batchAdded_grows _ _ _ (Hok eq_refl)) as (G & W & _).
      intros H. apply Hagain in H. destruct H as [K U]. split; [|exact U].
      eapply queueKept_trans; [exact K1|].
      eapply queueKept_trans; [split; eassumption|].
      eapply queueKept_trans; [|exact K]. now apply queueKept_frame.
    + apply generateNextRounds_batch in G. destruct G as [_ Hthrown].
      destruct (Hthrown eq_refl) as (Hb & _).
      destruct (batchAdded_grows _ _ _ Hb) as (G & W & _).
      intros H. injection H as <- <-. split; [|discriminate].
      eapply queueKept_trans; [exact K1 | split; assumption].
Qed.

Lemma advanceToNextRound_keeps (env : Env) (fuel : nat) :
  forall (w : World) (r : Res) (w' : World),
    advanceToNextRound env fuel w = Some (r, w') ->
    queueKept w w' /\ (r = Ok -> currentIsConsumed w').
Proof.
  induction fuel as [|f IH]; intros w r w' Hrun; [discriminate|].
  simpl in Hrun. destruct (draw w) as [b w0] eqn:D. apply draw_frame in D.
  destruct D as (_ & Q0 & _ & C0 & _ & _).
  assert (K0 : queueKept w w0) by now apply queueKept_frame.
  destruct b.
  2:{ injection Hrun as <- <-. split; [exact K0 | discriminate]. }
  destruct (advanceAttempt env f (advanceToNextRound env f) w0)
    as [[[|] w1]|] eqn:A; [| |discriminate].
  - injection Hrun as <- <-.
    apply (advanceAttempt_keeps env f _ w0 Ok w1 (IH)) in A.
    destruct A as [K U]. split; [|exact U]. eapply queueKept_trans; eassumption.
  - apply (advanceAttempt_keeps env f _ w0 Thrown w1 (IH)) in A.
    destruct A as [K _]. apply IH in Hrun. destruct Hrun as [K' U].
    split; [|exact U].
    eapply queueKept_trans; [exact K0|]. eapply queueKept_trans; [exact K|].
    eapply queueKept_trans; [|exact K']. now apply queueKept_frame.
Qed.

(** X16. Whatever persistence steps fail, a run of [advanceToNextRound]
    with fuel for them returns, and it only consumes and appends: every
    point that was queued is still there in its place, with its round
    and its crash point, consumed if it was; queued round identifiers
    that were distinct and not above the counter are so afterwards;
    and when the run completes, the crash point it leaves in the
    instance is that of a consumed point of the queue. *)
Theorem advanceToNextRound_keeps_queue (env : Env) (w : World) (fuel : nat)
    (Hfuel : (pending w + 27 <= fuel)%nat) :
  exists r w',
    advanceToNextRound env fuel w = Some (r, w')
    /\ queueGrows (futureCrashPoint w) (futureCrashPoint w')
    /\ (queueWellFormed w -> queueWellFormed w')
    /\ (r = Ok -> currentIsConsumed w').
Proof.
  destruct (advance_settles env fuel w Hfuel) as (r & w' & Hrun & _).
  exists r, w'. split; [exact Hrun|].
  apply advanceToNextRound_keeps in Hrun. destruct Hrun as [[G W] U]. auto.
Qed.

Lemma countUnused_app (q r : list FuturePoint) :
  countUnused (q ++ r) = (countUnused q + countUnused r)%nat.
Proof. unfold countUnused. now rewrite List.filter_app, length_app. Qed.

Lemma countUnused_fresh (lo hi : Z) (rows : list GameRow) (l : list FuturePoint) :
  Forall (freshPoint lo hi rows) l -> countUnused l = length l.
Proof.
  unfold countUnused. induction 1 as [|p l Hp _ IH]; simpl; [reflexivity|].
  destruct Hp as (Hu & _). rewrite Hu. simpl. now rewrite IH.
Qed.

Lemma low_stock (n : nat) :
  Num.Qltb (inject_Z (Z.of_nat n)) (inject_Z (Z.of_nat CrashGame.POINTS_TO_GENERATE) / 2)
  = (n <=? 12)%nat.
Proof.
  unfold CrashGame.POINTS_TO_GENERATE.
  destruct (n <=? 12)%nat eqn:E.
  - apply Nat.leb_le in E. apply Qltb_lt.
    assert (H : inject_Z (Z.of_nat n) <= inject_Z 12) by (rewrite <- Zle_Qle; lia).
    eapply Qle_lt_trans; [exact H|]. reflexivity.
  - apply Nat.leb_gt in E. apply Qltb_ge.
    assert (H : inject_Z 13 <= inject_Z (Z.of_nat n)) by (rewrite <- Zle_Qle; lia).
    eapply Qle_trans; [|exact H]. discriminate.
Qed.

Lemma advance_quiet_takes (env : Env) (w : World) (fuel : nat) (p : FuturePoint) :
  outcomes w = [] ->
  findFirstUnused (futureCrashPoint w) = Some p ->
  (27 <= fuel)%nat ->
  exists w' batch,
    advanceToNextRound env fuel w = Some (Ok, w')
    /\ CrashGame.currentCrashPoint (instance w') = fpCrashPoint p
    /\ futureCrashPoint w'
       = markUsed (fpRoundId p) (now w) (futureCrashPoint w) ++ batch
    /\ length batch
       = (if (countUnused (markUsed (fpRoundId p) (now w) (futureCrashPoint w)) <=? 12)%nat
          then 25 else 0)%nat
    /\ countUnused batch = length batch
    /\ selfInvocations w' = selfInvocations w.
Proof.
  intros Hquiet Hfirst Hfuel. destruct fuel as [|f]; [lia|].
  simpl. rewrite (draw_nil w Hquiet). unfold advanceAttempt.
  rewrite (draw_nil w Hquiet), Hfirst.
  rewrite draw_nil by exact Hquiet. rewrite draw_nil by exact Hquiet.
  cbn [futureCrashPoint with_queue with_instance now].
  rewrite low_stock.
  set (marked := markUsed (fpRoundId p) (now w) (futureCrashPoint w)).
  set (w4 := with_queue marked _).
  destruct (countUnused marked <=? 12)%nat eqn:Elow.
  - destruct (generateNextRounds_total env f w4) as (r & w' & Hrun & Hs & Hp & _ & Hthrown).
    { unfold pending, w4. simpl. rewrite Hquiet. simpl. lia. }
    destruct r.
    2:{ specialize (Hthrown eq_refl). unfold pending, w4 in Hthrown. simpl in Hthrown.
        rewrite Hquiet in Hthrown. simpl in Hthrown. lia. }
    rewrite Hrun.
    apply generateNextRounds_batch in Hrun. destruct Hrun as [Hok _].
    destruct (Hok eq_refl) as (added & rows & Hq & _ & Hl & Hfresh & _ & _ & Hi).
    exists w', added. split; [reflexivity|].
    split; [rewrite Hi; reflexivity|]. split; [exact Hq|].
    split; [exact Hl|]. split; [exact (countUnused_fresh _ _ _ _ Hfresh) | exact Hs].
  - exists w4, []. split; [reflexivity|].
    unfold w4. simpl. rewrite app_nil_r. repeat split.
Qed.

(** X17. With no persistence failure ahead and a point that is not
    consumed in the queue, [advanceToNextRound] completes without
    calling itself; it takes the point with the least round identifier
    among those not consumed, leaves its crash point in the instance
    and marks it consumed; it appends a batch of 25 exactly when 12 or
    fewer points would be left, so that at least 13 points that are not
    consumed are queued afterwards. *)
Theorem advanceToNextRound_takes_earliest (env : Env) (w : World) (fuel : nat)
    (p : FuturePoint)
    (Hquiet : outcomes w = [])
    (Hfirst : findFirstUnused (futureCrashPoint w) = Some p)
    (Hfuel : (27 <= fuel)%nat) :
  let marked := markUsed (fpRoundId p) (now w) (futureCrashPoint w) in
  exists w' batch,
    advanceToNextRound env fuel w = Some (Ok, w')
    /\ In p (futureCrashPoint w)
    /\ (forall p', In p' (futureCrashPoint w) -> isUsed p' = false ->
                   (fpRoundId p <= fpRoundId p')%Z)
    /\ CrashGame.currentCrashPoint (instance w') = fpCrashPoint p
    /\ futureCrashPoint w' = marked ++ batch
    /\ length batch = (if (countUnused marked <=? 12)%nat then 25 else 0)%nat
    /\ countUnused batch = length batch
    /\ (13 <= countUnused (futureCrashPoint w'))%nat
    /\ selfInvocations w' = selfInvocations w.
Proof.
  cbv zeta.
  destruct (findFirstUnused_Some _ _ Hfirst) as (Hin & _ & Hmin).
  destruct (advance_quiet_takes env w fuel p Hquiet Hfirst Hfuel)
    as (w' & batch & Hrun & Hc & Hq & Hl & Hb & Hs).
  exists w', batch. split; [exact Hrun|]. split; [exact Hin|]. split; [exact Hmin|].
  split; [exact Hc|]. split; [exact Hq|]. split; [exact Hl|]. split; [exact Hb|].
  split; [|exact Hs].
  rewrite Hq, countUnused_app, Hb, Hl.
  destruct (countUnused _ <=? 12)%nat eqn:Elow; [lia|].
  apply Nat.leb_gt in Elow. lia.
Qed.

Lemma markUsed_other (rid at_ : Z) (q : list FuturePoint) (p : FuturePoint) :
  In p q -> fpRoundId p <> rid -> In p (markUsed rid at_ q).
Proof.
  intros Hin Hne. unfold markUsed. apply in_map_iff. exists p. split; [|exact Hin].
  apply Z.eqb_neq in Hne. now rewrite Hne.
Qed.

Lemma markUsed_unused (rid at_ : Z) (q : list FuturePoint) (p : FuturePoint) :
  In p (markUsed rid at_ q) -> isUsed p = false -> fpRoundId p <> rid.
Proof.
  unfold markUsed. intros Hin Hfree. apply in_map_iff in Hin.
  destruct Hin as (p0 & Hp & _). destruct (fpRoundId p0 =? rid)%Z eqn:E.
  - subst p. discriminate.
  - subst p. now apply Z.eqb_neq.
Qed.

(** X27. When the queue runs low and the refill fails at its first
    step, the point just taken is lost: [advanceToNextRound] has marked
    it consumed, catches the error, waits two seconds, calls itself and
    takes the next point, whose crash point is the one it leaves in the
    instance. *)
Theorem failed_refill_skips_a_point (env : Env) (w : World) (fuel : nat)
    (p next : FuturePoint)
    (Hscript : outcomes w = failedRefill)
    (Hfirst : findFirstUnused (futureCrashPoint w) = Some p)
    (Hlow : (countUnused (markUsed (fpRoundId p) (now w) (futureCrashPoint w)) <= 12)%nat)
    (Hnext : findFirstUnused (markUsed (fpRoundId p) (now w) (futureCrashPoint w))
             = Some next)
    (Hfuel : (28 <= fuel)%nat) :
  exists w',
    advanceToNextRound env fuel w = Some (Ok, w')
    /\ CrashGame.currentCrashPoint (instance w') = fpCrashPoint next
    /\ fpRoundId next <> fpRoundId p
    /\ In (mkFuturePoint (fpRoundId p) (fpCrashPoint p) true (Some (now w)))
          (futureCrashPoint w')
    /\ In (mkFuturePoint (fpRoundId next) (fpCrashPoint next) true (Some (now w + 2000)%Z))
          (futureCrashPoint w')
    /\ selfInvocations w' = S (selfInvocations w).
Proof.
  destruct fuel as [|f]; [lia|].
  destruct w as [g q tbl cnt outs nw si]. simpl in Hscript, Hfirst, Hlow, Hnext. subst outs.
  destruct (findFirstUnused_Some _ _ Hfirst) as (Hin & _ & _).
  destruct (findFirstUnused_Some _ _ Hnext) as (Hin2 & Hfree2 & _).
  pose proof (markUsed_unused _ _ _ _ Hin2 Hfree2) as Hne.
  cbn [advanceToNextRound]. unfold failedRefill.
  cbn [draw outcomes instance futureCrashPoint gameTable gameCounter now selfInvocations].
  unfold advanceAttempt.
  cbn [draw outcomes instance futureCrashPoint gameTable gameCounter now selfInvocations
       with_instance with_queue].
  rewrite Hfirst.
  cbn [draw outcomes instance futureCrashPoint gameTable gameCounter now selfInvocations
       with_instance with_queue].
  rewrite low_stock. apply Nat.leb_le in Hlow. rewrite Hlow.
  unfold generateNextRounds.
  cbn [draw outcomes instance futureCrashPoint gameTable gameCounter now selfInvocations
       with_instance with_queue sleep selfInvoke].
  match goal with
  | |- context [advanceToNextRound env f ?w1] =>
      destruct (advance_quiet_takes env w1 f next eq_refl Hnext) as
        (w' & batch & Hrun & Hc & Hq & _ & _ & Hs); [lia|]
  end.
  exists w'. split; [exact Hrun|]. split; [exact Hc|]. split; [exact Hne|].
  cbn [futureCrashPoint now selfInvocations] in Hq, Hs.
  split; [|split; [|exact Hs]].
  - rewrite Hq. apply in_or_app. left. apply markUsed_other.
    + apply (markUsed_marks nw q p Hin).
    + simpl. congruence.
  - rewrite Hq. apply in_or_app. left. apply (markUsed_marks (nw + 2000) _ next Hin2).
Qed.

Lemma failed_refill_skips_a_point_witness :
  exists w',
    advanceToNextRound sampleEnv 28 lowWorld = Some (Ok, w')
    /\ CrashGame.currentCrashPoint (instance w') = 2.
Proof.
  destruct (failed_refill_skips_a_point sampleEnv lowWorld 28
              (mkFuturePoint 3 (3 # 2) false None) (mkFuturePoint 5 2 false None)
              eq_refl eq_refl (le_S _ _ (le_S _ _ (le_S _ _ (le_S _ _ (le_S _ _
                (le_S _ _ (le_S _ _ (le_S _ _ (le_S _ _ (le_S _ _ (le_S _ _ (le_n 1))))))))))))
              eq_refl (le_n 28))
    as (w' & H1 & H2 & _).
  exists w'. split; assumption.
Defined.

(** ** The mines game *)

Lemma removeFirst_length (x : Z) (l : list Z) :
  In x l -> S (length (MinesGame.removeFirst x l)) = length l.
Proof.
  induction l as [|y l IH]; simpl; [tauto|].
  destruct (y =? x)%Z eqn:E; [reflexivity|].
  intros [H|H]; [apply Z.eqb_neq in E; congruence|]. simpl. now rewrite IH.
Qed.

Lemma removeFirst_In (x y : Z) (l : list Z) :
  In y (MinesGame.removeFirst x l) -> In y l.
Proof.
  induction l as [|z l IH]; simpl; [tauto|].
  destruct (z =? x)%Z; simpl; tauto.
Qed.

Lemma removeFirst_NoDup (x : Z) (l : list Z) :
  List.NoDup l ->
  List.NoDup (MinesGame.removeFirst x l) /\ ~ In x (MinesGame.removeFirst x l).
Proof.
  induction 1 as [|y l Hy Hnd IH]; simpl; [split; [constructor | tauto]|].
  destruct (y =? x)%Z eqn:E.
  - apply Z.eqb_eq in E. subst y. split; assumption.
  - apply Z.eqb_neq in E. destruct IH as [IH1 IH2]. split.
    + constructor; [|exact IH1]. intros H. apply Hy. eapply removeFirst_In, H.
    + simpl. intros [H|H]; [congruence | tauto].
Qed.

Lemma mineLoop_spec (P : Z -> Prop) (numMines : Z) (fuel : nat) :
  forall (h : string) (available positions : list Z),
    mineLoopInvariant P available positions ->
    (numMines <= Z.of_nat (length positions) + Z.of_nat (length available))%Z ->
    (Z.of_nat (length positions) <= numMines \/ numMines < 0)%Z ->
    (numMines <= Z.of_nat (length positions) + Z.of_nat fuel)%Z ->
    exists l,
      MinesGame.mineLoop fuel numMines h available positions = Some l
      /\ Z.of_nat (length l) = Z.max numMines (Z.of_nat (length positions))
      /\ List.NoDup l
      /\ forall x, In x l -> P x.
Proof.
  induction fuel as [|f IH]; intros h available positions Hinv Havail Hsize Hfuel.
  - simpl. destruct (Z.of_nat (length positions) <? numMines)%Z eqn:E.
    + apply Z.ltb_lt in E. lia.
    + apply Z.ltb_ge in E. exists positions. destruct Hinv as (_ & Hnd & _ & Hp).
      repeat split; auto; try lia. intros x Hx. now apply Hp.
  - cbn [MinesGame.mineLoop].
    destruct (Z.of_nat (length positions) <? numMines)%Z eqn:E.
    2:{ apply Z.ltb_ge in E. exists positions. destruct Hinv as (_ & Hnd & _ & Hp).
        repeat split; auto; try lia. intros x Hx. now apply Hp. }
    apply Z.ltb_lt in E. cbv zeta.
    set (h' := Sha256.generateHash h).
    set (number := Sha256.parseInt16 (String.substring 0 8 h')).
    assert (Hlen : (0 < Z.of_nat (length available))%Z) by lia.
    pose proof (Z.mod_pos_bound number _ Hlen) as Hidx.
    destruct (nth_error available
                (Z.to_nat (number mod Z.of_nat (length available)))) as [position|] eqn:N.
    2:{ apply nth_error_None in N. lia. }
    apply nth_error_In in N.
    destruct Hinv as (Hna & Hnp & Ha & Hp).
    destruct (existsb (Z.eqb position) positions) eqn:X.
    { apply existsb_exists in X. destruct X as (y & Hy & Heq). apply Z.eqb_eq in Heq.
      subst y. destruct (Hp _ Hy) as [_ Hno]. contradiction. }
    destruct (removeFirst_NoDup position available Hna) as [Hna' Hgone].
    pose proof (removeFirst_length position available N) as Hl.
    destruct (IH h' (MinesGame.removeFirst position available) (positions ++ [position]))
      as (l & Hrun & Hlen' & Hnd & Hall).
    + split; [exact Hna'|]. split; [|split].
      * apply List.NoDup_app; [exact Hnp | repeat constructor; simpl; tauto |].
        intros x Hx [<-|[]]. destruct (Hp _ Hx) as [_ Hno]. contradiction.
      * intros x Hx. apply Ha. eapply removeFirst_In, Hx.
      * intros x Hx. apply in_app_or in Hx. destruct Hx as [Hx|[<-|[]]].
        -- destruct (Hp _ Hx) as [HP Hno]. split; [exact HP|].
           intros Hin. apply Hno. eapply removeFirst_In, Hin.
        -- split; [now apply Ha | exact Hgone].
    + rewrite length_app. simpl. lia.
    + rewrite length_app. simpl. lia.
    + rewrite length_app. simpl. lia.
    + exists l. split; [exact Hrun|]. rewrite length_app in Hlen'. simpl in Hlen'.
      repeat split; auto. lia.
Qed.

Lemma insertAsc_In (x y : Z) (l : list Z) :
  In y (MinesGame.insertAsc x l) <-> y = x \/ In y l.
Proof.
  induction l as [|z l IH]; simpl; [intuition|].
  destruct (x <=? z)%Z; simpl; [intuition|]. rewrite IH. intuition.
Qed.

Lemma insertAsc_length (x : Z) (l : list Z) :
  length (MinesGame.insertAsc x l) = S (length l).
Proof.
  induction l as [|z l IH]; simpl; [reflexivity|].
  destruct (x <=? z)%Z; simpl; [reflexivity | now rewrite IH].
Qed.

Lemma insertAsc_sorted (x : Z) (l : list Z) :
  StronglySorted Z.lt l -> ~ In x l -> StronglySorted Z.lt (MinesGame.insertAsc x l).
Proof.
  induction 1 as [|z l Hs IH Hall]; simpl; intros Hx.
  - repeat constructor.
  - destruct (x <=? z)%Z eqn:E.
    + apply Z.leb_le in E. assert (x < z)%Z by lia.
      constructor; [constructor; assumption|].
      constructor; [assumption|].
      eapply List.Forall_impl; [|exact Hall]. simpl. intros; lia.
    + apply Z.leb_gt in E. constructor; [apply IH; tauto|].
      apply List.Forall_forall. intros y Hy. apply insertAsc_In in Hy.
      destruct Hy as [->|Hy]; [exact E|].
      rewrite List.Forall_forall in Hall. now apply Hall.
Qed.

Lemma sortAsc_spec (l : list Z) :
  List.NoDup l ->
  StronglySorted Z.lt (MinesGame.sortAsc l)
  /\ length (MinesGame.sortAsc l) = length l
  /\ forall x, In x (MinesGame.sortAsc l) <-> In x l.
Proof.
  unfold MinesGame.sortAsc.
  induction 1 as [|y l Hy Hnd (IH1 & IH2 & IH3)]; simpl.
  - repeat split; auto. constructor.
  - split; [|split].
    + apply insertAsc_sorted; [exact IH1|]. now rewrite IH3.
    + now rewrite insertAsc_length, IH2.
    + intros x. rewrite insertAsc_In, IH3. intuition.
Qed.

Lemma keys_spec (n : nat) (x : Z) : In x (MinesGame.keys n) <-> (0 <= x < Z.of_nat n)%Z.
Proof.
  unfold MinesGame.keys. rewrite in_map_iff. split.
  - intros (k & <- & Hk). apply in_seq in Hk. lia.
  - intros H. exists (Z.to_nat x). split; [lia|]. apply in_seq. lia.
Qed.

Lemma keys_NoDup (n : nat) : List.NoDup (MinesGame.keys n).
Proof.
  unfold MinesGame.keys. apply Finite.Injective_map_NoDup; [|apply seq_NoDup].
  intros a b H. lia.
Qed.

Lemma keys_without (f : Z) :
  (0 <= f < 25)%Z ->
  length (List.filter (fun i => negb (i =? f)%Z) (MinesGame.keys MinesGame.GRID_SIZE)) = 24%nat.
Proof.
  intros H.
  assert (Hcases : In f (MinesGame.keys 25)) by (apply keys_spec; simpl; lia).
  simpl in Hcases.
  repeat (destruct Hcases as [<-|Hcases]; [reflexivity|]). destruct Hcases.
Qed.

Lemma generateMinePositions_safe (fuel : nat) (st : MinesGame.GameState)
    (numMines firstClickIndex : Z) :
  (0 <= firstClickIndex < 25)%Z ->
  (0 <= numMines <= 24)%Z ->
  (numMines <= Z.of_nat fuel)%Z ->
  exists mines,
    MinesGame.generateMinePositions fuel st numMines firstClickIndex = Some mines
    /\ Z.of_nat (length mines) = numMines
    /\ StronglySorted Z.lt mines
    /\ ~ In firstClickIndex mines
    /\ forall x, In x mines -> (0 <= x < 25)%Z.
Proof.
  intros Hclick Hmines Hfuel.
  unfold MinesGame.generateMinePositions. cbv zeta.
  set (available := List.filter _ _).
  destruct (mineLoop_spec (fun x => (0 <= x < 25)%Z /\ x <> firstClickIndex) numMines fuel
              (Sha256.calculateHmac
                 (MinesGame.clientSeed st +:+ "-" +:+ MinesGame.salt st +:+ "-"
                  +:+ MinesGame.nonce st) (MinesGame.serverSeed st))
              available [])
    as (l & Hrun & Hlen & Hnd & Hall).
  - split; [apply List.NoDup_filter, keys_NoDup|]. split; [constructor|].
    split; [|simpl; tauto].
    intros x Hx. apply filter_In in Hx. destruct Hx as [Hk Hne].
    apply keys_spec in Hk. change (Z.of_nat MinesGame.GRID_SIZE) with 25%Z in Hk.
    apply negb_true_iff, Z.eqb_neq in Hne.
    split; [lia | exact Hne].
  - unfold available. rewrite (keys_without _ Hclick). simpl. lia.
  - simpl. lia.
  - simpl. lia.
  - rewrite Hrun. simpl. destruct (sortAsc_spec l Hnd) as (Hs & Hl & Hin).
    exists (MinesGame.sortAsc l). split; [reflexivity|].
    split; [rewrite Hl, Hlen; simpl; lia|]. split; [exact Hs|]. split.
    + intros H. apply Hin, Hall in H. destruct H as [_ H]. congruence.
    + intros x Hx. apply Hin, Hall in Hx. tauto.
Qed.

(** X20. For a first click on the grid and up to 24 mines,
    [generateMinePositions] returns, and what it returns are exactly as
    many positions as asked for, in strictly increasing order, all on
    the grid, and none of them the cell clicked first.  [verifyGame]
    returns as many positions, in strictly increasing order and on the
    grid, too. *)
Theorem generateMinePositions_spec (fuel : nat) (st : MinesGame.GameState)
    (numMines firstClickIndex : Z)
    (Hclick : (0 <= firstClickIndex < 25)%Z)
    (Hmines : (0 <= numMines <= 24)%Z)
    (Hfuel : (numMines <= Z.of_nat fuel)%Z) :
  (exists mines,
     MinesGame.generateMinePositions fuel st numMines firstClickIndex = Some mines
     /\ Z.of_nat (length mines) = numMines
     /\ StronglySorted Z.lt mines
     /\ ~ In firstClickIndex mines
     /\ forall x, In x mines -> (0 <= x < 25)%Z)
  /\ forall clientSeed serverSeed salt,
       exists positions,
         MinesGame.verifyGame fuel clientSeed serverSeed salt numMines = Some positions
         /\ Z.of_nat (length positions) = numMines
         /\ StronglySorted Z.lt positions
         /\ forall x, In x positions -> (0 <= x < 25)%Z.
Proof.
  split; [now apply generateMinePositions_safe|].
  intros clientSeed serverSeed salt. unfold MinesGame.verifyGame. cbv zeta.
  destruct (mineLoop_spec (fun x => (0 <= x < 25)%Z) numMines fuel
              (Sha256.calculateHmac (clientSeed +:+ "-" +:+ salt) serverSeed)
              (MinesGame.keys 25) [])
    as (l & Hrun & Hlen & Hnd & Hall).
  - split; [apply keys_NoDup|]. split; [constructor|]. split; [|simpl; tauto].
    intros x Hx. now apply keys_spec in Hx.
  - unfold MinesGame.keys. rewrite length_map, length_seq. simpl. lia.
  - simpl. lia.
  - simpl. lia.
  - rewrite Hrun. simpl. destruct (sortAsc_spec l Hnd) as (Hs & Hl & Hin).
    exists (MinesGame.sortAsc l). split; [reflexivity|].
    split; [rewrite Hl, Hlen; simpl; lia|]. split; [exact Hs|].
    intros x Hx. apply Hin, Hall in Hx. exact Hx.
Qed.

Lemma generateMinePositions_spec_witness :
  exists mines,
    MinesGame.generateMinePositions 3 (MinesGame.mkGameState [] [] "c" "s" "x" "n" 3 true 1 10 None)
      3 12 = Some mines
    /\ Z.of_nat (length mines) = 3%Z
    /\ StronglySorted Z.lt mines
    /\ ~ In 12%Z mines
    /\ forall x, In x mines -> (0 <= x < 25)%Z.
Proof.
  assert (Hclick : (0 <= 12 < 25)%Z) by lia.
  assert (Hmines : (0 <= 3 <= 24)%Z) by lia.
  assert (Hfuel : (3 <= Z.of_nat 3)%Z) by (cbn; lia).
  exact (proj1 (generateMinePositions_spec 3
                  (MinesGame.mkGameState [] [] "c" "s" "x" "n" 3 true 1 10 None)
                  3 12 Hclick Hmines Hfuel)).
Defined.

Lemma toFixed4_mono (x y : Q) : x <= y -> MinesGame.toFixed4 x <= MinesGame.toFixed4 y.
Proof.
  intros H. unfold MinesGame.toFixed4, Num.Math_round, Qdiv.
  apply Qmult_le_compat_r; [|discriminate].
  rewrite <- Zle_Qle. apply Qfloor_resp_le. lra.
Qed.

Lemma toFixed4_bounds (x : Q) :
  x - (1 # 20000) < MinesGame.toFixed4 x /\ MinesGame.toFixed4 x <= x + (1 # 20000).
Proof.
  unfold MinesGame.toFixed4. destruct (Math_round_bounds (x * 10000)) as [H1 H2].
  unfold Qdiv. change (/ 10000) with (1 # 10000). split; lra.
Qed.

Lemma fair_profit (S M : Q) :
  0 < S -> 0 <= M ->
  1 + (1 / (S / (S + M)) - 1) * (1 - (1 # 100)) == 1 + (99 # 100) * (M / S).
Proof. intros HS HM. field. split; lra. Qed.

Lemma calculateMultiplier_formula (revealed mines : Z) :
  (0 <= mines)%Z -> (revealed + mines < 25)%Z ->
  MinesGame.calculateMultiplier revealed mines
  = MinesGame.toFixed4
      (1 + (1 / (inject_Z (25 - revealed - mines) / inject_Z (25 - revealed)) - 1)
           * (1 - (1 # 100)))
  /\ 1 + (1 / (inject_Z (25 - revealed - mines) / inject_Z (25 - revealed)) - 1)
         * (1 - (1 # 100))
     == 1 + (99 # 100) * (inject_Z mines / inject_Z (25 - revealed - mines)).
Proof.
  intros Hm Hs. unfold MinesGame.calculateMultiplier.
  change (Z.of_nat MinesGame.GRID_SIZE) with 25%Z. cbv zeta.
  destruct (25 - revealed - mines <=? 0)%Z eqn:E; [apply Z.leb_le in E; lia|].
  split; [reflexivity|].
  set (s := (25 - revealed - mines)%Z) in *.
  replace (25 - revealed)%Z with (s + mines)%Z by (unfold s; lia).
  rewrite inject_Z_plus. apply fair_profit.
  - change 0 with (inject_Z 0). rewrite <- Zlt_Qlt. apply Z.leb_gt in E. lia.
  - change 0 with (inject_Z 0). rewrite <- Zle_Qle. lia.
Qed.

Lemma ratio_bounds (S M : Q) :
  1 <= S -> S <= 24 -> 1 <= M -> M <= 24 ->
  (1 # 24) <= M / S /\ M / S <= 24.
Proof.
  intros H1 H2 H3 H4. split.
  - apply Qle_shift_div_l; lra.
  - apply Qle_shift_div_r; lra.
Qed.

Lemma ratio_mono (S M : Q) : 1 < S -> 0 <= M -> M / S <= M / (S - 1).
Proof.
  intros HS HM. apply Qle_shift_div_l; [lra|].
  assert (E : M / S * (S - 1) == M - M / S) by (field; lra).
  rewrite E.
  assert (0 <= M / S); [|lra].
  apply Qle_shift_div_l; lra.
Qed.

Lemma multiplier_profit (revealed mines : Z) :
  (1 <= mines)%Z -> (0 <= revealed)%Z -> (revealed + mines < 25)%Z ->
  exists x,
    MinesGame.calculateMultiplier revealed mines = MinesGame.toFixed4 x
    /\ x == 1 + (99 # 100) * (inject_Z mines / inject_Z (25 - revealed - mines))
    /\ (1 # 24) <= inject_Z mines / inject_Z (25 - revealed - mines)
    /\ inject_Z mines / inject_Z (25 - revealed - mines) <= 24.
Proof.
  intros Hmines Hrevealed Hsafe.
  destruct (calculateMultiplier_formula revealed mines) as [Hdef Hval]; [lia | lia|].
  eexists. split; [exact Hdef|]. split; [exact Hval|].
  apply ratio_bounds.
  - change 1 with (inject_Z 1). rewrite <- Zle_Qle. lia.
  - change 24 with (inject_Z 24). rewrite <- Zle_Qle. lia.
  - change 1 with (inject_Z 1). rewrite <- Zle_Qle. lia.
  - change 24 with (inject_Z 24). rewrite <- Zle_Qle. lia.
Qed.

Lemma multiplier_above_1 (revealed mines : Z) :
  (1 <= mines)%Z -> (0 <= revealed)%Z -> (revealed + mines < 25)%Z ->
  1 < MinesGame.calculateMultiplier revealed mines.
Proof.
  intros Hmines Hrevealed Hsafe.
  destruct (multiplier_profit revealed mines Hmines Hrevealed Hsafe)
    as (x & -> & Hx & Hlo & _).
  destruct (toFixed4_bounds x) as [Hb _]. lra.
Qed.

(** X21. With at least one mine and a safe cell still hidden, the
    multiplier of [calculateMultiplier] is above 1, below the fair
    multiplier (hidden cells over hidden safe cells) and at most 24.76,
    and revealing one more cell never lowers it; with no safe cell
    hidden it is 0. *)
Theorem calculateMultiplier_bounds (revealed mines : Z)
    (Hmines : (1 <= mines)%Z)
    (Hrevealed : (0 <= revealed)%Z)
    (Hsafe : (revealed + mines < 25)%Z) :
  let m := MinesGame.calculateMultiplier revealed mines in
  1 < m
  /\ m < inject_Z (25 - revealed) / inject_Z (25 - revealed - mines)
  /\ m <= (2476 # 100)
  /\ ((revealed + 1 + mines < 25)%Z ->
      m <= MinesGame.calculateMultiplier (revealed + 1) mines)
  /\ forall r, (25 <= r + mines)%Z -> MinesGame.calculateMultiplier r mines = 0.
Proof.
  simpl.
  destruct (multiplier_profit revealed mines Hmines Hrevealed Hsafe)
    as (x & Hdef & Hval & Hlo & Hhi).
  set (S := inject_Z (25 - revealed - mines)) in *.
  set (M := inject_Z mines) in *.
  assert (HS1 : 1 <= S) by (unfold S; change 1 with (inject_Z 1); rewrite <- Zle_Qle; lia).
  assert (HM1 : 1 <= M) by (unfold M; change 1 with (inject_Z 1); rewrite <- Zle_Qle; lia).
  rewrite Hdef. destruct (toFixed4_bounds x) as [Hb1 Hb2].
  split; [lra|]. split; [|split; [|split]].
  - assert (Hfair : inject_Z (25 - revealed) / S == 1 + M / S).
    { assert (HR : inject_Z (25 - revealed) == S + M).
      { unfold S, M. rewrite <- inject_Z_plus.
        replace (25 - revealed - mines + mines)%Z with (25 - revealed)%Z by lia.
        reflexivity. }
      rewrite HR. field. lra. }
    rewrite Hfair. lra.
  - apply Qle_trans with (MinesGame.toFixed4 (2476 # 100)).
    + apply toFixed4_mono. lra.
    + vm_compute. discriminate.
  - intros Hmore.
    assert (Hrev' : (0 <= revealed + 1)%Z) by lia.
    destruct (multiplier_profit (revealed + 1) mines Hmines Hrev' Hmore)
      as (x' & Hdef' & Hval' & _).
    rewrite Hdef'. apply toFixed4_mono. rewrite Hval, Hval'.
    fold M. replace (25 - (revealed + 1) - mines)%Z
      with ((25 - revealed - mines) + -1)%Z by lia.
    rewrite inject_Z_plus. fold S. change (inject_Z (-1)) with (-(1)).
    assert (HS2 : 2 <= S)
      by (unfold S; change 2 with (inject_Z 2); rewrite <- Zle_Qle; lia).
    assert (Hmono : M / S <= M / (S - 1)) by (apply ratio_mono; lra).
    unfold Qminus in Hmono. lra.
  - intros r Hr. unfold MinesGame.calculateMultiplier.
    change (Z.of_nat MinesGame.GRID_SIZE) with 25%Z. cbv zeta.
    destruct (25 - r - mines <=? 0)%Z eqn:E; [reflexivity|]. apply Z.leb_gt in E. lia.
Qed.

Lemma calculateMultiplier_bounds_witness :
  1 < MinesGame.calculateMultiplier 1 3.
Proof.
  apply (calculateMultiplier_bounds 1 3); lia.
Defined.

Lemma existsb_eqb_In (x : Z) (l : list Z) : existsb (Z.eqb x) l = true <-> In x l.
Proof.
  rewrite existsb_exists. split.
  - intros (y & Hy & E). apply Z.eqb_eq in E. now subst.
  - intros H. exists x. split; [exact H | apply Z.eqb_refl].
Qed.

Lemma existsb_eqb_not_In (x : Z) (l : list Z) : existsb (Z.eqb x) l = false <-> ~ In x l.
Proof.
  rewrite <- existsb_eqb_In. destruct (existsb (Z.eqb x) l); split; intros; congruence.
Qed.

(** X22. In a game just started with a stake and a number of mines
    that [validateGameConfig] accepts (1 to 24 mines), the first call of
    [revealCell] on a cell of the grid never finds a mine: the game
    stays active with that one cell revealed, the mines laid are as
    many as asked for and none is the cell; the multiplier is above 1
    for up to 23 mines and is 0 for 24 mines.  This holds whether or
    not the update of the stored game succeeds; when it fails the call
    throws after the state has changed. *)
Theorem revealCell_first_click_is_safe (fuel : nat) (dbOk : bool) (index : Z)
    (st : MinesGame.GameState)
    (Hactive : MinesGame.isActive st = true)
    (Hfresh : MinesGame.revealedCells st = [])
    (Hindex : (0 <= index < 25)%Z)
    (Hvalid : MinesGame.validateGameConfig (MinesGame.betAmount st)
                (MinesGame.numberOfMines st) = None)
    (Hfuel : (MinesGame.numberOfMines st <= Z.of_nat fuel)%Z) :
  exists r st',
    MinesGame.revealCell fuel dbOk index st = Some (r, st')
    /\ (if dbOk
        then r = inr (MinesGame.mkRevealResult false [index] (MinesGame.multiplier st')
                        None (MinesGame.betAmount st * MinesGame.multiplier st'))
        else r = inl MinesGame.FailedToRevealCell)
    /\ MinesGame.isActive st' = true
    /\ MinesGame.revealedCells st' = [index]
    /\ Z.of_nat (length (MinesGame.minePositions st')) = MinesGame.numberOfMines st
    /\ ~ In index (MinesGame.minePositions st')
    /\ MinesGame.multiplier st' = MinesGame.calculateMultiplier 1 (MinesGame.numberOfMines st)
    /\ ((MinesGame.numberOfMines st <= 23)%Z -> 1 < MinesGame.multiplier st')
    /\ (MinesGame.numberOfMines st = 24%Z -> MinesGame.multiplier st' = 0).
Proof.
  assert (Hmines : (1 <= MinesGame.numberOfMines st <= 24)%Z).
  { unfold MinesGame.validateGameConfig in Hvalid.
    destruct (_ || _); [discriminate|].
    destruct ((MinesGame.numberOfMines st <? MinesGame.minMines MinesGame.gameConfig)%Z
              || (MinesGame.maxMines MinesGame.gameConfig
                  <? MinesGame.numberOfMines st)%Z) eqn:E; [discriminate|].
    apply orb_false_iff in E. destruct E as [E1 E2].
    apply Z.ltb_ge in E1, E2. simpl in E1, E2. lia. }
  destruct (generateMinePositions_safe fuel st (MinesGame.numberOfMines st) index)
    as (mines & Hgen & Hlen & _ & Hno & _); try lia.
  unfold MinesGame.revealCell. rewrite Hactive, Hfresh.
  change (Z.of_nat MinesGame.GRID_SIZE) with 25%Z.
  destruct (index <? 0)%Z eqn:E1; [apply Z.ltb_lt in E1; lia|].
  destruct (25 <=? index)%Z eqn:E2; [apply Z.leb_le in E2; lia|].
  cbn [negb orb existsb length Nat.eqb app]. rewrite Hgen.
  apply existsb_eqb_not_In in Hno. rewrite Hno.
  assert (Hm : forall m, (m <= 23)%Z -> (1 <= m)%Z -> 1 < MinesGame.calculateMultiplier 1 m).
  { intros m H23 H1. apply multiplier_above_1; lia. }
  assert (H0 : MinesGame.numberOfMines st = 24%Z ->
               MinesGame.calculateMultiplier 1 (MinesGame.numberOfMines st) = 0).
  { intros ->. reflexivity. }
  apply existsb_eqb_not_In in Hno.
  destruct dbOk; eexists _, _; (split; [reflexivity|]); cbn;
    repeat split; auto; intros; apply Hm; lia.
Qed.

Lemma revealCell_first_click_is_safe_witness :
  exists r st',
    MinesGame.revealCell 24 true 7 (startedGame 24 10 "254700000001") = Some (r, st')
    /\ MinesGame.isActive st' = true
    /\ MinesGame.multiplier st' = 0.
Proof.
  assert (Hindex : (0 <= 7 < 25)%Z) by lia.
  assert (Hfuel : (24 <= Z.of_nat 24)%Z) by (cbn; lia).
  destruct (revealCell_first_click_is_safe 24 true 7 (startedGame 24 10 "254700000001")
              eq_refl eq_refl Hindex eq_refl Hfuel)
    as (r & st' & H1 & _ & H2 & _ & _ & _ & _ & _ & H3).
  exists r, st'. split; [exact H1|]. split; [exact H2|]. apply H3. reflexivity.
Defined.

Lemma revealCell_keeps_invariant (fuel : nat) (dbOk : bool) (index : Z)
    (st : MinesGame.GameState) :
  (0 <= MinesGame.numberOfMines st <= 24)%Z ->
  (MinesGame.numberOfMines st <= Z.of_nat fuel)%Z ->
  gameInvariant st ->
  exists r st',
    MinesGame.revealCell fuel dbOk index st = Some (r, st')
    /\ gameInvariant st'
    /\ MinesGame.numberOfMines st' = MinesGame.numberOfMines st
    /\ MinesGame.betAmount st' = MinesGame.betAmount st
    /\ (MinesGame.isActive st = false -> st' = st)
    /\ (MinesGame.revealedCells st <> [] ->
        MinesGame.minePositions st' = MinesGame.minePositions st).
Proof.
  intros Hmines Hfuel Hinv. pose proof Hinv as (Hnd & Hgrid & Hlaid).
  unfold MinesGame.revealCell.
  destruct (MinesGame.isActive st) eqn:Hactive; cbn [negb].
  2:{ exists (inl MinesGame.NoActiveGame), st.
      split; [reflexivity|]. split; [exact Hinv|]. repeat split; auto. }
  change (Z.of_nat MinesGame.GRID_SIZE) with 25%Z.
  destruct ((index <? 0)%Z || (25 <=? index)%Z) eqn:E.
  { exists (inl MinesGame.InvalidCellIndex), st.
    split; [reflexivity|]. split; [exact Hinv|]. repeat split; auto; discriminate. }
  apply orb_false_iff in E. destruct E as [E1 E2].
  apply Z.ltb_ge in E1. apply Z.leb_gt in E2.
  destruct (existsb (Z.eqb index) (MinesGame.revealedCells st)) eqn:Hrev.
  { exists (inl MinesGame.CellAlreadyRevealed), st.
    split; [reflexivity|]. split; [exact Hinv|]. repeat split; auto; discriminate. }
  apply existsb_eqb_not_In in Hrev.
  assert (Hnd' : List.NoDup (MinesGame.revealedCells st ++ [index])).
  { apply List.NoDup_app; [exact Hnd | repeat constructor; simpl; tauto|].
    intros x Hx [<-|[]]. contradiction. }
  assert (Hgrid' : forall c, In c (MinesGame.revealedCells st ++ [index]) ->
                             (0 <= c < 25)%Z).
  { intros c Hc. apply in_app_or in Hc. destruct Hc as [Hc|[<-|[]]]; [auto | lia]. }
  assert (Hgen : exists mines,
             (if Nat.eqb (length (MinesGame.revealedCells st)) 0
              then MinesGame.generateMinePositions fuel st (MinesGame.numberOfMines st) index
              else Some (MinesGame.minePositions st)) = Some mines
             /\ Z.of_nat (length mines) = MinesGame.numberOfMines st
             /\ StronglySorted Z.lt mines
             /\ (forall c, In c mines -> (0 <= c < 25)%Z)
             /\ (forall c, In c (MinesGame.revealedCells st) -> ~ In c mines)
             /\ (MinesGame.revealedCells st <> [] -> mines = MinesGame.minePositions st)).
  { destruct (MinesGame.revealedCells st) as [|c0 cells] eqn:Hcells.
    - destruct (generateMinePositions_safe fuel st (MinesGame.numberOfMines st) index)
        as (mines & Hg & Hl & Hs & Hno & Hin); try lia.
      exists mines. simpl. split; [exact Hg|]. split; [exact Hl|]. split; [exact Hs|].
      split; [exact Hin|]. split; [intros c []|]. intros H. congruence.
    - destruct Hlaid as (Hl & Hs & Hin & Hplay); [discriminate|].
      destruct (Hplay eq_refl) as [Hsafe _].
      exists (MinesGame.minePositions st). simpl.
      split; [reflexivity|]. split; [exact Hl|]. split; [exact Hs|].
      split; [exact Hin|]. split; [exact Hsafe|]. reflexivity. }
  destruct Hgen as (mines & -> & Hl & Hs & Hin & Hsafe & Hsame).
  assert (Hsafe' : existsb (Z.eqb index) mines = false ->
                   forall c, In c (MinesGame.revealedCells st ++ [index]) ->
                             ~ In c mines).
  { intros Hhit c Hc. apply existsb_eqb_not_In in Hhit.
    apply in_app_or in Hc. destruct Hc as [Hc|[<-|[]]]; auto. }
  destruct (existsb (Z.eqb index) mines) eqn:Hhit;
    destruct dbOk; eexists _, _; (split; [reflexivity|]);
    unfold gameInvariant, MinesGame.with_reveal;
    cbn [MinesGame.revealedCells MinesGame.minePositions MinesGame.isActive
         MinesGame.multiplier MinesGame.numberOfMines MinesGame.betAmount];
    (split; [split; [exact Hnd'|split; [exact Hgrid'|]]|]);
    try intros _; repeat split; auto; try congruence;
    match goal with H : In ?c mines |- _ => destruct (Hin c H); lia end.
Qed.

(** X23. From a game just started with up to 24 mines, through any
    calls of [revealCell], whichever of them fail: the revealed cells
    are distinct cells of the grid; the mines, once laid, stay as laid,
    as many as asked for, distinct and on the grid; and while the game
    is active no revealed cell is a mine and the multiplier is that of
    the number of revealed cells.  Once the game is not active, no call
    changes it. *)
Theorem revealCell_invariant (fuel : nat) (calls : list (Z * bool))
    (st : MinesGame.GameState)
    (Hfresh : MinesGame.revealedCells st = [])
    (Hmines : (0 <= MinesGame.numberOfMines st <= 24)%Z)
    (Hfuel : (MinesGame.numberOfMines st <= Z.of_nat fuel)%Z) :
  exists st',
    revealCells fuel calls st = Some st'
    /\ gameInvariant st'
    /\ MinesGame.numberOfMines st' = MinesGame.numberOfMines st
    /\ MinesGame.betAmount st' = MinesGame.betAmount st
    /\ forall more, MinesGame.isActive st' = false ->
                    revealCells fuel more st' = Some st'.
Proof.
  assert (Hinv : gameInvariant st).
  { unfold gameInvariant. rewrite Hfresh.
    split; [constructor|]. split; [intros c []|]. intros H. congruence. }
  clear Hfresh. revert st Hmines Hfuel Hinv.
  induction calls as [|[index dbOk] calls IH]; intros st Hmines Hfuel Hinv.
  - exists st. split; [reflexivity|]. split; [exact Hinv|].
    split; [reflexivity|]. split; [reflexivity|].
    intros more Hoff. induction more as [|[i ok] more IHm]; [reflexivity|].
    cbn [revealCells]. unfold MinesGame.revealCell. rewrite Hoff. cbn [negb].
    exact IHm.
  - destruct (revealCell_keeps_invariant fuel dbOk index st Hmines Hfuel Hinv)
      as (r & st1 & Hrun & Hinv1 & Hn & Hb & _).
    destruct (IH st1) as (st' & Hrest & Hinv' & Hn' & Hb' & Hoff); try congruence.
    exists st'. cbn [revealCells]. rewrite Hrun. split; [exact Hrest|].
    split; [exact Hinv'|]. split; [congruence|]. split; [congruence|]. exact Hoff.
Qed.

Lemma revealCell_invariant_witness :
  exists st',
    revealCells 3 [(4%Z, true); (4%Z, true); (30%Z, false)] (startedGame 3 10 "254700000001")
    = Some st'
    /\ gameInvariant st'.
Proof.
  assert (Hmines : (0 <= 3 <= 24)%Z) by lia.
  assert (Hfuel : (3 <= Z.of_nat 3)%Z) by (cbn; lia).
  destruct (revealCell_invariant 3 [(4%Z, true); (4%Z, true); (30%Z, false)]
              (startedGame 3 10 "254700000001") eq_refl Hmines Hfuel)
    as (st' & H1 & H2 & _).
  exists st'. split; assumption.
Defined.

Lemma sorted_NoDup (l : list Z) : StronglySorted Z.lt l -> List.NoDup l.
Proof.
  induction 1 as [|x l _ IH Hall]; constructor; [|exact IH].
  intros Hin. rewrite List.Forall_forall in Hall. specialize (Hall _ Hin). lia.
Qed.

Lemma sorted_same_elements (l1 : list Z) :
  forall l2,
    StronglySorted Z.lt l1 -> StronglySorted Z.lt l2 ->
    (forall x, In x l1 <-> In x l2) -> l1 = l2.
Proof.
  induction l1 as [|a l1 IH]; intros l2 H1 H2 Hsame.
  - destruct l2 as [|b l2]; [reflexivity|]. exfalso. apply (Hsame b). now left.
  - destruct l2 as [|b l2]; [exfalso; apply (Hsame a); now left|].
    inversion H1 as [|? ? Hs1 Hall1]; subst. inversion H2 as [|? ? Hs2 Hall2]; subst.
    rewrite List.Forall_forall in Hall1, Hall2.
    assert (Hab : a = b).
    { destruct (proj1 (Hsame a) (or_introl eq_refl)) as [E|Ha]; [congruence|].
      destruct (proj2 (Hsame b) (or_introl eq_refl)) as [E|Hb]; [congruence|].
      specialize (Hall1 _ Hb). specialize (Hall2 _ Ha). lia. }
    subst b. f_equal. apply IH; try assumption.
    intros x. split; intros Hx.
    + destruct (proj1 (Hsame x) (or_intror Hx)) as [E|H]; [|exact H].
      specialize (Hall1 _ Hx). lia.
    + destruct (proj2 (Hsame x) (or_intror Hx)) as [E|H]; [|exact H].
      specialize (Hall2 _ Hx). lia.
Qed.

Lemma keys_without_sorted (f : Z) :
  (0 <= f < 25)%Z ->
  StronglySorted Z.lt
    (List.filter (fun i => negb (i =? f)%Z) (MinesGame.keys MinesGame.GRID_SIZE)).
Proof.
  intros H.
  assert (Hcases : In f (MinesGame.keys 25)) by (apply keys_spec; simpl; lia).
  simpl in Hcases.
  repeat (destruct Hcases as [<-|Hcases];
          [vm_compute List.filter; repeat constructor|]).
  destruct Hcases.
Qed.

(** X24. With 24 mines, the positions [generateMinePositions] returns
    are all the cells of the grid but the one clicked first, whatever
    the seeds.  [verifyGame], which is not given the first click,
    therefore differs from the positions of the game for at least one
    of any two different first clicks. *)
Theorem all_but_first_click_mined (fuel : nat) (st : MinesGame.GameState)
    (first second : Z)
    (Hfirst : (0 <= first < 25)%Z)
    (Hsecond : (0 <= second < 25)%Z)
    (Hdistinct : first <> second)
    (Hfuel : (24 <= fuel)%nat) :
  MinesGame.generateMinePositions fuel st 24 first
  = Some (List.filter (fun i => negb (i =? first)%Z) (MinesGame.keys MinesGame.GRID_SIZE))
  /\ (MinesGame.generateMinePositions fuel st 24 first
      <> MinesGame.verifyGame fuel (MinesGame.clientSeed st) (MinesGame.serverSeed st)
           (MinesGame.salt st) 24
      \/ MinesGame.generateMinePositions fuel st 24 second
         <> MinesGame.verifyGame fuel (MinesGame.clientSeed st) (MinesGame.serverSeed st)
              (MinesGame.salt st) 24).
Proof.
  assert (Hall : forall f, (0 <= f < 25)%Z ->
            MinesGame.generateMinePositions fuel st 24 f
            = Some (List.filter (fun i => negb (i =? f)%Z)
                      (MinesGame.keys MinesGame.GRID_SIZE))).
  { intros f Hf.
    destruct (generateMinePositions_safe fuel st 24 f)
      as (l & Hrun & Hl & Hs & Hno & Hin); try lia.
    rewrite Hrun. f_equal.
    set (rest := List.filter (fun i => negb (i =? f)%Z)
                   (MinesGame.keys MinesGame.GRID_SIZE)).
    assert (Hincl : incl l rest).
    { intros x Hx. apply filter_In. split.
      - apply keys_spec. change (Z.of_nat MinesGame.GRID_SIZE) with 25%Z. now apply Hin.
      - apply negb_true_iff, Z.eqb_neq. intros ->. contradiction. }
    assert (Hback : incl rest l).
    { apply List.NoDup_length_incl; [now apply sorted_NoDup| |exact Hincl].
      unfold rest. rewrite (keys_without _ Hf). lia. }
    apply sorted_same_elements; [exact Hs | now apply keys_without_sorted|].
    intros x. split; [apply Hincl | apply Hback]. }
  split; [now apply Hall|].
  assert (Hdiff : MinesGame.generateMinePositions fuel st 24 first
                  <> MinesGame.generateMinePositions fuel st 24 second).
  { intros Heq.
    destruct (generateMinePositions_safe fuel st 24 second)
      as (l & Hrun & _ & _ & Hno & _); try lia.
    assert (Hin : match MinesGame.generateMinePositions fuel st 24 first with
                  | Some mines => In second mines
                  | None => False
                  end).
    { rewrite (Hall first Hfirst). apply filter_In. split.
      - apply keys_spec. change (Z.of_nat MinesGame.GRID_SIZE) with 25%Z. lia.
      - apply negb_true_iff, Z.eqb_neq. congruence. }
    rewrite Heq, Hrun in Hin. contradiction. }
  destruct (decide (MinesGame.generateMinePositions fuel st 24 first
                    = MinesGame.verifyGame fuel (MinesGame.clientSeed st)
                        (MinesGame.serverSeed st) (MinesGame.salt st) 24))
    as [E|E]; [|now left].
  right. rewrite <- E. intros H. apply Hdiff. now symmetry.
Qed.

Lemma all_but_first_click_mined_witness :
  MinesGame.generateMinePositions 24 (startedGame 24 10 "254700000001") 24 0
  = Some (List.filter (fun i => negb (i =? 0)%Z) (MinesGame.keys MinesGame.GRID_SIZE)).
Proof.
  assert (H0 : (0 <= 0 < 25)%Z) by lia.
  assert (H1 : (0 <= 1 < 25)%Z) by lia.
  assert (Hd : 0%Z <> 1%Z) by lia.
  assert (Hf : (24 <= 24)%nat) by lia.
  exact (proj1 (all_but_first_click_mined 24 (startedGame 24 10 "254700000001")
                  0 1 H0 H1 Hd Hf)).
Defined.

(** ** The bet simulator *)

Lemma Math_floor_le (x : Q) : Num.Math_floor x <= x.
Proof. apply Qfloor_le. Qed.

Lemma Math_floor_at_least (k : Z) (x : Q) : inject_Z k <= x -> inject_Z k <= Num.Math_floor x.
Proof.
  intros H. unfold Num.Math_floor. rewrite <- Zle_Qle.
  rewrite <- (Qfloor_Z k). now apply Qfloor_resp_le.
Qed.

Lemma Math_floor_below (k : Z) (x : Q) :
  x < inject_Z (k + 1) -> Num.Math_floor x <= inject_Z k.
Proof.
  intros H. unfold Num.Math_floor. rewrite <- Zle_Qle.
  assert (Hlt : (Qfloor x < k + 1)%Z); [|lia].
  rewrite Zlt_Qlt. eapply Qle_lt_trans; [apply Qfloor_le | exact H].
Qed.

Lemma Math_round_mono (x y : Q) : x <= y -> Num.Math_round x <= Num.Math_round y.
Proof.
  intros H. unfold Num.Math_round. rewrite <- Zle_Qle. apply Qfloor_resp_le. lra.
Qed.

Lemma toFixed2_mono (x y : Q) : x <= y -> BetSimulator.toFixed2 x <= BetSimulator.toFixed2 y.
Proof.
  intros H. unfold BetSimulator.toFixed2, Qdiv.
  apply Qmult_le_compat_r; [|discriminate]. apply Math_round_mono. lra.
Qed.

Lemma scaled_draw (r b : Q) : 0 <= r -> r < 1 -> 0 <= b -> 0 <= r * b /\ r * b <= b.
Proof.
  intros H0 H1 Hb. split.
  - now apply Qmult_le_0_compat.
  - rewrite <- (Qmult_1_l b) at 2. apply Qmult_le_compat_r; [lra | exact Hb].
Qed.

(** X25. For a user of any betting style and any values of
    [Math.random()], the amount of [generateBetAmount] is a whole
    number between the lower end of the range of the style and 1.3
    times its upper end, hence between 10 and 13000; and the target
    multiplier of [generateTargetMultiplier] lies between 1.08 and
    9.9. *)
Theorem simulated_bet_in_range (userSuffix walletSuffix : string)
    (styleDraw baseDraw varianceDraw : Q) (d : BetSimulator.BetDraws)
    (Hbase : isRandom baseDraw) (Hvariance : isRandom varianceDraw)
    (Hamount : isRandom (BetSimulator.amountDraw d))
    (Hsize : isRandom (BetSimulator.sizeDraw d)) :
  let user := BetSimulator.generateSimulatedUser userSuffix walletSuffix styleDraw
                baseDraw varianceDraw in
  let amount := BetSimulator.generateBetAmount user d in
  BetSimulator.min (BetSimulator.preferredBetRange user) <= amount
  /\ amount <= (13 # 10) * BetSimulator.max (BetSimulator.preferredBetRange user)
  /\ 10 <= amount
  /\ amount <= 13000
  /\ amount = inject_Z (Qfloor amount)
  /\ (108 # 100) <= BetSimulator.targetMultiplier user
  /\ BetSimulator.targetMultiplier user <= (99 # 10).
Proof.
  destruct Hbase as [Hb0 Hb1], Hvariance as [Hv0 Hv1], Hamount as [Ha0 Ha1],
    Hsize as [Hs0 Hs1].
  cbv zeta. unfold BetSimulator.generateSimulatedUser, BetSimulator.generateBetAmount.
  cbn [BetSimulator.preferredBetRange BetSimulator.targetMultiplier].
  set (style := BetSimulator.assignBettingStyle styleDraw).
  set (range := BetSimulator.getPreferredBetRange style).
  set (base := Num.Math_floor (BetSimulator.amountDraw d
                               * (BetSimulator.max range - BetSimulator.min range + 1)
                               + BetSimulator.min range)).
  set (variance := if Num.Qltb (BetSimulator.kindDraw d) (2 # 10)
                   then BetSimulator.sizeDraw d * base * (3 # 10)
                   else BetSimulator.sizeDraw d * base * (1 # 10)).
  assert (Hrange : (BetSimulator.min range = 10 /\ BetSimulator.max range = 500)
                   \/ (BetSimulator.min range = 500 /\ BetSimulator.max range = 2000)
                   \/ (BetSimulator.min range = 2000 /\ BetSimulator.max range = 10000)).
  { unfold range. destruct style; simpl; tauto. }
  assert (Hbase : BetSimulator.min range <= base /\ base <= BetSimulator.max range).
  { unfold base. destruct Hrange as [[-> ->]|[[-> ->]|[-> ->]]].
    - split.
      + apply (Math_floor_at_least 10). change (inject_Z 10) with 10. lra.
      + apply (Math_floor_below 500). change (inject_Z (500 + 1)) with 501. lra.
    - split.
      + apply (Math_floor_at_least 500). change (inject_Z 500) with 500. lra.
      + apply (Math_floor_below 2000). change (inject_Z (2000 + 1)) with 2001. lra.
    - split.
      + apply (Math_floor_at_least 2000). change (inject_Z 2000) with 2000. lra.
      + apply (Math_floor_below 10000). change (inject_Z (10000 + 1)) with 10001. lra. }
  destruct Hbase as [Hlo Hhi].
  assert (Hpos : 0 <= base) by (destruct Hrange as [[E _]|[[E _]|[E _]]]; rewrite E in Hlo; lra).
  destruct (scaled_draw (BetSimulator.sizeDraw d) base Hs0 Hs1 Hpos) as [Hp0 Hp1].
  assert (Hvar : 0 <= variance /\ variance <= (3 # 10) * base).
  { unfold variance. destruct (Num.Qltb _ _); lra. }
  destruct Hvar as [Hvar0 Hvar1].
  assert (Hwhole : base = inject_Z (Qfloor base)).
  { unfold base, Num.Math_floor. now rewrite Qfloor_Z. }
  assert (Hfloor1 : base <= Num.Math_floor (base + variance)).
  { rewrite Hwhole at 1. apply Math_floor_at_least. rewrite <- Hwhole. lra. }
  pose proof (Math_floor_le (base + variance)) as Hfloor2.
  assert (Htarget : (108 # 100)
                    <= BetSimulator.generateTargetMultiplier style baseDraw varianceDraw
                    /\ BetSimulator.generateTargetMultiplier style baseDraw varianceDraw
                       <= (99 # 10)).
  { unfold BetSimulator.generateTargetMultiplier.
    set (b := match style with
              | BetSimulator.conservative => (12 # 10) + baseDraw * (8 # 10)
              | BetSimulator.moderate => 2 + baseDraw * 2
              | BetSimulator.aggressive => 4 + baseDraw * 5
              end).
    assert (Hb : (12 # 10) <= b /\ b <= 9) by (unfold b; destruct style; lra).
    destruct Hb as [Hb2 Hb3].
    assert (Hbpos : 0 <= b) by lra.
    destruct (scaled_draw varianceDraw b Hv0 Hv1 Hbpos) as [Hq0 Hq1].
    cbv zeta. split.
    - apply Qle_trans with (BetSimulator.toFixed2 (108 # 100)); [vm_compute; discriminate|].
      apply toFixed2_mono. lra.
    - apply Qle_trans with (BetSimulator.toFixed2 (99 # 10)); [|vm_compute; discriminate].
      apply toFixed2_mono. lra. }
  split; [lra|]. split; [lra|].
  split; [destruct Hrange as [[E _]|[[E _]|[E _]]]; rewrite E in Hlo; lra|].
  split; [destruct Hrange as [[_ E]|[[_ E]|[_ E]]]; rewrite E in Hhi; lra|].
  split; [unfold Num.Math_floor; now rewrite Qfloor_Z|].
  exact Htarget.
Qed.

Lemma simulated_bet_in_range_witness :
  10 <= BetSimulator.generateBetAmount
          (BetSimulator.generateSimulatedUser "k3j9x2" "K3J9X2" (1 # 2) (1 # 3) (2 # 3))
          (BetSimulator.mkBetDraws (1 # 4) (1 # 10) (3 # 4)).
Proof.
  assert (H1 : isRandom (1 # 3)) by (split; [discriminate | reflexivity]).
  assert (H2 : isRandom (2 # 3)) by (split; [discriminate | reflexivity]).
  assert (H3 : isRandom (1 # 4)) by (split; [discriminate | reflexivity]).
  assert (H4 : isRandom (3 # 4)) by (split; [discriminate | reflexivity]).
  exact (proj1 (proj2 (proj2
           (simulated_bet_in_range "k3j9x2" "K3J9X2" (1 # 2) (1 # 3) (2 # 3)
              (BetSimulator.mkBetDraws (1 # 4) (1 # 10) (3 # 4)) H1 H2 H3 H4)))).
Defined.

Lemma openRealBets_none (m : gmap string GameSession.Bet) :
  SocketServer.openRealBets m = []
  <-> map_Forall (fun _ b => GameSession.cashoutAt b = None ->
                             Num.isSyntheticWallet (GameSession.walletId b) = true) m.
Proof.
  rewrite map_Forall_to_list. unfold SocketServer.openRealBets.
  induction (map_to_list m) as [|[k b] l IH]; simpl.
  - split; [constructor | reflexivity].
  - rewrite List.Forall_cons_iff. simpl.
    destruct (GameSession.cashoutAt b) as [c|].
    + rewrite IH. split; [intros H; split; [discriminate | exact H] | tauto].
    + destruct (Num.isSyntheticWallet (GameSession.walletId b)); simpl.
      * rewrite IH. tauto.
      * split; [discriminate|]. intros [H _]. specialize (H eq_refl). discriminate.
Qed.

Lemma generated_ids_are_synthetic (suffix : string) :
  Num.isSyntheticWallet (BetSimulator.generateWalletId suffix) = true
  /\ Num.isSyntheticWallet (BetSimulator.generateUserId suffix) = true.
Proof.
  unfold Num.isSyntheticWallet, BetSimulator.generateWalletId, BetSimulator.generateUserId.
  split; destruct suffix; reflexivity.
Qed.

(** X26. The bets of the simulator never count as bets of real
    players: when no real wallet has an open bet on the first track,
    none has after [simulateBetsForNewGame], whoever of the generated
    users bets and whatever the amounts; the second track, the next-round
    lists, the times and the multiplier are untouched; and every bet
    [simulateNextRoundBets] queues carries a synthetic wallet. *)
Theorem simulated_bets_are_not_real (selected : list (BetSimulator.SimulatedUser
                                                      * BetSimulator.BetDraws))
    (s : GameSession.t)
    (Husers : Forall (fun ud => isSimulatedUser (fst ud)) selected)
    (Hnone : SocketServer.openRealBets (GameSession.bets s) = []) :
  let s' := BetSimulator.simulateBetsForNewGame selected s in
  SocketServer.openRealBets (GameSession.bets s') = []
  /\ GameSession.secondBets s' = GameSession.secondBets s
  /\ GameSession.nextRoundBets s' = GameSession.nextRoundBets s
  /\ GameSession.gameStartTime s' = GameSession.gameStartTime s
  /\ GameSession.gameEndTime s' = GameSession.gameEndTime s
  /\ GameSession.currentMultiplier s' = GameSession.currentMultiplier s
  /\ exists queued,
       GameSession.nextRoundBets (BetSimulator.simulateNextRoundBets selected s)
       = GameSession.nextRoundBets s ++ queued
       /\ length queued = length selected
       /\ Forall (fun b => Num.isSyntheticWallet (GameSession.nrWalletId b) = true) queued.
Proof.
  cbv zeta. unfold BetSimulator.simulateBetsForNewGame, BetSimulator.simulateNextRoundBets.
  revert s Hnone. induction Husers as [|[u d] rest Hu _ IH]; intros s Hnone.
  - simpl. repeat split; auto. exists []. rewrite app_nil_r. repeat split; auto.
  - cbn [fold_left fst snd].
    destruct Hu as (us & ws & sd & bd & vd & Hu). cbn [fst] in Hu.
    assert (Hsyn : Num.isSyntheticWallet (BetSimulator.walletId u) = true).
    { rewrite Hu. apply generated_ids_are_synthetic. }
    set (a := BetSimulator.generateBetAmount u d).
    assert (Hstep : SocketServer.openRealBets
                      (GameSession.bets
                         (snd (GameSession.placeBet (BetSimulator.walletId u) a s))) = []
                    /\ GameSession.secondBets
                         (snd (GameSession.placeBet (BetSimulator.walletId u) a s))
                       = GameSession.secondBets s
                    /\ GameSession.nextRoundBets
                         (snd (GameSession.placeBet (BetSimulator.walletId u) a s))
                       = GameSession.nextRoundBets s
                    /\ GameSession.gameStartTime
                         (snd (GameSession.placeBet (BetSimulator.walletId u) a s))
                       = GameSession.gameStartTime s
                    /\ GameSession.gameEndTime
                         (snd (GameSession.placeBet (BetSimulator.walletId u) a s))
                       = GameSession.gameEndTime s
                    /\ GameSession.currentMultiplier
                         (snd (GameSession.placeBet (BetSimulator.walletId u) a s))
                       = GameSession.currentMultiplier s).
    { unfold GameSession.placeBet.
      destruct (GameSession.bets s !! BetSimulator.walletId u) eqn:E; cbn [snd].
      - repeat split; auto.
      - cbn. split; [|repeat split].
        apply openRealBets_none. apply map_Forall_insert_2.
        + intros _. exact Hsyn.
        + now apply openRealBets_none. }
    destruct Hstep as (H1 & H2 & H3 & H4 & H5 & H6).
    destruct (IH _ H1) as (I1 & I2 & I3 & I4 & I5 & I6 & _).
    split; [exact I1|]. split; [congruence|]. split; [congruence|].
    split; [congruence|]. split; [congruence|]. split; [congruence|].
    destruct (IH (GameSession.addNextRoundBet
                    (GameSession.mkNextRoundBet (BetSimulator.walletId u) a) s))
      as (_ & _ & _ & _ & _ & _ & queued & Hq & Hl & Hall).
    { exact Hnone. }
    exists (GameSession.mkNextRoundBet (BetSimulator.walletId u) a :: queued).
    split; [|split].
    + rewrite Hq. cbn. now rewrite <- app_assoc.
    + simpl. now rewrite Hl.
    + constructor; [exact Hsyn | exact Hall].
Qed.

Lemma simulated_bets_are_not_real_witness :
  SocketServer.openRealBets
    (GameSession.bets
       (BetSimulator.simulateBetsForNewGame
          [(BetSimulator.generateSimulatedUser "k3j9x2" "K3J9X2" (1 # 2) (1 # 3) (2 # 3),
            BetSimulator.mkBetDraws (1 # 4) (1 # 10) (3 # 4))]
          simulatedOnlySession)) = [].
Proof.
  refine (proj1 (simulated_bets_are_not_real
            [(BetSimulator.generateSimulatedUser "k3j9x2" "K3J9X2" (1 # 2) (1 # 3) (2 # 3),
              BetSimulator.mkBetDraws (1 # 4) (1 # 10) (3 # 4))]
            simulatedOnlySession _ eq_refl)).
  constructor; [|constructor].
  exists "k3j9x2", "K3J9X2", (1 # 2), (1 # 3), (2 # 3). reflexivity.
Defined.

(** ** Instances of the properties of the session, the policy and the queue *)

Lemma ended_round_stays_ended_witness :
  GameSession.isGameInProgress
    (GameSession.calls (fun _ => 1)
       [GameSession.CallStartGame 3000; GameSession.CallCashout "254700000001"]
       endedSession) = false.
Proof.
  exact (proj1 (ended_round_stays_ended (fun _ => 1)
                  [GameSession.CallStartGame 3000; GameSession.CallCashout "254700000001"]
                  endedSession "254700000001" GameSession.PRIMARY
                  (ex_intro _ 2000%Z eq_refl))).
Defined.

Lemma cashed_out_bet_is_final_witness :
  GameSession.ledger GameSession.PRIMARY
    (GameSession.calls (fun _ => 1)
       [GameSession.CallEndGame 2000; GameSession.CallCancelBet "254700000001";
        GameSession.CallPlaceBet "254700000001" 7]
       cashedOutSession) !! "254700000001"
  = Some (GameSession.mkBet "254700000001" 100 (Some 1)).
Proof.
  apply (cashed_out_bet_is_final (fun _ => 1) _ cashedOutSession GameSession.PRIMARY
           "254700000001" (GameSession.mkBet "254700000001" 100 (Some 1)) 1).
  - vm_compute. reflexivity.
  - reflexivity.
Defined.

Lemma placeBet_cancelBet_round_trip_witness :
  GameSession.cancelBet "254700000001"
    (snd (GameSession.placeBet "254700000001" 100
            (GameSession.new "g1" "hash" 2 "salt" "seed" 7)))
  = (Some 100, GameSession.new "g1" "hash" 2 "salt" "seed" 7).
Proof.
  apply (placeBet_cancelBet_round_trip (GameSession.new "g1" "hash" 2 "salt" "seed" 7)
           "254700000001" 100); reflexivity.
Defined.

Lemma cancelBet_in_progress_witness :
  fst (GameSession.cancelBet "254700000001" queuedSession) = Some 30
  /\ GameSession.nextRoundBets (snd (GameSession.cancelBet "254700000001" queuedSession))
     = [].
Proof.
  destruct (proj2 (proj2 (proj2 (cancelBet_in_progress queuedSession "254700000001"
                                   eq_refl))))
    as [(pre & b & post & Hl & _ & _ & Hr & Hs) | (Hall & _)].
  - rewrite Hr, Hs. destruct pre as [|x pre].
    + injection Hl as <- <-. split; reflexivity.
    + destruct pre; discriminate.
  - inversion Hall as [|x l Hx]. now contradiction Hx.
Defined.

Lemma synthetic_bets_do_not_count_witness :
  CrashGame.calculateBetBasedCrashPoint policyGame someDraws (openStake ++ simulatedStakes)
  = CrashGame.calculateBetBasedCrashPoint policyGame someDraws openStake.
Proof.
  refine (proj1 (synthetic_bets_do_not_count policyGame someDraws true 2 ∅
                   openStake simulatedStakes _)).
  repeat constructor.
Defined.

Lemma policy_bypassed_while_offset_positive_witness :
  exists left,
    CrashGame.applyBetBasedCrashPointIfEnabled true someDraws openStake (Some true)
      (CrashGame.trackRoundResults true lostRoundBets 2 (policyGame, policyRows))
    = Some (CrashGame.Fulfilled false, left)
    /\ CrashGame.currentCrashPoint (fst (snd left)) = 1
    /\ CrashGame.betBasedOffsetAmount (fst (snd left)) = 100.
Proof.
  refine (proj2 (proj2 (policy_bypassed_while_offset_positive true (Some true)
                          lostRoundBets openStake 2 policyGame policyRows someDraws
                          _ _))).
  - vm_compute. discriminate.
  - vm_compute. reflexivity.
Defined.

Lemma generateNextRounds_appends_batch_witness :
  exists r w',
    generateNextRounds sampleEnv 25 (emptyWorld []) = Some (r, w')
    /\ (r = Ok -> batchAdded 25 (emptyWorld []) w')
    /\ (r = Thrown ->
        futureCrashPoint w' = futureCrashPoint (emptyWorld [])
        /\ gameTable w' = gameTable (emptyWorld [])
        /\ gameCounter w' = gameCounter (emptyWorld [])).
Proof.
  apply (generateNextRounds_appends_batch sampleEnv 25 (emptyWorld [])).
  vm_compute. lia.
Defined.

Lemma advanceToNextRound_keeps_queue_witness :
  exists r w',
    advanceToNextRound sampleEnv 29 (emptyWorld [true; false]) = Some (r, w')
    /\ queueGrows (futureCrashPoint (emptyWorld [true; false])) (futureCrashPoint w')
    /\ (queueWellFormed (emptyWorld [true; false]) -> queueWellFormed w')
    /\ (r = Ok -> currentIsConsumed w').
Proof.
  apply (advanceToNextRound_keeps_queue sampleEnv (emptyWorld [true; false]) 29).
  vm_compute. lia.
Defined.

Lemma advanceToNextRound_takes_earliest_witness :
  exists (w' : World) (batch : list FuturePoint),
    advanceToNextRound sampleEnv 27 stockedWorld = Some (Ok, w')
    /\ CrashGame.currentCrashPoint (instance w') = (3 # 2)
    /\ length batch = 25%nat
    /\ (13 <= countUnused (futureCrashPoint w'))%nat.
Proof.
  destruct (advanceToNextRound_takes_earliest sampleEnv stockedWorld 27
              (mkFuturePoint 3 (3 # 2) false None) eq_refl eq_refl (le_n 27))
    as (w' & batch & H1 & _ & _ & H2 & _ & H3 & _ & H4 & _).
  exists w', batch. split; [exact H1|]. split; [exact H2|]. split; [exact H3|]. exact H4.
Defined.
